(** * A shallow embedding of the Prolog engine

    The development follows the Go sources file by file:

    - [Parser]   : the operator table entries of the Pratt parser and their
                   binding priorities ([operator.bindingPriorities]);
    - [Engine]   : terms with an immutable environment ([Env]), the
                   unification of compounds ([Compound.Unify]) and the writer
                   ([Compound.Unparse]);
    - [Prolog]   : terms with mutable variable cells ([Variable.Ref]) and the
                   built-in predicates [Functor], [Univ], [Op], [Assertz];
    - [VM]       : the clause compiler, [VM.arrive] and [clauses.Call] over
                   the promises of the non-determinism core.

    Each module first gives the definitions, then the facts proved of them. *)

From Stdlib Require Import ZArith List String Ascii Bool Lia DecimalString.
From Stdlib Require Import Floats.PrimFloat.
From Stdlib Require DecimalNat.
From stdpp Require Import base option list gmap strings sorting.

Set Warnings "-register-all".

Local Open Scope string_scope.
Local Open Scope list_scope.
Local Open Scope Z_scope.

(** ** Machine integers

    [Integer] is Go's [int64]: arithmetic wraps around. *)

Definition int64_min : Z := - 2 ^ 63.
Definition int64_max : Z := 2 ^ 63 - 1.

Definition wrap64 (z : Z) : Z := (z + 2 ^ 63) mod 2 ^ 64 - 2 ^ 63.

Lemma wrap64_id z : int64_min <= z <= int64_max -> wrap64 z = z.
Proof.
  unfold wrap64, int64_min, int64_max. intros H.
  rewrite Z.mod_small by lia. lia.
Qed.

(** ** The operator table of the parser *)

Module Parser.

(** [type operatorSpecifier uint8] with its seven named values. *)
Definition operatorSpecifier := Z.

Definition operatorSpecifierFX  : operatorSpecifier := 0.
Definition operatorSpecifierFY  : operatorSpecifier := 1.
Definition operatorSpecifierXF  : operatorSpecifier := 2.
Definition operatorSpecifierYF  : operatorSpecifier := 3.
Definition operatorSpecifierXFX : operatorSpecifier := 4.
Definition operatorSpecifierXFY : operatorSpecifier := 5.
Definition operatorSpecifierYFX : operatorSpecifier := 6.

Record operator := {
  priority  : Z;   (* Integer, 1 ~ 1200 *)
  specifier : operatorSpecifier;
  name      : string
}.

(** [const max = Integer(1202)] inside [bindingPriorities]. *)
Definition max : Z := 1202.

(** Pratt parser's binding powers but in Prolog priority. *)
Definition bindingPriorities (o : operator) : Z * Z :=
  if specifier o =? operatorSpecifierFX then (max, wrap64 (priority o - 1))
  else if specifier o =? operatorSpecifierFY then (max, priority o)
  else if specifier o =? operatorSpecifierXF then (wrap64 (priority o - 1), max)
  else if specifier o =? operatorSpecifierYF then (priority o, max)
  else if specifier o =? operatorSpecifierXFX then
    (wrap64 (priority o - 1), wrap64 (priority o - 1))
  else if specifier o =? operatorSpecifierXFY then (wrap64 (priority o - 1), priority o)
  else if specifier o =? operatorSpecifierYFX then (priority o, wrap64 (priority o - 1))
  else (max, max).

(** The test of [Parser.infix]: an operator is skipped when its left binding
    priority exceeds the maximum priority of the term being parsed. *)
Definition infix_skips (o : operator) (maxPriority : Z) : bool :=
  fst (bindingPriorities o) >? maxPriority.

(** The test of [Parser.term]: the operator takes no right operand. *)
Definition no_right_operand (o : operator) : bool :=
  snd (bindingPriorities o) >? 1200.

Definition mk (s : operatorSpecifier) (p : Z) (n : string) : operator :=
  {| priority := p; specifier := s; name := n |}.

(** *** Facts *)

Lemma pred_in_range p : int64_min < p <= int64_max -> wrap64 (p - 1) = p - 1.
Proof. intros H. apply wrap64_id. unfold int64_min, int64_max in *. lia. Qed.

(** C8. For an operator of priority [P] the left and right binding priorities
    are: fx (inf, P-1); fy (inf, P); xf (P-1, inf); yf (P, inf);
    xfx (P-1, P-1); xfy (P-1, P); yfx (P, P-1), where inf = 1202 is strictly
    greater than 1201, so that the comparison of that side with any maximum
    priority (at most 1201) disables it: a prefix operator is never taken as
    an infix one, and a postfix operator never takes a right operand. *)
Theorem bindingPriorities_table (P : Z) (n : string) :
  int64_min < P <= int64_max ->
  bindingPriorities (mk operatorSpecifierFX P n) = (max, P - 1) /\
  bindingPriorities (mk operatorSpecifierFY P n) = (max, P) /\
  bindingPriorities (mk operatorSpecifierXF P n) = (P - 1, max) /\
  bindingPriorities (mk operatorSpecifierYF P n) = (P, max) /\
  bindingPriorities (mk operatorSpecifierXFX P n) = (P - 1, P - 1) /\
  bindingPriorities (mk operatorSpecifierXFY P n) = (P - 1, P) /\
  bindingPriorities (mk operatorSpecifierYFX P n) = (P, P - 1) /\
  1201 < max /\
  (forall maxPriority, maxPriority <= 1201 ->
     infix_skips (mk operatorSpecifierFX P n) maxPriority = true /\
     infix_skips (mk operatorSpecifierFY P n) maxPriority = true) /\
  no_right_operand (mk operatorSpecifierXF P n) = true /\
  no_right_operand (mk operatorSpecifierYF P n) = true.
Proof.
  intros HP. pose proof (pred_in_range P HP) as Hw.
  unfold bindingPriorities, infix_skips, no_right_operand; cbn [specifier priority mk fst snd].
  rewrite Hw. cbn.
  repeat split; try reflexivity; unfold max; lia.
Qed.

Lemma bindingPriorities_table_700 :
  bindingPriorities (mk operatorSpecifierXFX 700 "=") = (699, 699) /\
  bindingPriorities (mk operatorSpecifierYFX 700 "=") = (700, 699).
Proof.
  assert (H : int64_min < 700 <= int64_max) by (unfold int64_min, int64_max; lia).
  pose proof (bindingPriorities_table 700 "=" H) as T.
  split; [ exact (proj1 (proj2 (proj2 (proj2 (proj2 T)))))
         | exact (proj1 (proj2 (proj2 (proj2 (proj2 (proj2 (proj2 T))))))) ].
Defined.

(** *** The token buffer of the parser *)

(** The kinds of token that the parser reads; [Token] is declared with the
    lexer. *)
Inductive TokenKind :=
| TokenEOF | TokenInsufficient | TokenEnd
| TokenLetterDigit | TokenGraphic | TokenQuoted | TokenDoubleQuotedList
| TokenVariable | TokenInteger | TokenFloatNumber
| TokenOpenCT | TokenOpen | TokenClose
| TokenOpenList | TokenCloseList | TokenOpenCurly | TokenCloseCurly
| TokenComma | TokenBar | TokenSemicolon | TokenCut | TokenInvalid.

Record Token := {
  Kind : TokenKind;
  Val : string
}.

(** [type tokenRingBuffer struct { buf [4]Token; start, end int }] *)
Record tokenRingBuffer := {
  buf : list Token;     (* of length 4 *)
  start : Z;
  end_ : Z              (* end *)
}.

(** [b.buf[i]]: an index outside of the array panics. *)
Definition inArray (b : tokenRingBuffer) (i : Z) : bool :=
  (0 <=? i) && (i <? Z.of_nat (length (buf b))).

(** [x %= len(b.buf)], the remainder of Go, which has the sign of [x]. *)
Definition modLen (b : tokenRingBuffer) (x : Z) : Z := Z.rem x (Z.of_nat (length (buf b))).

(** The methods; [None] is the panic of an index out of range. *)
Definition put (t : Token) (b : tokenRingBuffer) : option tokenRingBuffer :=
  if inArray b (end_ b) then
    Some {| buf := <[Z.to_nat (end_ b) := t]> (buf b);
            start := start b;
            end_ := modLen b (end_ b + 1) |}
  else None.

Definition get (b : tokenRingBuffer) : option (Token * tokenRingBuffer) :=
  if inArray b (start b) then
    match buf b !! Z.to_nat (start b) with
    | Some t => Some (t, {| buf := buf b; start := modLen b (start b + 1); end_ := end_ b |})
    | None => None
    end
  else None.

Definition current (b : tokenRingBuffer) : option Token :=
  if inArray b (start b) then buf b !! Z.to_nat (start b) else None.

Definition empty (b : tokenRingBuffer) : bool := start b =? end_ b.

Definition backup (b : tokenRingBuffer) : tokenRingBuffer :=
  let s := modLen b (start b - 1) in
  {| buf := buf b;
     start := if s <? 0 then s + Z.of_nat (length (buf b)) else s;
     end_ := end_ b |}.

(** The parser, as far as its tokens go: the lexer is the sequence [lexer]
    of the tokens that [p.lexer.Token()] returns, of which [taken] have
    been taken, and the buffer. *)
Record Parser := {
  lexer : nat -> Token;
  taken : nat;
  tokens : tokenRingBuffer     (* buf *)
}.

(** [func (p *Parser) next() Token] *)
Definition next (p : Parser) : option (Token * Parser) :=
  let filled :=
    if empty (tokens p) then
      match put (lexer p (taken p)) (tokens p) with
      | Some b => Some {| lexer := lexer p; taken := S (taken p); tokens := b |}
      | None => None
      end
    else Some p in
  match filled with
  | None => None
  | Some p1 =>
      match get (tokens p1) with
      | Some (t, b) => Some (t, {| lexer := lexer p1; taken := taken p1; tokens := b |})
      | None => None
      end
  end.

(** [func (p *Parser) backup()] *)
Definition Parser_backup (p : Parser) : Parser :=
  {| lexer := lexer p; taken := taken p; tokens := backup (tokens p) |}.

(** [func (p *Parser) current() Token] *)
Definition Parser_current (p : Parser) : option Token := current (tokens p).

(** [func (p *Parser) More() bool] *)
Definition More (p : Parser) : option (bool * Parser) :=
  match next p with
  | None => None
  | Some (t, p1) =>
      Some (match Kind t with
            | TokenEOF | TokenInsufficient => false
            | _ => true
            end, Parser_backup p1)
  end.

(** [newParser]: the buffer of a new parser is the zero value. *)
Definition newParser (lex : nat -> Token) (zero : Token) : Parser :=
  {| lexer := lex; taken := 0;
     tokens := {| buf := replicate 4 zero; start := 0; end_ := 0 |} |}.

(** *** Facts on the token buffer *)

(** The buffer of [p] stands for a cursor at the index [pos] of the sequence
    of the lexer: the tokens from [pos] on that have been taken are the ones
    to be delivered again, at most three of them, and the last four tokens
    taken are in their slots. *)
Definition cursor (p : Parser) (pos : nat) : Prop :=
  length (buf (tokens p)) = 4%nat /\
  (pos <= taken p)%nat /\ (taken p <= pos + 3)%nat /\
  start (tokens p) = Z.of_nat (pos mod 4) /\
  end_ (tokens p) = Z.of_nat (taken p mod 4) /\
  forall i, (i < taken p)%nat -> (taken p <= i + 4)%nat ->
    buf (tokens p) !! (i mod 4)%nat = Some (lexer p i).

Ltac euclid :=
  zify; rewrite ?Nat2Z.inj_mod in *; change (Z.of_nat 4) with 4 in *;
  Z.to_euclidean_division_equations; lia.

Lemma cursor_newParser lex zero : cursor (newParser lex zero) 0.
Proof.
  unfold cursor, newParser; cbn [tokens buf start end_ taken lexer].
  repeat split; try reflexivity; try lia.
Qed.

Lemma cursor_empty p pos : cursor p pos -> empty (tokens p) = (pos =? taken p)%nat.
Proof.
  intros (_ & Hle & Hpend & Hs & He & _). unfold empty. rewrite Hs, He.
  destruct (Nat.eqb_spec pos (taken p)) as [->|Hne].
  - apply Z.eqb_refl.
  - apply Z.eqb_neq. euclid.
Qed.

(** [get], on a buffer in which something is left. *)
Lemma cursor_get p pos :
  cursor p pos -> (pos < taken p)%nat ->
  exists b, get (tokens p) = Some (lexer p pos, b) /\
    cursor {| lexer := lexer p; taken := taken p; tokens := b |} (S pos).
Proof.
  intros (Hlen & Hle & Hpend & Hs & He & Hbuf) Hlt.
  unfold get, inArray, modLen. rewrite Hlen, Hs, Nat2Z.id.
  rewrite (Hbuf pos Hlt ltac:(lia)).
  replace ((0 <=? Z.of_nat (pos mod 4)) && (Z.of_nat (pos mod 4) <? Z.of_nat 4))
    with true by (symmetry; apply andb_true_iff; split; [apply Z.leb_le|apply Z.ltb_lt]; euclid).
  eexists. split; [reflexivity|].
  unfold cursor; cbn [tokens buf start end_ taken lexer].
  repeat split; try assumption; try lia. euclid.
Qed.

(** [p.next()] delivers the token at the cursor and moves the cursor on; the
    lexer is asked for a token only when nothing is left in the buffer. *)
Lemma cursor_next p pos :
  cursor p pos ->
  exists p', next p = Some (lexer p pos, p') /\ cursor p' (S pos) /\
    lexer p' = lexer p /\ taken p' = Nat.max (taken p) (S pos).
Proof.
  intros Hc. unfold next. rewrite (cursor_empty p pos Hc).
  destruct (Nat.eqb_spec pos (taken p)) as [Heq|Hne].
  - destruct Hc as (Hlen & Hle & Hpend & Hs & He & Hbuf).
    unfold put, inArray, modLen. rewrite Hlen, He.
    replace ((0 <=? Z.of_nat (taken p mod 4)) && (Z.of_nat (taken p mod 4) <? Z.of_nat 4))
      with true
      by (symmetry; apply andb_true_iff; split; [apply Z.leb_le|apply Z.ltb_lt]; euclid).
    rewrite Nat2Z.id.
    set (p1 := {| lexer := lexer p; taken := S (taken p); tokens := _ |}).
    assert (Hc1 : cursor p1 pos).
    { unfold cursor, p1; cbn [tokens buf start end_ taken lexer].
      rewrite length_insert.
      repeat split; try assumption; try lia; [euclid|].
      intros i Hi Hi'. destruct (decide (i = taken p)) as [->|Hn].
      - apply list_lookup_insert_eq. rewrite Hlen. apply Nat.mod_upper_bound. lia.
      - rewrite list_lookup_insert_ne by euclid. apply Hbuf; lia. }
    destruct (cursor_get p1 pos Hc1) as (b & Hg & Hc'); [unfold p1; cbn; lia|].
    rewrite Hg. eexists. split; [reflexivity|]. split; [exact Hc'|].
    split; [reflexivity|]. unfold p1. cbn [taken]. lia.
  - assert (Hlt : (pos < taken p)%nat) by (destruct Hc as (_ & Hle & _); lia).
    destruct (cursor_get p pos Hc Hlt) as (b & Hg & Hc').
    rewrite Hg. eexists. split; [reflexivity|]. split; [exact Hc'|].
    split; [reflexivity|]. cbn [taken]. lia.
Qed.

(** [p.backup()] moves the cursor back, as long as no more than three tokens
    are to be delivered again. *)
Lemma cursor_backup p pos :
  cursor p (S pos) -> (taken p <= pos + 3)%nat -> cursor (Parser_backup p) pos.
Proof.
  intros (Hlen & Hle & Hpend & Hs & He & Hbuf) Hroom.
  unfold cursor, Parser_backup, backup, modLen; cbn [tokens buf start end_ taken lexer].
  rewrite Hlen, Hs.
  repeat split; try assumption; try lia.
  destruct (Z.ltb_spec (Z.rem (Z.of_nat (S pos mod 4) - 1) (Z.of_nat 4)) 0); euclid.
Qed.

Lemma cursor_current p pos :
  cursor p pos -> (pos < taken p)%nat -> Parser_current p = Some (lexer p pos).
Proof.
  intros (Hlen & Hle & Hpend & Hs & He & Hbuf) Hlt.
  unfold Parser_current, current, inArray. rewrite Hlen, Hs, Nat2Z.id.
  replace ((0 <=? Z.of_nat (pos mod 4)) && (Z.of_nat (pos mod 4) <? Z.of_nat 4))
    with true by (symmetry; apply andb_true_iff; split; [apply Z.leb_le|apply Z.ltb_lt]; euclid).
  apply Hbuf; lia.
Qed.

(** [More]'s test of the kind of a token. *)
Definition isMore (t : Token) : bool :=
  match Kind t with
  | TokenEOF | TokenInsufficient => false
  | _ => true
  end.

Lemma backup_start b :
  length (buf b) = 4%nat -> 0 <= start b < 4 ->
  start (backup b) = (start b + 3) mod 4.
Proof.
  intros Hlen Hs. unfold backup, modLen; cbn [start]. rewrite Hlen.
  change (Z.of_nat 4) with 4.
  destruct (Z.ltb_spec (Z.rem (start b - 1) 4) 0); Z.to_euclidean_division_equations; lia.
Qed.

(** X1.  The buffer of the parser is a cursor into the tokens of the lexer
    with three tokens of look-behind.  [next] delivers the token at the
    cursor and moves on, asking the lexer only for a token that was not taken
    yet; [backup] moves back by one token as long as at most three tokens are
    then to be re-delivered, and [current] is then the token to be delivered
    again.  No index of the array is ever out of range. *)
Theorem token_buffer_cursor (p : Parser) (pos : nat) :
  cursor p pos ->
  (exists p', next p = Some (lexer p pos, p') /\ cursor p' (S pos) /\
     lexer p' = lexer p /\ taken p' = Nat.max (taken p) (S pos)) /\
  (forall q, pos = S q -> (taken p <= q + 3)%nat ->
     cursor (Parser_backup p) q /\
     Parser_current (Parser_backup p) = Some (lexer p q)) /\
  ((pos < taken p)%nat -> Parser_current p = Some (lexer p pos)).
Proof.
  intros Hc. split; [|split].
  - apply cursor_next. exact Hc.
  - intros q -> Hroom. pose proof (cursor_backup p q Hc Hroom) as Hb.
    split; [exact Hb|]. apply (cursor_current _ q Hb).
    destruct Hc as (_ & Hle & _). cbn [Parser_backup taken]. lia.
  - apply cursor_current. exact Hc.
Qed.

(** A lexer for the examples: the token number [i] is the integer [i]. *)
Definition countingLexer (i : nat) : Token :=
  {| Kind := TokenInteger; Val := DecimalString.NilZero.string_of_uint (Nat.to_uint i) |}.

Definition zeroToken : Token := {| Kind := TokenEOF; Val := "" |}.

Lemma token_buffer_cursor_new :
  exists p', next (newParser countingLexer zeroToken) = Some (countingLexer 0, p') /\
    cursor p' 1 /\
    Parser_current (Parser_backup p') = Some (countingLexer 0).
Proof.
  destruct (token_buffer_cursor (newParser countingLexer zeroToken) 0
              (cursor_newParser countingLexer zeroToken))
    as ((p' & Hn & Hc & Hl & Ht) & _).
  exists p'. split; [exact Hn|]. split; [exact Hc|].
  destruct (token_buffer_cursor p' 1 Hc) as (_ & Hb & _).
  destruct (Hb 0%nat eq_refl) as (_ & Hcur).
  - rewrite Ht. cbn. lia.
  - rewrite Hcur, Hl. reflexivity.
Defined.

(** X2.  [More] does not consume: it answers whether the token at the cursor
    is neither the end of the input nor an insufficient input, and leaves the
    cursor where it was, so that the next call of [next] delivers that same
    token. *)
Theorem More_does_not_consume (p : Parser) (pos : nat) :
  cursor p pos ->
  exists p', More p = Some (isMore (lexer p pos), p') /\
    cursor p' pos /\ lexer p' = lexer p /\
    exists p'', next p' = Some (lexer p pos, p'').
Proof.
  intros Hc. destruct (cursor_next p pos Hc) as (p1 & Hn & Hc1 & Hl & Ht).
  unfold More. rewrite Hn. eexists. split; [reflexivity|].
  assert (Hb : cursor (Parser_backup p1) pos).
  { apply cursor_backup; [exact Hc1|]. destruct Hc as (_ & Hle & Hpend & _). lia. }
  split; [exact Hb|]. split; [exact Hl|].
  destruct (cursor_next _ pos Hb) as (p2 & Hn2 & _).
  exists p2. rewrite Hn2. cbn [Parser_backup lexer]. rewrite Hl. reflexivity.
Qed.

Lemma More_does_not_consume_new :
  exists p', More (newParser countingLexer zeroToken) = Some (true, p') /\ cursor p' 0.
Proof.
  destruct (More_does_not_consume (newParser countingLexer zeroToken) 0
              (cursor_newParser countingLexer zeroToken)) as (p' & HM & Hc & _).
  exists p'. split; [exact HM|exact Hc].
Defined.

(** X3.  The look-behind ends at three tokens: four calls of [backup] in a
    row leave the buffer as it was, so that the parser is where it was before
    them and not four tokens back. *)
Theorem four_backups_are_lost (p : Parser) (pos : nat) :
  cursor p pos ->
  Parser_backup (Parser_backup (Parser_backup (Parser_backup p))) = p.
Proof.
  intros (Hlen & Hle & Hpend & Hs & He & Hbuf).
  assert (H0 : 0 <= start (tokens p) < 4) by (rewrite Hs; euclid).
  destruct p as [lex n [bf s e]]. cbn [tokens buf start end_] in *.
  unfold Parser_backup; cbn [tokens lexer taken]. f_equal.
  set (b0 := {| buf := bf; start := s; end_ := e |}).
  assert (Hb : forall b, length (buf b) = 4%nat -> 0 <= start b < 4 ->
            length (buf (backup b)) = 4%nat /\ 0 <= start (backup b) < 4 /\
            start (backup b) = (start b + 3) mod 4 /\
            buf (backup b) = buf b /\ end_ (backup b) = end_ b).
  { intros b Hl Hb. pose proof (backup_start b Hl Hb) as E.
    repeat split; try exact E; try exact Hl; rewrite E; Z.to_euclidean_division_equations; lia. }
  destruct (Hb b0 Hlen H0) as (L1 & R1 & S1 & B1 & E1).
  destruct (Hb _ L1 R1) as (L2 & R2 & S2 & B2 & E2).
  destruct (Hb _ L2 R2) as (L3 & R3 & S3 & B3 & E3).
  destruct (Hb _ L3 R3) as (L4 & R4 & S4 & B4 & E4).
  destruct (backup (backup (backup (backup b0)))) as [bf4 s4 e4].
  cbn [buf start end_] in *. f_equal.
  - rewrite B4, B3, B2, B1. reflexivity.
  - rewrite S4, S3, S2, S1. unfold b0; cbn [start]. Z.to_euclidean_division_equations; lia.
  - rewrite E4, E3, E2, E1. reflexivity.
Qed.

Lemma four_backups_are_lost_new :
  let p := newParser countingLexer zeroToken in
  Parser_backup (Parser_backup (Parser_backup (Parser_backup p))) = p.
Proof.
  exact (four_backups_are_lost (newParser countingLexer zeroToken) 0
           (cursor_newParser countingLexer zeroToken)).
Defined.

(** *** The tables of the specifiers *)

(** [[...]T{...}[s]]: the index of an array of seven elements; [None] is the
    panic of an index out of range. *)
Definition index7 {A} (table : list A) (s : operatorSpecifier) : option A :=
  if (0 <=? s) && (s <? 7) then table !! Z.to_nat s else None.

(** [func (s operatorSpecifier) term() Term], an atom. *)
Definition specifier_term (s : operatorSpecifier) : option string :=
  index7 ["fx"; "fy"; "xf"; "yf"; "xfx"; "xfy"; "yfx"] s.

(** [func (s operatorSpecifier) arity() int] *)
Definition specifier_arity (s : operatorSpecifier) : option Z :=
  index7 [1; 1; 1; 1; 2; 2; 2] s.

Lemma specifier_cases s :
  0 <= s < 7 -> s = 0 \/ s = 1 \/ s = 2 \/ s = 3 \/ s = 4 \/ s = 5 \/ s = 6.
Proof. lia. Qed.

(** X4.  The tables of the specifiers agree.  A specifier of the seven has an
    atom and an arity, and the atoms of two of them differ; for an operator
    of a priority from 1 to 1200 the arity is 2 exactly when both binding
    priorities are real ones (below 1202), and 1 exactly when one side is
    disabled.  A value that is none of the seven has binding priorities, both
    disabled, but asking for its atom or for its arity panics. *)
Theorem specifier_tables_agree (o : operator) :
  1 <= priority o <= 1200 ->
  (0 <= specifier o < 7 ->
     exists a n, specifier_term (specifier o) = Some a /\
       specifier_arity (specifier o) = Some n /\
       (n = 2 <-> fst (bindingPriorities o) < max /\ snd (bindingPriorities o) < max) /\
       (n = 1 <-> (fst (bindingPriorities o) = max /\ snd (bindingPriorities o) < max) \/
                  (fst (bindingPriorities o) < max /\ snd (bindingPriorities o) = max)) /\
       forall s', specifier_term s' = Some a -> s' = specifier o) /\
  (~ 0 <= specifier o < 7 ->
     specifier_term (specifier o) = None /\ specifier_arity (specifier o) = None /\
     bindingPriorities o = (max, max)).
Proof.
  intros HP. destruct o as [P s n]; cbn [priority specifier] in *.
  assert (Hw : wrap64 (P - 1) = P - 1)
    by (apply pred_in_range; unfold int64_min, int64_max; lia).
  split.
  - intros Hs.
    assert (Hinj : forall a s', 0 <= s < 7 -> specifier_term s = Some a ->
              specifier_term s' = Some a -> s' = s).
    { intros a s' Hr H1 H2. unfold specifier_term, index7 in *.
      destruct ((0 <=? s') && (s' <? 7)) eqn:E'; [|discriminate H2].
      apply andb_true_iff in E' as [E1 E2]. apply Z.leb_le in E1. apply Z.ltb_lt in E2.
      destruct (specifier_cases s Hr) as [->|[->|[->|[->|[->|[->| ->]]]]]];
        destruct (specifier_cases s' (conj E1 E2)) as [->|[->|[->|[->|[->|[->| ->]]]]]];
        vm_compute in H1, H2; congruence. }
    destruct (specifier_cases s Hs) as [->|[->|[->|[->|[->|[->| ->]]]]]];
      eexists _, _; (split; [reflexivity|]); (split; [reflexivity|]);
      unfold bindingPriorities; cbn [specifier priority fst snd Z.eqb];
      cbn -[wrap64 max Z.lt]; rewrite ?Hw; unfold max;
      (split; [lia|]); (split; [lia|]);
      intros s' H'; apply (Hinj _ s' ltac:(lia) eq_refl H').
  - intros Hs. unfold specifier_term, specifier_arity, index7.
    assert (E : (0 <=? s) && (s <? 7) = false).
    { apply andb_false_iff. destruct (Z.leb_spec 0 s); [right; apply Z.ltb_ge; lia|left; reflexivity]. }
    rewrite E. split; [reflexivity|]. split; [reflexivity|].
    unfold bindingPriorities; cbn [specifier].
    unfold operatorSpecifierFX, operatorSpecifierFY, operatorSpecifierXF, operatorSpecifierYF,
      operatorSpecifierXFX, operatorSpecifierXFY, operatorSpecifierYFX.
    repeat match goal with |- context [?a =? ?b] =>
      destruct (Z.eqb_spec a b); [lia|] end.
    reflexivity.
Qed.

Lemma specifier_tables_agree_minus :
  specifier_term operatorSpecifierYFX = Some "yfx" /\
  specifier_arity operatorSpecifierYFX = Some 2 /\
  specifier_term 7 = None.
Proof.
  pose proof (specifier_tables_agree (mk operatorSpecifierYFX 500 "-") ltac:(cbn; lia))
    as (_ & _).
  pose proof (specifier_tables_agree (mk 7 500 "-") ltac:(cbn; lia)) as (_ & H7).
  destruct (H7 ltac:(cbn; lia)) as (Ht & _).
  split; [reflexivity|]. split; [reflexivity|exact Ht].
Defined.

End Parser.

(** ** Terms over an immutable environment: unification and the writer *)

Module Engine.

(** The term sum of the engine.  [Variable] is a value (a name); what a
    variable is bound to is found in the environment. *)
Inductive Term :=
| Atom (a : string)
| Integer (n : Z)
| Float (f : float)
| Var (v : string)   (* Variable *)
| Compound (Functor : string) (Args : list Term).

(** Modelled from the spec: [Env], the persistent mapping from variable
    identity to term ([Env.Bind] extends it, [Env.Lookup] reads it); the
    file that declares it is outside the sources. *)
Abbreviation Env := (gmap string Term).

Definition Bind (v : string) (t : Term) (env : Env) : Env := <[v := t]> env.

(** Modelled from the spec: [Env.Resolve] walks the variable chain of [t] in
    [env] to the deepest non-variable term or to the terminal unbound
    variable.  The walk takes one unit of [fuel] per binding followed; [None]
    says that the fuel did not reach the end of the chain. *)
Fixpoint Resolve (fuel : nat) (env : Env) (t : Term) : option Term :=
  match t with
  | Var v =>
      match env !! v with
      | None => Some t
      | Some t' =>
          match fuel with
          | O => None
          | S fuel' => Resolve fuel' env t'
          end
      end
  | _ => Some t
  end.

(** The loop [for i := range c.Args] of [Compound.Unify], over the method
    [unify] of the arguments: it stops at the first pair that does not unify
    and returns the environment reached there. *)
Fixpoint unify_args (unify : Term -> Term -> bool -> Env -> option (Env * bool))
    (cs ts : list Term) (occursCheck : bool) (env : Env) : option (Env * bool) :=
  match cs, ts with
  | c :: cs', t :: ts' =>
      match unify c t occursCheck env with
      | None => None
      | Some (env', false) => Some (env', false)
      | Some (env', true) => unify_args unify cs' ts' occursCheck env'
      end
  | _, _ => Some (env, true)
  end.

(** The loop over the arguments of a compound in the occurs check. *)
Fixpoint any_arg (contains : Term -> option bool) (l : list Term) : option bool :=
  match l with
  | [] => Some false
  | a :: l' =>
      match contains a with
      | None => None
      | Some true => Some true
      | Some false => any_arg contains l'
      end
  end.

(** Modelled from the spec: the occurs check walks [t] through [env] and
    looks for the variable [v]. *)
Fixpoint Contains (fuel : nat) (t : Term) (v : string) (env : Env) : option bool :=
  match fuel with
  | O => None
  | S fuel' =>
      match Resolve fuel' env t with
      | None => None
      | Some (Var w) => Some (String.eqb w v)
      | Some (Compound _ args) => any_arg (fun a => Contains fuel' a v env) args
      | Some _ => Some false
      end
  end.

Section Methods.

(** [unify x t occursCheck env] stands for the interface call
    [x.Unify(t, occursCheck, env)], [resolve] for [env.Resolve]. *)
Variable unify : Term -> Term -> bool -> Env -> option (Env * bool).
Variable resolve : Env -> Term -> option Term.
Variable contains : Term -> string -> Env -> option bool.

(** The method [Unify] of [*Compound]. *)
Definition Compound_Unify_body (Functor : string) (Args : list Term)
    (t : Term) (occursCheck : bool) (env : Env) : option (Env * bool) :=
  match resolve env t with
  | None => None
  | Some (Compound tFunctor tArgs) =>
      if negb (String.eqb Functor tFunctor) then Some (env, false)
      else if negb (length Args =? length tArgs)%nat then Some (env, false)
      else unify_args unify Args tArgs occursCheck env
  | Some (Var v) => unify (Var v) (Compound Functor Args) occursCheck env
  | Some _ => Some (env, false)
  end.

(** Modelled from the spec: [Variable.Unify].  Both sides are resolved; a
    receiver that is bound hands over to what it is bound to; an unbound
    one is bound to the other side, unless that is the same variable
    (nothing to do) or the occurs check finds it there (failure). *)
Definition Variable_Unify_body (v : string) (t : Term) (occursCheck : bool)
    (env : Env) : option (Env * bool) :=
  match resolve env (Var v), resolve env t with
  | None, _ | _, None => None
  | Some (Var w), Some t' =>
      match t' with
      | Var u =>
          if String.eqb w u then Some (env, true) else Some (Bind w t' env, true)
      | _ =>
          if occursCheck then
            match contains t' w env with
            | None => None
            | Some true => Some (env, false)
            | Some false => Some (Bind w t' env, true)
            end
          else Some (Bind w t' env, true)
      end
  | Some r, Some t' => unify r t' occursCheck env
  end.

(** Modelled from the spec: [Atom.Unify], atoms unify only with equal
    atoms, and with a variable by the variable's own method. *)
Definition Atom_Unify_body (a : string) (t : Term) (occursCheck : bool)
    (env : Env) : option (Env * bool) :=
  match resolve env t with
  | None => None
  | Some (Atom b) => Some (env, String.eqb a b)
  | Some (Var v) => unify (Var v) (Atom a) occursCheck env
  | Some _ => Some (env, false)
  end.

(** Modelled from the spec: [Integer.Unify], no coercion between kinds. *)
Definition Integer_Unify_body (n : Z) (t : Term) (occursCheck : bool)
    (env : Env) : option (Env * bool) :=
  match resolve env t with
  | None => None
  | Some (Integer m) => Some (env, n =? m)
  | Some (Var v) => unify (Var v) (Integer n) occursCheck env
  | Some _ => Some (env, false)
  end.

(** Modelled from the spec: [Float.Unify], with the equality of floats. *)
Definition Float_Unify_body (f : float) (t : Term) (occursCheck : bool)
    (env : Env) : option (Env * bool) :=
  match resolve env t with
  | None => None
  | Some (Float g) => Some (env, PrimFloat.eqb f g)
  | Some (Var v) => unify (Var v) (Float f) occursCheck env
  | Some _ => Some (env, false)
  end.

End Methods.

(** The dynamic dispatch of [x.Unify(t, occursCheck, env)] on the kind of
    [x]; every call costs one unit of fuel. *)
Fixpoint Unify (fuel : nat) (x t : Term) (occursCheck : bool) (env : Env)
    : option (Env * bool) :=
  match fuel with
  | O => None
  | S fuel' =>
      match x with
      | Compound f args =>
          Compound_Unify_body (Unify fuel') (Resolve fuel') f args t occursCheck env
      | Var v =>
          Variable_Unify_body (Unify fuel') (Resolve fuel') (Contains fuel') v t occursCheck env
      | Atom a => Atom_Unify_body (Unify fuel') (Resolve fuel') a t occursCheck env
      | Integer n => Integer_Unify_body (Unify fuel') (Resolve fuel') n t occursCheck env
      | Float f => Float_Unify_body (Unify fuel') (Resolve fuel') f t occursCheck env
      end
  end.

(** [Compound.Unify] as a function of the fuel given to the calls it makes. *)
Definition Compound_Unify (fuel : nat) (Functor : string) (Args : list Term)
    (t : Term) (occursCheck : bool) (env : Env) : option (Env * bool) :=
  Compound_Unify_body (Unify fuel) (Resolve fuel) Functor Args t occursCheck env.

(** *** The writer: [Compound.Unparse] *)

Inductive OperatorSpecifier :=
| OperatorSpecifierFX | OperatorSpecifierFY
| OperatorSpecifierXF | OperatorSpecifierYF
| OperatorSpecifierXFX | OperatorSpecifierXFY | OperatorSpecifierYFX.

Record Operator := {
  Priority : Z;
  Specifier : OperatorSpecifier;
  Name : string
}.

(** [WriteTermOptions]; its field [Priority] is [OptPriority] here, the name
    being taken by the operators. *)
Record WriteTermOptions := {
  Quoted : bool;
  Ops : list Operator;
  NumberVars : bool;
  OptPriority : Z;
  Descriptive : bool
}.

Definition withPriority (opts : WriteTermOptions) (p : Z) : WriteTermOptions :=
  {| Quoted := Quoted opts; Ops := Ops opts; NumberVars := NumberVars opts;
     OptPriority := p; Descriptive := Descriptive opts |}.

Inductive TokenKind :=
| TokenIdent | TokenGraphic | TokenInteger | TokenSign | TokenVariable
| TokenBracketL | TokenBracketR | TokenComma | TokenBar
| TokenBraceL | TokenBraceR | TokenParenL | TokenParenR.

Record Token := { Kind : TokenKind; Val : string }.

(** What a run of the writer hands to [emit]: the tokens [Compound.Unparse]
    builds itself, and the calls of the method [Unparse] of an atom, a number
    or a variable, whose files are outside the sources; such a call is kept
    as it is made, with its receiver and its options. *)
Inductive Emitted :=
| Emit (t : Token)
| Call (t : Term) (opts : WriteTermOptions).

(** A run that returned, or one that stopped in a run-time panic (an index
    out of range), with what was emitted until then. *)
Inductive Run :=
| Done (out : list Emitted)
| Panic (out : list Emitted).

Definition emit (k : TokenKind) (v : string) : option Run :=
  Some (Done [Emit {| Kind := k; Val := v |}]).

(** Sequencing: what follows a panic is not run, what follows a run that has
    not returned ([None]) is not reached. *)
Definition andThen (r k : option Run) : option Run :=
  match r with
  | None => None
  | Some (Panic o) => Some (Panic o)
  | Some (Done o) =>
      match k with
      | None => None
      | Some (Done o') => Some (Done (o ++ o'))
      | Some (Panic o') => Some (Panic (o ++ o'))
      end
  end.

(** [defer emit(tok)]: the token is emitted when the function returns, and
    also when it unwinds in a panic. *)
Definition deferred (k : TokenKind) (v : string) (r : option Run) : option Run :=
  match r with
  | None => None
  | Some (Done o) => Some (Done (o ++ [Emit {| Kind := k; Val := v |}]))
  | Some (Panic o) => Some (Panic (o ++ [Emit {| Kind := k; Val := v |}]))
  end.

(** [c.Args[i]]: an index out of range panics. *)
Definition index (Args : list Term) (i : nat) (k : Term -> option Run) : option Run :=
  match nth_error Args i with
  | Some a => k a
  | None => Some (Panic [])
  end.

(** What is done with the term that [env.Resolve] returns. *)
Definition resolved (x : option Term) (k : Term -> option Run) : option Run :=
  match x with
  | None => None
  | Some t => k t
  end.

Definition isPrefix (s : OperatorSpecifier) : bool :=
  match s with OperatorSpecifierFX | OperatorSpecifierFY => true | _ => false end.
Definition isPostfix (s : OperatorSpecifier) : bool :=
  match s with OperatorSpecifierXF | OperatorSpecifierYF => true | _ => false end.
Definition isInfix (s : OperatorSpecifier) : bool :=
  match s with
  | OperatorSpecifierXFX | OperatorSpecifierXFY | OperatorSpecifierYFX => true
  | _ => false
  end.

(** [for _, op := range opts.Ops]: the first operator of the name whose
    specifier is one of the [switch]'s cases. *)
Definition findOp (cases : OperatorSpecifier -> bool) (Functor : string)
    (ops : list Operator) : option Operator :=
  List.find (fun op => String.eqb (Name op) Functor && cases (Specifier op)) ops.

Definition letters : string := "ABCDEFGHIJKLMNOPQRSTUVWXYZ".

(** [string(letters[i])]; a negative index panics. *)
Definition letter (i : Z) : option string :=
  if i <? 0 then None
  else match String.get (Z.to_nat i) letters with
       | Some c => Some (String c EmptyString)
       | None => None
       end.

(** [%d] of [fmt.Sprintf]. *)
Definition decimal (j : Z) : string :=
  DecimalString.NilZero.string_of_int (Z.to_int j).

Definition isList (Functor : string) (Args : list Term) : bool :=
  String.eqb Functor "." && (length Args =? 2)%nat.

Section Writer.

Local Infix ";>" := andThen (at level 62, right associativity).

(** [resolve] is [env.Resolve]; [self] is [Compound.Unparse] called on a
    sub-term and [loop] the next turn of the list loop. *)
Variable resolve : Env -> Term -> option Term.
Variable self : string -> list Term -> WriteTermOptions -> Env -> option Run.
Variable loop : Term -> WriteTermOptions -> Env -> option Run.

(** [t.Unparse(emit, opts, env)] for a term that [Resolve] returned. *)
Definition Term_Unparse (t : Term) (opts : WriteTermOptions) (env : Env) : option Run :=
  match t with
  | Compound f args => self f args opts env
  | _ => Some (Done [Call t opts])
  end.

(** [env.Resolve(t).Unparse(emit, opts, env)] *)
Definition Resolve_Unparse (t : Term) (opts : WriteTermOptions) (env : Env) : option Run :=
  resolved (resolve env t) (fun r => Term_Unparse r opts env).

(** One turn of the loop [for { ... }] that writes the rest [t] of a list. *)
Definition list_loop_body (t : Term) (opts : WriteTermOptions) (env : Env) : option Run :=
  match t with
  | Compound f args =>
      if isList f args then
        emit TokenComma "," ;>
        index args 0 (fun a => Resolve_Unparse a opts env) ;>
        index args 1 (fun a => resolved (resolve env a) (fun t' => loop t' opts env))
      else emit TokenBar "|" ;> Term_Unparse t opts env
  | Atom a =>
      if String.eqb a "[]" then Some (Done [])
      else emit TokenBar "|" ;> Term_Unparse t opts env
  | _ => emit TokenBar "|" ;> Term_Unparse t opts env
  end.

(** The last part of [Compound.Unparse]: functional notation. *)
Definition canonical (Functor : string) (Args : list Term)
    (opts : WriteTermOptions) (env : Env) : option Run :=
  Some (Done [Call (Atom Functor) opts]) ;>
  emit TokenParenL "(" ;>
  index Args 0 (fun a => Resolve_Unparse a opts env) ;>
  fold_right (fun arg rest => emit TokenComma "," ;> Resolve_Unparse arg opts env ;> rest)
    (Some (Done [])) (tl Args) ;>
  emit TokenParenR ")".

(** [if opts.NumberVars && c.Functor == "$VAR" && len(c.Args) == 1] *)
Definition numberVars (Functor : string) (Args : list Term)
    (opts : WriteTermOptions) (env : Env) : option Run :=
  if NumberVars opts && String.eqb Functor "$VAR" && (length Args =? 1)%nat then
    index Args 0 (fun a =>
      resolved (resolve env a) (fun n =>
        match n with
        | Integer n =>
            let i := Z.rem n 26 in
            let j := Z.quot n 26 in
            match letter i with
            | None => Some (Panic [])
            | Some l =>
                if j =? 0 then emit TokenVariable l
                else emit TokenVariable (l ++ decimal j)
            end
        | _ => canonical Functor Args opts env
        end))
  else canonical Functor Args opts env.

(** The [switch len(c.Args)] on the operators of the options. *)
Definition operators (Functor : string) (Args : list Term)
    (opts : WriteTermOptions) (env : Env) : option Run :=
  match length Args with
  | 1%nat =>
      match findOp (fun s => isPrefix s || isPostfix s) Functor (Ops opts) with
      | Some op =>
          let body :=
            if isPrefix (Specifier op) then
              Some (Done [Call (Atom Functor) opts]) ;>
              index Args 0 (fun a => Resolve_Unparse a (withPriority opts (Priority op)) env)
            else
              index Args 0 (fun a => Resolve_Unparse a (withPriority opts (Priority op)) env) ;>
              Some (Done [Call (Atom Functor) opts]) in
          if Priority op >? OptPriority opts then
            emit TokenParenL "(" ;> deferred TokenParenR ")" body
          else body
      | None => numberVars Functor Args opts env
      end
  | 2%nat =>
      match findOp isInfix Functor (Ops opts) with
      | Some op =>
          let body :=
            index Args 0 (fun a => Resolve_Unparse a (withPriority opts (Priority op)) env) ;>
            Some (Done [Call (Atom Functor) opts]) ;>
            index Args 1 (fun a => Resolve_Unparse a (withPriority opts (Priority op)) env) in
          if Priority op >? OptPriority opts then
            emit TokenParenL "(" ;> deferred TokenParenR ")" body
          else body
      | None => numberVars Functor Args opts env
      end
  | _ => numberVars Functor Args opts env
  end.

(** [func (c *Compound) Unparse(emit func(Token), opts WriteTermOptions, env *Env)] *)
Definition Compound_Unparse_body (Functor : string) (Args : list Term)
    (opts : WriteTermOptions) (env : Env) : option Run :=
  if isList Functor Args then
    emit TokenBracketL "[" ;>
    index Args 0 (fun a => Resolve_Unparse a opts env) ;>
    index Args 1 (fun a => resolved (resolve env a) (fun t => loop t opts env)) ;>
    emit TokenBracketR "]"
  else if String.eqb Functor "{}" && (length Args =? 1)%nat then
    emit TokenBraceL "{" ;>
    index Args 0 (fun a => Resolve_Unparse a opts env) ;>
    emit TokenBraceR "}"
  else operators Functor Args opts env.

End Writer.

(** The writer with the fuel of its nested calls: a call of
    [Compound.Unparse] and a turn of the list loop cost one unit each. *)
Fixpoint Compound_Unparse (fuel : nat) (Functor : string) (Args : list Term)
    (opts : WriteTermOptions) (env : Env) {struct fuel} : option Run :=
  match fuel with
  | O => None
  | S fuel' =>
      Compound_Unparse_body (Resolve fuel') (Compound_Unparse fuel') (list_loop fuel')
        Functor Args opts env
  end
with list_loop (fuel : nat) (t : Term) (opts : WriteTermOptions) (env : Env)
    {struct fuel} : option Run :=
  match fuel with
  | O => None
  | S fuel' =>
      list_loop_body (Resolve fuel') (Compound_Unparse fuel') (list_loop fuel') t opts env
  end.

(** *** Facts on unification *)

(** A result found with some fuel is found with more. *)
Definition le_opt {A} (x y : option A) : Prop := forall r, x = Some r -> y = Some r.

Lemma le_opt_refl {A} (x : option A) : le_opt x x.
Proof. intros r H; exact H. Qed.

Lemma le_opt_None {A} (y : option A) : le_opt None y.
Proof. intros r H; discriminate. Qed.

Lemma Resolve_mono n m env t : (n <= m)%nat -> le_opt (Resolve n env t) (Resolve m env t).
Proof.
  revert m t. induction n as [|n IH]; intros m t Hle r H.
  - destruct t; simpl in *; try (destruct m; exact H).
    destruct (env !! v) eqn:E; [discriminate|].
    destruct m; simpl; rewrite E; exact H.
  - destruct m as [|m]; [lia|].
    destruct t; simpl in *; try exact H.
    destruct (env !! v) eqn:E; [|exact H].
    apply IH; [lia|exact H].
Qed.

Lemma Resolve_unbound n env t v : Resolve n env t = Some (Var v) -> env !! v = None.
Proof.
  revert t. induction n as [|n IH]; intros t H; destruct t; simpl in H; try discriminate.
  - destruct (env !! v0) eqn:E; [discriminate|]. congruence.
  - destruct (env !! v0) eqn:E; [eauto|]. congruence.
Qed.

Lemma Resolve_Var_unbound n env v : env !! v = None -> Resolve n env (Var v) = Some (Var v).
Proof. intros H. destruct n; simpl; rewrite H; reflexivity. Qed.

Lemma Resolve_Compound n env f args : Resolve n env (Compound f args) = Some (Compound f args).
Proof. destruct n; reflexivity. Qed.

Lemma unify_args_mono (u u' : Term -> Term -> bool -> Env -> option (Env * bool)) :
  (forall c t occ env, le_opt (u c t occ env) (u' c t occ env)) ->
  forall cs ts occ env, le_opt (unify_args u cs ts occ env) (unify_args u' cs ts occ env).
Proof.
  intros Hu cs. induction cs as [|c cs IH]; intros ts occ env r H; [exact H|].
  destruct ts as [|t ts]; [exact H|]. simpl in *.
  destruct (u c t occ env) as [[env1 b]|] eqn:E; [|discriminate].
  rewrite (Hu _ _ _ _ _ E). destruct b; [apply IH; exact H|exact H].
Qed.

Lemma any_arg_mono (c c' : Term -> option bool) :
  (forall a, le_opt (c a) (c' a)) -> forall l, le_opt (any_arg c l) (any_arg c' l).
Proof.
  intros Hc l. induction l as [|a l IH]; intros r H; [exact H|]. simpl in *.
  destruct (c a) as [b|] eqn:E; [|discriminate].
  rewrite (Hc _ _ E). destruct b; [exact H|apply IH; exact H].
Qed.

Lemma Contains_mono n m t v env : (n <= m)%nat -> le_opt (Contains n t v env) (Contains m t v env).
Proof.
  revert m t. induction n as [|n IH]; intros m t Hle r H; [discriminate|].
  destruct m as [|m]; [lia|]. simpl in *.
  destruct (Resolve n env t) as [rt|] eqn:E; [|discriminate].
  rewrite (Resolve_mono n m env t ltac:(lia) _ E).
  destruct rt; try exact H.
  eapply any_arg_mono; [|exact H]. intros a. apply IH. lia.
Qed.

Lemma Unify_mono n m x t occ env : (n <= m)%nat -> le_opt (Unify n x t occ env) (Unify m x t occ env).
Proof.
  revert m x t occ env. induction n as [|n IH]; intros m x t occ env Hle r H; [discriminate|].
  destruct m as [|m]; [lia|].
  assert (Hn : (n <= m)%nat) by lia.
  assert (HR : forall e u, le_opt (Resolve n e u) (Resolve m e u))
    by (intros; apply Resolve_mono; exact Hn).
  assert (HU : forall c u o e, le_opt (Unify n c u o e) (Unify m c u o e))
    by (intros; apply IH; exact Hn).
  destruct x; simpl in *.
  - unfold Atom_Unify_body in *.
    destruct (Resolve n env t) as [rt|] eqn:E; [|discriminate]. rewrite (HR _ _ _ E).
    destruct rt; try exact H. apply HU; exact H.
  - unfold Integer_Unify_body in *.
    destruct (Resolve n env t) as [rt|] eqn:E; [|discriminate]. rewrite (HR _ _ _ E).
    destruct rt; try exact H. apply HU; exact H.
  - unfold Float_Unify_body in *.
    destruct (Resolve n env t) as [rt|] eqn:E; [|discriminate]. rewrite (HR _ _ _ E).
    destruct rt; try exact H. apply HU; exact H.
  - unfold Variable_Unify_body in *.
    destruct (Resolve n env (Var v)) as [rv|] eqn:Ev; [|discriminate]. rewrite (HR _ _ _ Ev).
    destruct (Resolve n env t) as [rt|] eqn:E; [|destruct rv; discriminate]. rewrite (HR _ _ _ E).
    destruct rv; try (apply HU; exact H).
    destruct rt; try exact H;
      destruct occ; try exact H;
      match type of H with
      | context [Contains n ?a ?b ?c] =>
          destruct (Contains n a b c) as [bb|] eqn:Ec; [|discriminate];
          rewrite (Contains_mono n m a b c Hn _ Ec); exact H
      end.
  - unfold Compound_Unify_body in *.
    destruct (Resolve n env t) as [rt|] eqn:E; [|discriminate]. rewrite (HR _ _ _ E).
    destruct rt; try exact H; [apply HU; exact H|].
    destruct (negb _); [exact H|]. destruct (negb _); [exact H|].
    eapply unify_args_mono; [exact HU|exact H].
Qed.

Lemma Unify_det n m x t occ env r r' :
  Unify n x t occ env = Some r -> Unify m x t occ env = Some r' -> r = r'.
Proof.
  intros H H'.
  pose proof (Unify_mono n (Nat.max n m) x t occ env ltac:(lia) _ H) as A.
  pose proof (Unify_mono m (Nat.max n m) x t occ env ltac:(lia) _ H') as B.
  congruence.
Qed.

(** The arguments unify pairwise, left to right, each in the environment the
    one before it left. *)
Inductive args_unify (occursCheck : bool) : list Term -> list Term -> Env -> Env -> Prop :=
| args_unify_nil env : args_unify occursCheck [] [] env env
| args_unify_cons n c t cs ts env env1 env2 :
    Unify n c t occursCheck env = Some (env1, true) ->
    args_unify occursCheck cs ts env1 env2 ->
    args_unify occursCheck (c :: cs) (t :: ts) env env2.

(** What the claim calls a mismatch, of the compound [Functor(Args)] with a
    resolved term. *)
Definition mismatch (Functor : string) (Args : list Term) (r : Term) : Prop :=
  match r with
  | Atom _ | Integer _ | Float _ => True
  | Compound g targs => g <> Functor \/ length targs <> length Args
  | Var _ => False
  end.

Lemma unify_args_sound n occ cs : forall ts env env',
  length cs = length ts ->
  unify_args (Unify n) cs ts occ env = Some (env', true) ->
  args_unify occ cs ts env env'.
Proof.
  induction cs as [|c cs IH]; intros ts env env' Hlen H; destruct ts as [|t ts]; try discriminate.
  - simpl in H. injection H as ->. constructor.
  - simpl in H. destruct (Unify n c t occ env) as [[env1 b]|] eqn:E; [|discriminate].
    destruct b; [|discriminate].
    econstructor; [exact E|]. apply IH; [simpl in Hlen; lia|exact H].
Qed.

Lemma unify_args_complete occ cs ts env env' :
  args_unify occ cs ts env env' ->
  exists n, unify_args (Unify n) cs ts occ env = Some (env', true).
Proof.
  induction 1 as [env|n c t cs ts env env1 env2 H1 _ [m IH]].
  - exists O. reflexivity.
  - exists (Nat.max n m). simpl.
    rewrite (Unify_mono n (Nat.max n m) _ _ _ _ ltac:(lia) _ H1).
    eapply unify_args_mono; [|exact IH]. intros; apply Unify_mono; lia.
Qed.

Lemma Compound_Unify_succeeds (Functor : string) (Args : list Term) (t : Term)
    (occursCheck : bool) (env env' : Env) :
  (exists n, Compound_Unify n Functor Args t occursCheck env = Some (env', true)) <->
   ((exists n v, Resolve n env t = Some (Var v) /\
        env' = Bind v (Compound Functor Args) env /\
        (occursCheck = true ->
         exists m, Contains m (Compound Functor Args) v env = Some false)) \/
    (exists n tArgs, Resolve n env t = Some (Compound Functor tArgs) /\
        length Args = length tArgs /\
        args_unify occursCheck Args tArgs env env')).
Proof.
  split.
  - intros [n H]. unfold Compound_Unify, Compound_Unify_body in H.
    destruct (Resolve n env t) as [r|] eqn:E; [|discriminate].
    destruct r; try discriminate.
    + left. exists n, v. split; [exact E|].
      pose proof (Resolve_unbound _ _ _ _ E) as Hv.
      destruct n as [|n]; [discriminate|]. simpl in H. unfold Variable_Unify_body in H.
      rewrite (Resolve_Var_unbound n env v Hv), Resolve_Compound in H.
      destruct occursCheck.
      * destruct (Contains n (Compound Functor Args) v env) as [b|] eqn:Ec; [|discriminate].
        destruct b; [discriminate|]. injection H as <-. split; [reflexivity|].
        intros _. exists n. exact Ec.
      * injection H as <-. split; [reflexivity|]. intros; discriminate.
    + right. exists n, Args0.
      destruct (String.eqb_spec Functor Functor0) as [<-|]; [|discriminate]. simpl in H.
      destruct (Nat.eqb_spec (length Args) (length Args0)) as [Hl|]; [|discriminate]. simpl in H.
      split; [exact E|]. split; [exact Hl|]. eapply unify_args_sound; eassumption.
  - intros [(n & v & E & -> & Hocc)|(n & tArgs & E & Hl & Hu)].
    + pose proof (Resolve_unbound _ _ _ _ E) as Hv.
      assert (exists m, Unify m (Var v) (Compound Functor Args) occursCheck env
                        = Some (Bind v (Compound Functor Args) env, true)) as [m Hm].
      { destruct occursCheck.
        - destruct (Hocc eq_refl) as [m Hm]. exists (S m). simpl. unfold Variable_Unify_body.
          rewrite (Resolve_Var_unbound m env v Hv), Resolve_Compound, Hm. reflexivity.
        - exists 1%nat. simpl. unfold Variable_Unify_body. rewrite Hv. reflexivity. }
      exists (Nat.max n m). unfold Compound_Unify, Compound_Unify_body.
      rewrite (Resolve_mono n (Nat.max n m) env t ltac:(lia) _ E).
      apply (Unify_mono m); [lia|exact Hm].
    + destruct (unify_args_complete _ _ _ _ _ Hu) as [m Hm].
      exists (Nat.max n m). unfold Compound_Unify, Compound_Unify_body.
      rewrite (Resolve_mono n (Nat.max n m) env t ltac:(lia) _ E).
      rewrite String.eqb_refl, Hl, Nat.eqb_refl. simpl.
      eapply unify_args_mono; [|exact Hm]. intros; apply Unify_mono; lia.
Qed.

Lemma Compound_Unify_mismatch (Functor : string) (Args : list Term) (t : Term)
    (occursCheck : bool) (env : Env) n r :
  Resolve n env t = Some r -> mismatch Functor Args r ->
  Compound_Unify n Functor Args t occursCheck env = Some (env, false).
Proof.
  intros E Hm. unfold Compound_Unify, Compound_Unify_body. rewrite E.
  destruct r; simpl in Hm; try reflexivity; [contradiction|].
  destruct (String.eqb_spec Functor Functor0) as [<-|]; [|reflexivity]. simpl.
  destruct (Nat.eqb_spec (length Args) (length Args0)) as [Hl|]; [|reflexivity].
  destruct Hm as [Hm|Hm]; [contradiction|]. congruence.
Qed.

(** C1 (amended).  [Compound.Unify(c, t, occursCheck, env)] succeeds, leaving
    [env'], if and only if [t] resolved through [env] is either an unbound
    variable, which is then bound to [c], provided that, when [occursCheck]
    is set, the variable does not occur in [c]; or a compound of the same
    functor and as many arguments, whose arguments unify pairwise, left to
    right, threading the environment.  The result is a pair of an environment
    and a boolean, never an error, and on a mismatch (an atom, a number,
    another functor, another number of arguments) it is [(env, false)]. *)
Theorem Compound_Unify_spec (Functor : string) (Args : list Term) (t : Term)
    (occursCheck : bool) (env env' : Env) :
  ((exists n, Compound_Unify n Functor Args t occursCheck env = Some (env', true)) <->
   ((exists n v, Resolve n env t = Some (Var v) /\
        env' = Bind v (Compound Functor Args) env /\
        (occursCheck = true ->
         exists m, Contains m (Compound Functor Args) v env = Some false)) \/
    (exists n tArgs, Resolve n env t = Some (Compound Functor tArgs) /\
        length Args = length tArgs /\
        args_unify occursCheck Args tArgs env env'))) /\
  (forall n r, Resolve n env t = Some r -> mismatch Functor Args r ->
     Compound_Unify n Functor Args t occursCheck env = Some (env, false)).
Proof.
  split; [apply Compound_Unify_succeeds|].
  intros n r. apply Compound_Unify_mismatch.
Qed.

Lemma Compound_Unify_occurs_check :
  Resolve 0 ∅ (Var "X") = Some (Var "X") /\
  Compound_Unify 3 "f" [Var "X"] (Var "X") true ∅ = Some (∅, false) /\
  (forall n env', Compound_Unify n "f" [Var "X"] (Var "X") true ∅ <> Some (env', true)).
Proof.
  split; [reflexivity|]. split; [reflexivity|].
  intros n env' H.
  destruct (proj1 (Compound_Unify_succeeds "f" [Var "X"] (Var "X") true ∅ env') (ex_intro _ n H))
    as [(k & v & E & _ & Hocc)|(k & tArgs & E & _)].
  - rewrite (Resolve_Var_unbound k ∅ "X" (lookup_empty _)) in E. injection E as <-.
    destruct (Hocc eq_refl) as [m Hm].
    assert (Contains 2 (Compound "f" [Var "X"]) "X" ∅ = Some true) as Ht by reflexivity.
    pose proof (Contains_mono m (Nat.max m 2) _ _ _ ltac:(lia) _ Hm).
    pose proof (Contains_mono 2 (Nat.max m 2) _ _ _ ltac:(lia) _ Ht).
    congruence.
  - rewrite (Resolve_Var_unbound k ∅ "X" (lookup_empty _)) in E. discriminate.
Qed.

(** *** Facts on the writer *)

Lemma andThen_mono a a' b b' :
  le_opt a a' -> le_opt b b' -> le_opt (andThen a b) (andThen a' b').
Proof.
  intros Ha Hb r H. destruct a as [[o|o]|]; try discriminate.
  - rewrite (Ha _ eq_refl). destruct b as [rb|]; [|discriminate].
    rewrite (Hb _ eq_refl). exact H.
  - rewrite (Ha _ eq_refl). exact H.
Qed.

Lemma deferred_mono k v a a' : le_opt a a' -> le_opt (deferred k v a) (deferred k v a').
Proof.
  intros Ha r H. destruct a as [ra|]; [|discriminate]. rewrite (Ha _ eq_refl). exact H.
Qed.

Lemma resolved_mono x x' k k' :
  le_opt x x' -> (forall t, le_opt (k t) (k' t)) -> le_opt (resolved x k) (resolved x' k').
Proof.
  intros Hx Hk r H. destruct x as [t|]; [|discriminate].
  rewrite (Hx _ eq_refl). apply Hk. exact H.
Qed.

Lemma index_mono Args i k k' :
  (forall t, le_opt (k t) (k' t)) -> le_opt (index Args i k) (index Args i k').
Proof.
  intros Hk. unfold index. destruct (nth_error Args i); [apply Hk|apply le_opt_refl].
Qed.

Section WriterMono.

Variables resolve resolve' : Env -> Term -> option Term.
Variables self self' : string -> list Term -> WriteTermOptions -> Env -> option Run.
Variables loop loop' : Term -> WriteTermOptions -> Env -> option Run.
Hypothesis Hresolve : forall env t, le_opt (resolve env t) (resolve' env t).
Hypothesis Hself : forall f args opts env, le_opt (self f args opts env) (self' f args opts env).
Hypothesis Hloop : forall t opts env, le_opt (loop t opts env) (loop' t opts env).

Lemma Term_Unparse_mono t opts env :
  le_opt (Term_Unparse self t opts env) (Term_Unparse self' t opts env).
Proof. destruct t; simpl; try apply le_opt_refl. apply Hself. Qed.

Lemma Resolve_Unparse_mono t opts env :
  le_opt (Resolve_Unparse resolve self t opts env) (Resolve_Unparse resolve' self' t opts env).
Proof.
  apply resolved_mono; [apply Hresolve|]. intros r. apply Term_Unparse_mono.
Qed.

Ltac mono :=
  repeat first
    [ apply le_opt_refl
    | apply Resolve_Unparse_mono
    | apply Term_Unparse_mono
    | apply andThen_mono
    | apply deferred_mono
    | apply index_mono; intros ?
    | apply resolved_mono; [apply Hresolve|intros ?]
    | apply Hloop
    | apply Hself ].

Lemma list_loop_body_mono t opts env :
  le_opt (list_loop_body resolve self loop t opts env)
         (list_loop_body resolve' self' loop' t opts env).
Proof.
  unfold list_loop_body. destruct t as [a|n|x|v|f args]; try solve [mono].
  destruct (isList f args); mono.
Qed.

Lemma canonical_rest_mono opts env l :
  le_opt
    (fold_right (fun arg rest =>
       andThen (emit TokenComma ",") (andThen (Resolve_Unparse resolve self arg opts env) rest))
       (Some (Done [])) l)
    (fold_right (fun arg rest =>
       andThen (emit TokenComma ",") (andThen (Resolve_Unparse resolve' self' arg opts env) rest))
       (Some (Done [])) l).
Proof.
  induction l as [|a l IH]; cbn [fold_right]; [apply le_opt_refl|].
  apply andThen_mono; [apply le_opt_refl|].
  apply andThen_mono; [apply Resolve_Unparse_mono|exact IH].
Qed.

Lemma canonical_mono f args opts env :
  le_opt (canonical resolve self f args opts env) (canonical resolve' self' f args opts env).
Proof.
  unfold canonical.
  apply andThen_mono; [apply le_opt_refl|].
  apply andThen_mono; [apply le_opt_refl|].
  apply andThen_mono; [apply index_mono; intros a; apply Resolve_Unparse_mono|].
  apply andThen_mono; [apply canonical_rest_mono|apply le_opt_refl].
Qed.

Lemma numberVars_mono f args opts env :
  le_opt (numberVars resolve self f args opts env) (numberVars resolve' self' f args opts env).
Proof.
  unfold numberVars. destruct (_ && _); [|apply canonical_mono].
  apply index_mono; intros a. apply resolved_mono; [apply Hresolve|intros r].
  destruct r; try apply canonical_mono. apply le_opt_refl.
Qed.

Lemma operators_mono f args opts env :
  le_opt (operators resolve self f args opts env) (operators resolve' self' f args opts env).
Proof.
  unfold operators.
  destruct (length args) as [|[|[|n]]]; try apply numberVars_mono.
  - destruct (findOp _ f (Ops opts)) as [op|]; [|apply numberVars_mono].
    destruct (Priority op >? OptPriority opts), (isPrefix (Specifier op)); mono.
  - destruct (findOp _ f (Ops opts)) as [op|]; [|apply numberVars_mono].
    destruct (Priority op >? OptPriority opts); mono.
Qed.

Lemma Compound_Unparse_body_mono f args opts env :
  le_opt (Compound_Unparse_body resolve self loop f args opts env)
         (Compound_Unparse_body resolve' self' loop' f args opts env).
Proof.
  unfold Compound_Unparse_body.
  destruct (isList f args); [mono|].
  destruct (_ && _); [mono|]. apply operators_mono.
Qed.

End WriterMono.

Lemma Unparse_mono n : forall m, (n <= m)%nat ->
  (forall f args opts env,
     le_opt (Compound_Unparse n f args opts env) (Compound_Unparse m f args opts env)) /\
  (forall t opts env, le_opt (list_loop n t opts env) (list_loop m t opts env)).
Proof.
  induction n as [|n IH]; intros m Hle.
  - split; intros; apply le_opt_None.
  - destruct m as [|m]; [lia|]. destruct (IH m ltac:(lia)) as [IH1 IH2].
    assert (HR : forall env t, le_opt (Resolve n env t) (Resolve m env t))
      by (intros; apply Resolve_mono; lia).
    split; intros; simpl.
    + apply Compound_Unparse_body_mono; assumption.
    + apply list_loop_body_mono; assumption.
Qed.

Lemma Compound_Unparse_mono n m f args opts env :
  (n <= m)%nat ->
  le_opt (Compound_Unparse n f args opts env) (Compound_Unparse m f args opts env).
Proof. intros H. apply (Unparse_mono n m H). Qed.

Lemma list_loop_mono n m t opts env :
  (n <= m)%nat -> le_opt (list_loop n t opts env) (list_loop m t opts env).
Proof. intros H. apply (Unparse_mono n m H). Qed.

(** **** Numbered variables *)

(** The name that the claim gives to [$VAR(N)]: the letter at index
    [N mod 26], followed by [N div 26] when that is positive. *)
Definition letterAt (i : Z) : string :=
  match String.get (Z.to_nat i) letters with
  | Some c => String c EmptyString
  | None => EmptyString
  end.

Definition varName (N : Z) : string :=
  String.append (letterAt (N mod 26)) (if 0 <? N / 26 then decimal (N / 26) else "").

Lemma letter_letterAt i : 0 <= i < 26 -> letter i = Some (letterAt i).
Proof.
  intros H. unfold letter, letterAt.
  destruct (Z.ltb_spec i 0) as [|_]; [lia|].
  assert (Hn : (Z.to_nat i < 26)%nat) by lia.
  destruct (String.get (Z.to_nat i) letters) eqn:E; [reflexivity|].
  exfalso. revert E. generalize (Z.to_nat i) Hn. intros k Hk.
  do 26 (destruct k as [|k]; [discriminate|]). lia.
Qed.

Lemma letterAt_nil i : String.append (letterAt i) "" = letterAt i.
Proof. unfold letterAt. destruct (String.get _ _); reflexivity. Qed.

Definition unaryOp (s : OperatorSpecifier) : bool := isPrefix s || isPostfix s.

Lemma numberVars_name (fuel : nat) (a : Term) (N : Z) (opts : WriteTermOptions) (env : Env) :
  NumberVars opts = true ->
  findOp unaryOp "$VAR" (Ops opts) = None ->
  Resolve fuel env a = Some (Integer N) ->
  0 <= N ->
  Compound_Unparse (S fuel) "$VAR" [a] opts env
  = Some (Done [Emit {| Kind := TokenVariable; Val := varName N |}]).
Proof.
  intros Hnv Hop Hres HN.
  cbn [Compound_Unparse]. unfold Compound_Unparse_body.
  change (isList "$VAR" [a]) with false. cbn [String.eqb Ascii.eqb Bool.eqb andb].
  unfold operators. cbn [length].
  fold unaryOp. rewrite Hop.
  unfold numberVars. rewrite Hnv. cbn [andb String.eqb Ascii.eqb Bool.eqb length Nat.eqb].
  unfold index. cbn [nth_error]. rewrite Hres. cbn [resolved].
  rewrite Z.rem_mod_nonneg, Z.quot_div_nonneg by lia.
  rewrite letter_letterAt by (apply Z.mod_pos_bound; lia).
  unfold varName, emit.
  assert (0 <= N / 26) by (apply Z.div_pos; lia).
  destruct (Z.eqb_spec (N / 26) 0) as [->|Hne].
  - cbn [Z.ltb Z.compare]. rewrite letterAt_nil. reflexivity.
  - destruct (Z.ltb_spec 0 (N / 26)); [reflexivity|lia].
Qed.

(** The options of the test [numbervars]: [WriteTermOptions{NumberVars: true,
    Priority: 1200}]. *)
Definition numberVarsOpts : WriteTermOptions :=
  {| Quoted := false; Ops := []; NumberVars := true; OptPriority := 1200;
     Descriptive := false |}.

Definition VAR (n : Z) : Term := Compound "$VAR" [Integer n].

Definition variableToken (s : string) : Emitted := Emit {| Kind := TokenVariable; Val := s |}.
Definition commaToken : Emitted := Emit {| Kind := TokenComma; Val := "," |}.

(** C9 (amended).  With [number_vars = true], and [$VAR] not declared as a
    prefix or postfix operator in the operators of the write options, the
    compound [$VAR(N)] whose argument resolves to a non-negative integer [N]
    is written as the single variable token whose name is the letter at index
    [N mod 26] of A..Z followed by [N div 26] exactly when that is positive;
    [f($VAR(0),$VAR(1),$VAR(25),$VAR(26),$VAR(27))] is written f(A,B,Z,A1,B1),
    the functor by the writer of atoms. *)
Theorem numberVars_variable_token (fuel : nat) (a : Term) (N : Z)
    (opts : WriteTermOptions) (env : Env) :
  NumberVars opts = true ->
  findOp unaryOp "$VAR" (Ops opts) = None ->
  Resolve fuel env a = Some (Integer N) ->
  0 <= N ->
  Compound_Unparse (S fuel) "$VAR" [a] opts env
  = Some (Done [variableToken (varName N)]) /\
  varName 0 = "A" /\ varName 1 = "B" /\ varName 25 = "Z" /\
  varName 26 = "A1" /\ varName 27 = "B1" /\
  Compound_Unparse 2 "f" [VAR 0; VAR 1; VAR 25; VAR 26; VAR 27] numberVarsOpts ∅
  = Some (Done [Call (Atom "f") numberVarsOpts;
                Emit {| Kind := TokenParenL; Val := "(" |};
                variableToken "A"; commaToken; variableToken "B"; commaToken;
                variableToken "Z"; commaToken; variableToken "A1"; commaToken;
                variableToken "B1";
                Emit {| Kind := TokenParenR; Val := ")" |}]).
Proof.
  intros Hnv Hop Hres HN.
  split; [apply numberVars_name; assumption|].
  repeat split; reflexivity.
Qed.

Lemma numberVars_variable_token_27 :
  Compound_Unparse 1 "$VAR" [Integer 27] numberVarsOpts ∅
  = Some (Done [variableToken "B1"]).
Proof.
  exact (proj1 (numberVars_variable_token 0 (Integer 27) 27 numberVarsOpts ∅
                  eq_refl eq_refl eq_refl ltac:(lia))).
Defined.

(** The options of the counterexample: [$VAR] is a prefix operator. *)
Definition opVAR : Operator :=
  {| Priority := 200; Specifier := OperatorSpecifierFY; Name := "$VAR" |}.

Definition opVAROpts : WriteTermOptions :=
  {| Quoted := false; Ops := [opVAR]; NumberVars := true; OptPriority := 1200;
     Descriptive := false |}.

Lemma numberVars_operator_first :
  NumberVars opVAROpts = true /\
  Compound_Unparse 1 "$VAR" [Integer 0] opVAROpts ∅
  = Some (Done [Call (Atom "$VAR") opVAROpts; Call (Integer 0) (withPriority opVAROpts 200)]) /\
  (forall fuel s, Compound_Unparse fuel "$VAR" [Integer 0] opVAROpts ∅
                  <> Some (Done [variableToken s])).
Proof.
  split; [reflexivity|]. split; [reflexivity|].
  intros fuel s H.
  assert (H1 : Compound_Unparse 1 "$VAR" [Integer 0] opVAROpts ∅
    = Some (Done [Call (Atom "$VAR") opVAROpts; Call (Integer 0) (withPriority opVAROpts 200)]))
    by reflexivity.
  pose proof (Compound_Unparse_mono fuel (Nat.max fuel 1) _ _ _ _ ltac:(lia) _ H) as A.
  pose proof (Compound_Unparse_mono 1 (Nat.max fuel 1) _ _ _ _ ltac:(lia) _ H1) as B.
  rewrite A in B. discriminate.
Qed.

(** **** Termination *)

(** [bounded d env t]: resolved through [env], the term [t] is a finite tree
    of depth at most [d]; no cycle of the bindings is reached from it. *)
Fixpoint bounded (d : nat) (env : Env) (t : Term) : Prop :=
  match d with
  | O => False
  | S d' =>
      exists n r, Resolve n env t = Some r /\
        match r with
        | Compound _ args => Forall (bounded d' env) args
        | _ => True
        end
  end.

Lemma andThen_is_Some a b : is_Some a -> is_Some b -> is_Some (andThen a b).
Proof. intros [[o|o] ->] [[o'|o'] ->]; simpl; eauto. Qed.

Lemma deferred_is_Some k v a : is_Some a -> is_Some (deferred k v a).
Proof. intros [[o|o] ->]; simpl; eauto. Qed.

Lemma emit_is_Some k v : is_Some (emit k v).
Proof. unfold emit; eauto. Qed.

Lemma index_is_Some Args i k :
  (forall a, In a Args -> is_Some (k a)) -> is_Some (index Args i k).
Proof.
  intros H. unfold index. destruct (nth_error Args i) as [a|] eqn:E; [|eauto].
  apply H. eapply nth_error_In; exact E.
Qed.

Section WriterTotal.

Variable resolve : Env -> Term -> option Term.
Variable self : string -> list Term -> WriteTermOptions -> Env -> option Run.
Variable loop : Term -> WriteTermOptions -> Env -> option Run.
Variable env : Env.
Variable Args : list Term.
Hypothesis HRU : forall a, In a Args ->
  forall opts, is_Some (Resolve_Unparse resolve self a opts env).
Hypothesis HRL : forall a, In a Args ->
  forall opts, is_Some (resolved (resolve env a) (fun t => loop t opts env)).

Lemma canonical_rest_total opts l :
  (forall a, In a l -> In a Args) ->
  is_Some (fold_right (fun arg rest =>
    andThen (emit TokenComma ",") (andThen (Resolve_Unparse resolve self arg opts env) rest))
    (Some (Done [])) l).
Proof.
  induction l as [|a l IH]; intros Hin; cbn [fold_right]; [eauto|].
  apply andThen_is_Some; [apply emit_is_Some|].
  apply andThen_is_Some; [apply HRU, Hin; left; reflexivity|].
  apply IH. intros b Hb. apply Hin. right. exact Hb.
Qed.

Lemma canonical_total f opts : is_Some (canonical resolve self f Args opts env).
Proof.
  unfold canonical.
  apply andThen_is_Some; [eauto|].
  apply andThen_is_Some; [apply emit_is_Some|].
  apply andThen_is_Some; [apply index_is_Some; intros a Ha; apply HRU, Ha|].
  apply andThen_is_Some; [|apply emit_is_Some].
  apply canonical_rest_total. intros a Ha. destruct Args; [destruct Ha|right; exact Ha].
Qed.

Lemma numberVars_total f opts : is_Some (numberVars resolve self f Args opts env).
Proof.
  unfold numberVars. destruct (_ && _); [|apply canonical_total].
  apply index_is_Some. intros a Ha.
  destruct (HRU a Ha opts) as [r Hr]. unfold Resolve_Unparse in Hr.
  destruct (resolve env a) as [t|]; [|discriminate]. cbn [resolved].
  destruct t; try apply canonical_total.
  destruct (letter _); [|eauto]. destruct (_ =? _); apply emit_is_Some.
Qed.

Lemma operators_total f opts : is_Some (operators resolve self f Args opts env).
Proof.
  unfold operators.
  destruct (length Args) as [|[|[|n]]]; try apply numberVars_total.
  - destruct (findOp _ f (Ops opts)) as [op|]; [|apply numberVars_total].
    destruct (Priority op >? OptPriority opts), (isPrefix (Specifier op));
      repeat first
        [ apply andThen_is_Some | apply deferred_is_Some | apply emit_is_Some
        | apply index_is_Some; intros a Ha; apply HRU, Ha | solve [eauto] ].
  - destruct (findOp _ f (Ops opts)) as [op|]; [|apply numberVars_total].
    destruct (Priority op >? OptPriority opts);
      repeat first
        [ apply andThen_is_Some | apply deferred_is_Some | apply emit_is_Some
        | apply index_is_Some; intros a Ha; apply HRU, Ha | solve [eauto] ].
Qed.

Lemma Compound_Unparse_body_total f opts :
  is_Some (Compound_Unparse_body resolve self loop f Args opts env).
Proof.
  unfold Compound_Unparse_body.
  destruct (isList f Args).
  { repeat first
      [ apply andThen_is_Some | apply emit_is_Some
      | apply index_is_Some; intros a Ha; first [apply HRU, Ha | apply HRL, Ha] ]. }
  destruct (_ && _); [|apply operators_total].
  repeat first
    [ apply andThen_is_Some | apply emit_is_Some
    | apply index_is_Some; intros a Ha; apply HRU, Ha ].
Qed.

End WriterTotal.

(** [env.Resolve(t).Unparse(...)] and the entry of the list loop, with the
    fuel of the calls they make. *)
Definition RU (n : nat) (env : Env) (t : Term) (opts : WriteTermOptions) : option Run :=
  Resolve_Unparse (Resolve n) (Compound_Unparse n) t opts env.

Definition RL (n : nat) (env : Env) (t : Term) (opts : WriteTermOptions) : option Run :=
  resolved (Resolve n env t) (fun t' => list_loop n t' opts env).

Lemma RU_mono n m env t opts : (n <= m)%nat -> le_opt (RU n env t opts) (RU m env t opts).
Proof.
  intros H. apply Resolve_Unparse_mono.
  - intros; apply Resolve_mono; exact H.
  - intros; apply Compound_Unparse_mono; exact H.
Qed.

Lemma RL_mono n m env t opts : (n <= m)%nat -> le_opt (RL n env t opts) (RL m env t opts).
Proof.
  intros H. apply resolved_mono.
  - apply Resolve_mono; exact H.
  - intros; apply list_loop_mono; exact H.
Qed.

Lemma le_opt_is_Some {A} (x y : option A) : le_opt x y -> is_Some x -> is_Some y.
Proof. intros H [r Hr]. exists r. apply H, Hr. Qed.

Definition total_args (env : Env) (args : list Term) : Prop :=
  exists N, forall a, In a args ->
    forall opts, is_Some (RU N env a opts) /\ is_Some (RL N env a opts).

Lemma total_args_Forall env args :
  Forall (fun a => exists N, forall opts,
            is_Some (RU N env a opts) /\ is_Some (RL N env a opts)) args ->
  total_args env args.
Proof.
  induction 1 as [|a l [Na Ha] _ [Nl Hl]].
  - exists O. intros a [].
  - exists (Nat.max Na Nl). intros b [<-|Hb] opts.
    + destruct (Ha opts) as [H1 H2]. split.
      * eapply le_opt_is_Some; [apply (RU_mono Na); lia|exact H1].
      * eapply le_opt_is_Some; [apply (RL_mono Na); lia|exact H2].
    + destruct (Hl b Hb opts) as [H1 H2]. split.
      * eapply le_opt_is_Some; [apply (RU_mono Nl); lia|exact H1].
      * eapply le_opt_is_Some; [apply (RL_mono Nl); lia|exact H2].
Qed.

Lemma Compound_Unparse_total_args env f args :
  total_args env args ->
  exists N, forall opts, is_Some (Compound_Unparse N f args opts env).
Proof.
  intros [N HN]. exists (S N). intros opts. cbn [Compound_Unparse].
  apply Compound_Unparse_body_total.
  - intros a Ha o. apply (HN a Ha o).
  - intros a Ha o. apply (HN a Ha o).
Qed.

Lemma bounded_total d env : forall t, bounded d env t ->
  exists N, forall opts, is_Some (RU N env t opts) /\ is_Some (RL N env t opts).
Proof.
  induction d as [|d IH]; intros t Hb; [destruct Hb|].
  destruct Hb as (n & r & Hres & Hr).
  destruct r as [a|z|x|v|f args].
  1-4: exists (S n); intros opts;
       assert (Hres' : Resolve (S n) env t = Some _)
         by (apply (Resolve_mono n); [lia|exact Hres]);
       unfold RU, RL, Resolve_Unparse; rewrite Hres'; cbn [resolved Term_Unparse list_loop];
       split; [eauto|]; unfold list_loop_body;
       try (destruct (String.eqb a "[]")); eauto.
  assert (Ht : total_args env args).
  { apply total_args_Forall. eapply Forall_impl; [exact Hr|]. exact IH. }
  destruct (Compound_Unparse_total_args env f args Ht) as [Nc Hc].
  destruct Ht as [Na Ha].
  set (M := Nat.max n (Nat.max Nc Na)).
  exists (S M). intros opts.
  assert (Hres' : Resolve (S M) env t = Some (Compound f args))
    by (apply (Resolve_mono n); [unfold M; lia|exact Hres]).
  assert (HcM : forall o, is_Some (Compound_Unparse M f args o env)).
  { intros o. eapply le_opt_is_Some; [apply (Compound_Unparse_mono Nc); unfold M; lia|apply Hc]. }
  unfold RU, RL, Resolve_Unparse. rewrite Hres'. cbn [resolved Term_Unparse list_loop].
  split.
  - eapply le_opt_is_Some; [apply (Compound_Unparse_mono M); lia|apply HcM].
  - unfold list_loop_body.
    destruct (isList f args).
    + apply andThen_is_Some; [apply emit_is_Some|].
      apply andThen_is_Some.
      * apply index_is_Some. intros a Hin.
        apply (le_opt_is_Some (RU Na env a opts)); [apply RU_mono; unfold M; lia|apply Ha, Hin].
      * apply index_is_Some. intros a Hin.
        apply (le_opt_is_Some (RL Na env a opts)); [apply RL_mono; unfold M; lia|apply Ha, Hin].
    + apply andThen_is_Some; [apply emit_is_Some|]. apply HcM.
Qed.

(** C4 (amended).  [Compound.Unparse] returns on every compound whose
    arguments, resolved through the environment, are finite terms: with
    enough fuel for its nested calls it yields a run, the same for any larger
    fuel.  Nothing bounds the traversal otherwise (neither a depth limit nor
    a visited set is in the function). *)
Theorem Compound_Unparse_terminates (d : nat) (Functor : string) (Args : list Term)
    (opts : WriteTermOptions) (env : Env) :
  Forall (bounded d env) Args ->
  exists fuel r, forall fuel', (fuel <= fuel')%nat ->
    Compound_Unparse fuel' Functor Args opts env = Some r.
Proof.
  intros Hb.
  assert (Ht : total_args env Args).
  { apply total_args_Forall. eapply Forall_impl; [exact Hb|]. apply bounded_total. }
  destruct (Compound_Unparse_total_args env Functor Args Ht) as [N HN].
  destruct (HN opts) as [r Hr]. exists N, r. intros fuel' Hle.
  apply (Compound_Unparse_mono N); assumption.
Qed.

Lemma Compound_Unparse_terminates_list :
  exists fuel r, forall fuel', (fuel <= fuel')%nat ->
    Compound_Unparse fuel' "." [Atom "a"; Compound "." [Atom "b"; Atom "[]"]]
      numberVarsOpts ∅ = Some r.
Proof.
  apply (Compound_Unparse_terminates 2).
  repeat constructor.
  - exists O, (Atom "a"). split; [reflexivity|exact I].
  - exists O, (Compound "." [Atom "b"; Atom "[]"]). split; [reflexivity|].
    repeat constructor.
    + exists O, (Atom "b"). split; [reflexivity|exact I].
    + exists O, (Atom "[]"). split; [reflexivity|exact I].
Defined.

(** The list [L = [a|L]] that unification without the occurs check builds. *)
Definition cyclicList : Term := Compound "." [Atom "a"; Var "L"].
Definition cyclicEnv : Env := Bind "L" cyclicList ∅.

Lemma Resolve_cyclic n : Resolve (S n) cyclicEnv (Var "L") = Some cyclicList.
Proof.
  cbn [Resolve]. unfold cyclicEnv, Bind. rewrite lookup_insert_eq.
  destruct n; reflexivity.
Qed.

Lemma Resolve_cyclic_0 : Resolve 0 cyclicEnv (Var "L") = None.
Proof. cbn [Resolve]. unfold cyclicEnv, Bind. rewrite lookup_insert_eq. reflexivity. Qed.

Lemma RL_cyclic n opts :
  (forall o, list_loop n cyclicList o cyclicEnv = None) -> RL n cyclicEnv (Var "L") opts = None.
Proof.
  intros H. unfold RL. destruct n as [|n].
  - rewrite Resolve_cyclic_0. reflexivity.
  - rewrite Resolve_cyclic. cbn [resolved]. apply H.
Qed.

Lemma list_loop_cyclic n : forall opts, list_loop n cyclicList opts cyclicEnv = None.
Proof.
  induction n as [|n IH]; intros opts; [reflexivity|].
  cbn [list_loop]. unfold list_loop_body, cyclicList at 1.
  change (isList "." [Atom "a"; Var "L"]) with true. cbv iota.
  unfold index at 2. cbn [nth_error].
  fold (RL n cyclicEnv (Var "L") opts). rewrite (RL_cyclic n opts IH).
  unfold index, Resolve_Unparse, emit. cbn [nth_error].
  destruct n; reflexivity.
Qed.

Lemma Compound_Unparse_cyclic_list :
  Unify 2 (Var "L") cyclicList false ∅ = Some (cyclicEnv, true) /\
  (forall fuel opts, Compound_Unparse fuel "." [Atom "a"; Var "L"] opts cyclicEnv = None).
Proof.
  split; [reflexivity|].
  intros [|n] opts; [reflexivity|].
  cbn [Compound_Unparse]. unfold Compound_Unparse_body.
  change (isList "." [Atom "a"; Var "L"]) with true. cbv iota.
  unfold index at 2. cbn [nth_error].
  fold (RL n cyclicEnv (Var "L") opts). rewrite (RL_cyclic n opts (list_loop_cyclic n)).
  unfold index, Resolve_Unparse, emit. cbn [nth_error].
  destruct n; reflexivity.
Qed.

(** *** Lists and sequences *)

(** [Cons], [List], [ListRest] and [Seq].  [Seq] takes the last of its terms
    first, [ts[len(ts)-1]], which panics when there is none ([None]). *)
Definition Cons (car cdr : Term) : Term := Compound "." [car; cdr].

Definition ListRest (rest : Term) (ts : list Term) : Term := fold_right Cons rest ts.

Definition List (ts : list Term) : Term := ListRest (Atom "[]") ts.

Definition Seq (sep : string) (ts : list Term) : option Term :=
  match last ts with
  | None => None
  | Some s => Some (fold_right (fun t s => Compound sep [t; s]) s (removelast ts))
  end.

(** The errors of the iterations: modelled from the spec (section 7), the
    constructors being declared outside the sources; an error of the
    callback is any value of [E]. *)
Inductive IterError (E : Type) :=
| InstantiationError (culprit : Term)
| typeErrorList (culprit : Term)
| callbackError (e : E).

Arguments InstantiationError {E} culprit.
Arguments typeErrorList {E} culprit.
Arguments callbackError {E} e.

Section Iterations.

(** The callback [f func(elem Term) error] works on the variables [St] that
    it has captured and returns an error or none; [None]: it does not
    return.  An iteration returns its error, or none, and leaves the
    captured variables as the last call of the callback left them. *)
Context {St E : Type}.
Variable f : Term -> St -> option (St * option E).

(** [if err := f(x); err != nil { return err }] and what follows. *)
Definition call (x : Term) (st : St) (k : St -> option (St * option (IterError E)))
    : option (St * option (IterError E)) :=
  match f x st with
  | None => None
  | Some (st', Some e) => Some (st', Some (callbackError e))
  | Some (st', None) => k st'
  end.

(** [func EachList(list Term, f func(elem Term) error, env *Env) error] *)
Fixpoint EachList (fuel : nat) (whole lst : Term) (env : Env) (st : St)
    : option (St * option (IterError E)) :=
  match fuel with
  | O => None
  | S fuel' =>
      match Resolve fuel' env lst with
      | None => None
      | Some (Var _) => Some (st, Some (InstantiationError whole))
      | Some (Atom a) =>
          if negb (String.eqb a "[]") then Some (st, Some (typeErrorList (Atom a)))
          else Some (st, None)
      | Some (Compound g args) =>
          if negb (String.eqb g ".") || negb (length args =? 2)%nat then
            Some (st, Some (typeErrorList (Compound g args)))
          else
            match args with
            | h :: tl :: _ => call h st (EachList fuel' whole tl env)
            | _ => Some (st, Some (typeErrorList (Compound g args)))
            end
      | Some l => Some (st, Some (typeErrorList l))
      end
  end.

(** [func EachSeq(seq Term, sep Atom, f func(elem Term) error, env *Env) error] *)
Fixpoint EachSeq (fuel : nat) (seq : Term) (sep : string) (env : Env) (st : St)
    : option (St * option (IterError E)) :=
  let last := call seq st (fun st' => Some (st', None)) in
  match fuel with
  | O => None
  | S fuel' =>
      match Resolve fuel' env seq with
      | None => None
      | Some (Compound g (a :: b :: nil)) =>
          if negb (String.eqb g sep) then last
          else call a st (EachSeq fuel' b sep env)
      | Some _ => last
      end
  end.

(** [func Each(any Term, f func(elem Term) error, env *Env) error] *)
Definition Each (fuel : nat) (any : Term) (env : Env) (st : St)
    : option (St * option (IterError E)) :=
  match Resolve fuel env any with
  | None => None
  | Some (Compound g args) =>
      if String.eqb g "." && (length args =? 2)%nat then EachList fuel any any env st
      else EachSeq fuel any "," env st
  | Some _ => EachSeq fuel any "," env st
  end.

(** The calls of the callback on the terms of [ts], one after the other, up
    to the first error, and then [k]. *)
Fixpoint visit (ts : list Term) (st : St) (k : St -> option (St * option (IterError E)))
    : option (St * option (IterError E)) :=
  match ts with
  | [] => k st
  | t :: ts' => call t st (fun st' => visit ts' st' k)
  end.

End Iterations.

(** [func Slice(list Term, env *Env) (ret []Term, err error)]: the callback
    appends the element, resolved, to [ret]. *)
Definition Slice_f (fuel : nat) (env : Env) (elem : Term) (ret : list Term)
    : option (list Term * option Empty_set) :=
  match Resolve fuel env elem with
  | None => None
  | Some r => Some (ret ++ [r], None)
  end.

Definition Slice (fuel : nat) (lst : Term) (env : Env)
    : option (list Term * option (IterError Empty_set)) :=
  EachList (Slice_f fuel env) fuel lst lst env [].

(** *** Facts on lists and sequences *)

Section IterationFacts.

Context {St E : Type}.
Variable f : Term -> St -> option (St * option E).

Lemma call_ext x st (k k' : St -> option (St * option (IterError E))) :
  (forall st', k st' = k' st') -> call f x st k = call f x st k'.
Proof. intros H. unfold call. destruct (f x st) as [[st' [e|]]|]; auto. Qed.

Lemma visit_ext ts : forall st (k k' : St -> option (St * option (IterError E))),
  (forall st', k st' = k' st') -> visit f ts st k = visit f ts st k'.
Proof.
  induction ts as [|t ts IH]; intros st k k' H; cbn [visit]; [apply H|].
  apply call_ext. intros st'. apply IH. exact H.
Qed.

Lemma visit_app ts us : forall st k,
  visit f (ts ++ us) st k = visit f ts st (fun st' => visit f us st' k).
Proof.
  induction ts as [|t ts IH]; intros st k; cbn [visit app]; [reflexivity|].
  apply call_ext. intros st'. apply IH.
Qed.

(** A list cell: its head is given to the callback and the walk goes on
    with its tail. *)
Lemma EachList_Cons fuel whole h tl env st :
  EachList f (S fuel) whole (Cons h tl) env st
  = call f h st (EachList f fuel whole tl env).
Proof. unfold Cons. cbn [EachList]. rewrite Resolve_Compound. reflexivity. Qed.

Lemma EachList_ListRest ts : forall fuel whole rest env st,
  EachList f (length ts + fuel) whole (ListRest rest ts) env st
  = visit f ts st (EachList f fuel whole rest env).
Proof.
  induction ts as [|t ts IH]; intros fuel whole rest env st; [reflexivity|].
  change (ListRest rest (t :: ts)) with (Cons t (ListRest rest ts)).
  cbn [length Nat.add visit]. rewrite EachList_Cons.
  apply call_ext. intros st'. apply IH.
Qed.

(** What ends a list: the atom [[]], or else an error. *)
Definition listEnd (whole : Term) (r : Term) : option (IterError E) :=
  match r with
  | Var _ => Some (InstantiationError whole)
  | Atom a => if String.eqb a "[]" then None else Some (typeErrorList r)
  | _ => Some (typeErrorList r)
  end.

Definition isCell (r : Term) : bool :=
  match r with
  | Compound g args => String.eqb g "." && (length args =? 2)%nat
  | _ => false
  end.

Lemma EachList_end fuel whole rest env st r :
  Resolve fuel env rest = Some r -> isCell r = false ->
  EachList f (S fuel) whole rest env st = Some (st, listEnd whole r).
Proof.
  intros Hr Hc. cbn [EachList]. rewrite Hr.
  destruct r as [a|z|x|v|g args]; cbn [listEnd]; try reflexivity.
  - destruct (String.eqb a "[]"); reflexivity.
  - cbn [isCell] in Hc. rewrite <- negb_andb, Hc. reflexivity.
Qed.

(** X13.  [EachList] on the list of the terms [ts] before [rest] gives the
    terms of [ts] to the callback, in their order, stops at the first error
    of the callback and returns it, and then goes on with [rest]; [rest]
    ends the walk without an error when it is the atom [[]], with the
    instantiation error of the whole list when it is an unbound variable,
    and with the type error of [rest] itself when it is another atom, a
    number or a compound that is no list cell. *)
Theorem EachList_walks_the_list (ts : list Term) (fuel : nat) (whole rest r : Term)
    (env : Env) (st : St) :
  Resolve fuel env rest = Some r -> isCell r = false ->
  EachList f (length ts + S fuel) whole (ListRest rest ts) env st
  = visit f ts st (fun st' => Some (st', listEnd whole r)).
Proof.
  intros Hr Hc. rewrite EachList_ListRest. apply visit_ext.
  intros st'. apply EachList_end; assumption.
Qed.

End IterationFacts.

Lemma EachList_walks_the_list_a_b :
  Slice 3 (List [Atom "a"; Atom "b"]) ∅ = Some ([Atom "a"; Atom "b"], None) /\
  Slice 3 (ListRest (Var "X") [Atom "a"; Atom "b"]) ∅
  = Some ([Atom "a"; Atom "b"],
          Some (InstantiationError (ListRest (Var "X") [Atom "a"; Atom "b"]))).
Proof.
  split.
  - exact (EachList_walks_the_list (Slice_f 3 ∅) [Atom "a"; Atom "b"] 0
             (List [Atom "a"; Atom "b"]) (Atom "[]") (Atom "[]") ∅ [] eq_refl eq_refl).
  - exact (EachList_walks_the_list (Slice_f 3 ∅) [Atom "a"; Atom "b"] 0
             (ListRest (Var "X") [Atom "a"; Atom "b"]) (Var "X") (Var "X") ∅ []
             eq_refl eq_refl).
Defined.

Lemma Resolve_value n env t :
  match t with Var _ => False | _ => True end -> Resolve n env t = Some t.
Proof. destruct t; try contradiction; intros _; destruct n; reflexivity. Qed.

Lemma visit_Slice_f fuel env n ts rs :
  (n <= fuel)%nat -> Forall2 (fun t r => Resolve n env t = Some r) ts rs ->
  forall acc (k : list Term -> option (list Term * option (IterError Empty_set))),
    visit (Slice_f fuel env) ts acc k = k (acc ++ rs).
Proof.
  intros Hle. induction 1 as [|t r ts rs Hr _ IH]; intros acc k; cbn [visit].
  - rewrite app_nil_r. reflexivity.
  - unfold call, Slice_f at 1. rewrite (Resolve_mono n fuel env t Hle _ Hr).
    rewrite IH, <- app_assoc. reflexivity.
Qed.

(** X14.  [Slice] of a list.  When the elements of the list of [ts] resolve
    to [rs], [Slice] returns [rs] without an error; on the partial list of
    [ts] before an unbound variable it returns [rs] too, with the
    instantiation error of the whole list; and on the list of [ts] before
    another atom than [[]] it returns [rs] with the type error of that atom. *)
Theorem Slice_of_a_list (n fuel : nat) (env : Env) (ts rs : list Term) :
  Forall2 (fun t r => Resolve n env t = Some r) ts rs ->
  (n <= fuel)%nat -> (length ts < fuel)%nat ->
  Slice fuel (List ts) env = Some (rs, None) /\
  (forall x, env !! x = None ->
     Slice fuel (ListRest (Var x) ts) env
     = Some (rs, Some (InstantiationError (ListRest (Var x) ts)))) /\
  (forall a, a <> "[]" ->
     Slice fuel (ListRest (Atom a) ts) env = Some (rs, Some (typeErrorList (Atom a)))).
Proof.
  intros Hrs Hn Hlen. unfold Slice.
  pose proof (visit_Slice_f fuel env n ts rs Hn Hrs) as Hv.
  remember (Slice_f fuel env) as g eqn:Hg. clear Hg.
  replace fuel with (length ts + S (fuel - length ts - 1))%nat by lia.
  split; [|split].
  - unfold List.
    rewrite (EachList_walks_the_list _ ts _ _ (Atom "[]") (Atom "[]"));
      [|apply Resolve_value; exact I|reflexivity].
    rewrite Hv. reflexivity.
  - intros x Hx.
    rewrite (EachList_walks_the_list _ ts _ _ (Var x) (Var x));
      [|apply Resolve_Var_unbound; exact Hx|reflexivity].
    rewrite Hv. reflexivity.
  - intros a Ha.
    rewrite (EachList_walks_the_list _ ts _ _ (Atom a) (Atom a));
      [|apply Resolve_value; exact I|reflexivity].
    rewrite Hv. cbn [listEnd app].
    destruct (String.eqb_spec a "[]"); [contradiction|reflexivity].
Qed.

Lemma Slice_of_a_list_bound :
  Slice 3 (List [Var "X"; Atom "b"]) (Bind "X" (Atom "a") ∅)
  = Some ([Atom "a"; Atom "b"], None).
Proof.
  refine (proj1 (Slice_of_a_list 1 3 (Bind "X" (Atom "a") ∅) [Var "X"; Atom "b"]
                   [Atom "a"; Atom "b"] _ ltac:(lia) ltac:(cbn; lia))).
  repeat constructor.
Defined.

(** *** Sequences *)

Definition sepCons (sep : string) (t s : Term) : Term := Compound sep [t; s].

Lemma Seq_snoc sep ts s : Seq sep (ts ++ [s]) = Some (fold_right (sepCons sep) s ts).
Proof. unfold Seq. rewrite last_snoc, removelast_last. reflexivity. Qed.

(** A term that [EachSeq] does not take apart. *)
Definition isSeq (sep : string) (r : Term) : bool :=
  match r with
  | Compound g [_; _] => String.eqb g sep
  | _ => false
  end.

Section SequenceFacts.

Context {St E : Type}.
Variable f : Term -> St -> option (St * option E).

Lemma EachSeq_last fuel s r sep env st :
  Resolve fuel env s = Some r -> isSeq sep r = false ->
  EachSeq f (S fuel) s sep env st = call f s st (fun st' => Some (st', None)).
Proof.
  intros Hr Hs. cbn [EachSeq]. rewrite Hr.
  destruct r as [a|z|x|v|g [|a1 [|a2 [|a3 args]]]]; try reflexivity.
  cbn [isSeq] in Hs. rewrite Hs. reflexivity.
Qed.

Lemma EachSeq_fold ts : forall fuel s sep env st,
  EachSeq f (length ts + fuel) (fold_right (sepCons sep) s ts) sep env st
  = visit f ts st (EachSeq f fuel s sep env).
Proof.
  induction ts as [|t ts IH]; intros fuel s sep env st; [reflexivity|].
  cbn [fold_right length Nat.add visit]. unfold sepCons at 1. cbn [EachSeq].
  rewrite Resolve_Compound, String.eqb_refl. cbn [negb].
  apply call_ext. intros st'. apply IH.
Qed.

(** X15.  [Seq] and [EachSeq].  [Seq] of no term panics.  [EachSeq] on the
    sequence that [Seq] makes of the terms [ts] and a last term [s] gives
    [ts] and then [s] to the callback, in this order, up to its first error,
    as long as [s] is not itself, once resolved, a term of the separator with
    two arguments; for such an [s], made by [Seq] of [us], the sequence is
    the one of [ts] and [us] together: the nesting is not kept. *)
Theorem EachSeq_walks_the_sequence (sep : string) (ts : list Term) (s r : Term)
    (fuel : nat) (env : Env) (st : St) :
  Resolve fuel env s = Some r -> isSeq sep r = false ->
  Seq sep [] = None /\
  (exists q, Seq sep (ts ++ [s]) = Some q /\
     EachSeq f (length ts + S fuel) q sep env st
     = visit f (ts ++ [s]) st (fun st' => Some (st', None))) /\
  (forall us q q', Seq sep us = Some q' -> Seq sep (ts ++ [q']) = Some q ->
     Seq sep (ts ++ us) = Some q).
Proof.
  intros Hr Hs. split; [reflexivity|]. split.
  - exists (fold_right (sepCons sep) s ts). split; [apply Seq_snoc|].
    rewrite EachSeq_fold, visit_app. apply visit_ext. intros st'.
    cbn [visit]. apply (EachSeq_last _ _ r); assumption.
  - intros us q q' Hus Hq. rewrite Seq_snoc in Hq. injection Hq as <-.
    destruct (decide (us = [])) as [->|Hne]; [discriminate Hus|].
    destruct (exists_last Hne) as (us' & u & ->).
    rewrite Seq_snoc in Hus. injection Hus as <-.
    rewrite app_assoc, Seq_snoc, fold_right_app. reflexivity.
Qed.

End SequenceFacts.

(** The callback that collects the elements. *)
Definition collect (t : Term) (acc : list Term) : option (list Term * option Empty_set) :=
  Some (acc ++ [t], None).

Lemma EachSeq_walks_the_sequence_a_b_c :
  exists q, Seq "," [Atom "a"; Atom "b"; Atom "c"] = Some q /\
    EachSeq collect 3 q "," ∅ [] = Some ([Atom "a"; Atom "b"; Atom "c"], None).
Proof.
  destruct (EachSeq_walks_the_sequence collect "," [Atom "a"; Atom "b"] (Atom "c") (Atom "c")
              0 ∅ [] eq_refl eq_refl) as (_ & (q & Hq & He) & _).
  exists q. split; [exact Hq|exact He].
Defined.

(** *** The iterators *)

(** [i.Env.Resolve(t)] on a term that may be the nil interface value, which
    resolves to itself. *)
Definition resolveNil (fuel : nat) (env : Env) (t : option Term) : option (option Term) :=
  match t with
  | None => Some None
  | Some t' =>
      match Resolve fuel env t' with
      | None => None
      | Some r => Some (Some r)
      end
  end.

(** [type SeqIterator struct { Seq Term; Env *Env; current Term }] *)
Record SeqIterator := {
  Seq_ : option Term;          (* Seq *)
  SeqIterator_current : option Term
}.

(** [func (i *SeqIterator) Next() bool]; [None]: the resolution does not
    return. *)
Definition SeqIterator_Next (fuel : nat) (env : Env) (i : SeqIterator)
    : option (bool * SeqIterator) :=
  match resolveNil fuel env (Seq_ i) with
  | None => None
  | Some None => Some (false, i)
  | Some (Some (Compound g args)) =>
      if negb (String.eqb g ",") || negb (length args =? 2)%nat then
        Some (true, {| Seq_ := None; SeqIterator_current := Some (Compound g args) |})
      else
        Some (true, {| Seq_ := args !! 1%nat; SeqIterator_current := args !! 0%nat |})
  | Some (Some s) => Some (true, {| Seq_ := None; SeqIterator_current := Some s |})
  end.

(** [type AltIterator struct { Alt Term; Env *Env; current Term }] *)
Record AltIterator := {
  Alt : option Term;
  AltIterator_current : option Term
}.

(** [c, ok := i.Env.Resolve(a.Arg(0)).(Compound); ok && c.Functor() == atomThen
    && c.Arity() == 2] *)
Definition isThen (r : Term) : bool :=
  match r with
  | Compound g args => String.eqb g "->" && (length args =? 2)%nat
  | _ => false
  end.

(** [func (i *AltIterator) Next() bool] *)
Definition AltIterator_Next (fuel : nat) (env : Env) (i : AltIterator)
    : option (bool * AltIterator) :=
  match resolveNil fuel env (Alt i) with
  | None => None
  | Some None => Some (false, i)
  | Some (Some (Compound g args)) =>
      if negb (String.eqb g ";") || negb (length args =? 2)%nat then
        Some (true, {| Alt := None; AltIterator_current := Some (Compound g args) |})
      else
        match resolveNil fuel env (args !! 0%nat) with
        | None => None
        | Some c =>
            if match c with Some r => isThen r | None => false end then
              Some (true, {| Alt := None; AltIterator_current := Some (Compound g args) |})
            else
              Some (true, {| Alt := args !! 1%nat; AltIterator_current := args !! 0%nat |})
        end
  | Some (Some a) => Some (true, {| Alt := None; AltIterator_current := Some a |})
  end.

(** The loop [for i.Next() { ... i.Current() ... }], which collects the
    current elements: at most [n] turns are taken, and [None] says that the
    iterator was not at its end by then. *)
Section Drain.

Context {I : Type}.
Variable next : I -> option (bool * I).
Variable cur : I -> option Term.

Fixpoint drain (n : nat) (i : I) (acc : list (option Term))
    : option (list (option Term) * I) :=
  match n with
  | O => None
  | S n' =>
      match next i with
      | None => None
      | Some (false, i') => Some (acc, i')
      | Some (true, i') => drain n' i' (acc ++ [cur i'])
      end
  end.

End Drain.

(** *** Facts on the iterators of sequences and alternatives *)

Lemma SeqIterator_Next_last fuel env s r c :
  Resolve fuel env s = Some r -> isSeq "," r = false ->
  SeqIterator_Next fuel env {| Seq_ := Some s; SeqIterator_current := c |}
  = Some (true, {| Seq_ := None; SeqIterator_current := Some r |}).
Proof.
  intros Hr Hs. unfold SeqIterator_Next. cbn [Seq_ resolveNil]. rewrite Hr.
  destruct r as [a|z|x|v|g args]; try reflexivity.
  assert (E : negb (String.eqb g ",") || negb (length args =? 2)%nat = true).
  { destruct args as [|a1 [|a2 [|a3 args]]]; cbn [length Nat.eqb negb];
      rewrite ?orb_true_r; try reflexivity.
    cbn [isSeq] in Hs. rewrite Hs. reflexivity. }
  rewrite E. reflexivity.
Qed.

Lemma drain_SeqIterator fuel env s r :
  Resolve fuel env s = Some r -> isSeq "," r = false ->
  forall ts c0 acc,
    drain (SeqIterator_Next fuel env) SeqIterator_current (length ts + 2)
      {| Seq_ := Some (fold_right (sepCons ",") s ts); SeqIterator_current := c0 |} acc
    = Some (acc ++ (Some <$> ts) ++ [Some r],
            {| Seq_ := None; SeqIterator_current := Some r |}).
Proof.
  intros Hr Hs. induction ts as [|t ts IH]; intros c0 acc.
  - cbn [fold_right length Nat.add drain fmap list_fmap app].
    rewrite (SeqIterator_Next_last fuel env s r c0 Hr Hs). reflexivity.
  - cbn [fold_right length Nat.add drain fmap list_fmap].
    unfold SeqIterator_Next at 1. cbn [Seq_ resolveNil]. unfold sepCons at 1.
    rewrite Resolve_Compound. cbn [String.eqb Ascii.eqb Bool.eqb negb length Nat.eqb orb].
    cbn [lookup list_lookup SeqIterator_current].
    rewrite IH. rewrite <- app_assoc. reflexivity.
Qed.

Lemma visit_collect l : forall acc,
  visit collect l acc (fun st' => Some (st', None)) = Some (acc ++ l, @None (IterError Empty_set)).
Proof.
  induction l as [|t l IH]; intros acc.
  - rewrite app_nil_r. reflexivity.
  - cbn [visit]. unfold call, collect at 1. rewrite IH, <- app_assoc. reflexivity.
Qed.

(** X16.  [SeqIterator] on a sequence.  On the sequence of the terms [ts]
    and a last term [s] it delivers [ts], one call of [Next] each, and then
    [s] resolved; the call after that returns [false].  [EachSeq] gives its
    callback the same terms, but the last one as it is written, not
    resolved. *)
Theorem SeqIterator_walks_the_sequence (fuel : nat) (env : Env) (ts : list Term) (s r : Term) :
  Resolve fuel env s = Some r -> isSeq "," r = false ->
  exists q, Seq "," (ts ++ [s]) = Some q /\
    drain (SeqIterator_Next fuel env) SeqIterator_current (length ts + 2)
      {| Seq_ := Some q; SeqIterator_current := None |} []
    = Some ((Some <$> ts) ++ [Some r], {| Seq_ := None; SeqIterator_current := Some r |}) /\
    EachSeq collect (length ts + S fuel) q "," env [] = Some (ts ++ [s], None).
Proof.
  intros Hr Hs. exists (fold_right (sepCons ",") s ts).
  split; [apply Seq_snoc|]. split.
  - apply (drain_SeqIterator fuel env s r Hr Hs ts None []).
  - destruct (EachSeq_walks_the_sequence collect "," ts s r fuel env [] Hr Hs)
      as (_ & (q & Hq & He) & _).
    rewrite Seq_snoc in Hq. injection Hq as <-. rewrite He.
    apply (visit_collect (ts ++ [s]) []).
Qed.

(** The last term of the sequence [a, X] is the variable [X], bound to [b]. *)
Lemma SeqIterator_walks_the_sequence_resolved :
  exists q, Seq "," [Atom "a"; Var "X"] = Some q /\
    drain (SeqIterator_Next 1 (Bind "X" (Atom "b") ∅)) SeqIterator_current 3
      {| Seq_ := Some q; SeqIterator_current := None |} []
    = Some ([Some (Atom "a"); Some (Atom "b")],
            {| Seq_ := None; SeqIterator_current := Some (Atom "b") |}) /\
    EachSeq collect 3 q "," (Bind "X" (Atom "b") ∅) [] = Some ([Atom "a"; Var "X"], None).
Proof.
  exact (SeqIterator_walks_the_sequence 1 (Bind "X" (Atom "b") ∅) [Atom "a"] (Var "X")
           (Atom "b") eq_refl eq_refl).
Defined.

Lemma AltIterator_Next_last fuel env s r c :
  Resolve fuel env s = Some r -> isSeq ";" r = false ->
  AltIterator_Next fuel env {| Alt := Some s; AltIterator_current := c |}
  = Some (true, {| Alt := None; AltIterator_current := Some r |}).
Proof.
  intros Hr Hs. unfold AltIterator_Next. cbn [Alt resolveNil]. rewrite Hr.
  destruct r as [a|z|x|v|g args]; try reflexivity.
  assert (E : negb (String.eqb g ";") || negb (length args =? 2)%nat = true).
  { destruct args as [|a1 [|a2 [|a3 args]]]; cbn [length Nat.eqb negb];
      rewrite ?orb_true_r; try reflexivity.
    cbn [isSeq] in Hs. rewrite Hs. reflexivity. }
  rewrite E. reflexivity.
Qed.

(** The terms of [ts] are no if-then-else. *)
Definition noThen (fuel : nat) (env : Env) (ts : list Term) : Prop :=
  Forall (fun t => exists r, Resolve fuel env t = Some r /\ isThen r = false) ts.

Lemma drain_AltIterator fuel env (last : Term) (r : Term) :
  (forall c, AltIterator_Next fuel env {| Alt := Some last; AltIterator_current := c |}
             = Some (true, {| Alt := None; AltIterator_current := Some r |})) ->
  forall ts, noThen fuel env ts -> forall c0 acc,
    drain (AltIterator_Next fuel env) AltIterator_current (length ts + 2)
      {| Alt := Some (fold_right (sepCons ";") last ts); AltIterator_current := c0 |} acc
    = Some (acc ++ (Some <$> ts) ++ [Some r],
            {| Alt := None; AltIterator_current := Some r |}).
Proof.
  intros Hlast. induction 1 as [|t ts (rt & Hrt & Ht) _ IH]; intros c0 acc.
  - cbn [fold_right length Nat.add drain fmap list_fmap app].
    rewrite Hlast. reflexivity.
  - cbn [fold_right length Nat.add drain fmap list_fmap].
    unfold AltIterator_Next at 1. cbn [Alt resolveNil]. unfold sepCons at 1.
    rewrite Resolve_Compound. cbn [String.eqb Ascii.eqb Bool.eqb negb length Nat.eqb orb].
    cbn [lookup list_lookup resolveNil]. rewrite Hrt, Ht.
    cbn [AltIterator_current]. rewrite IH. rewrite <- app_assoc. reflexivity.
Qed.

(** X17.  [AltIterator] on alternatives.  On the alternatives [ts], none of
    them an if-then-else, before a last term [s] it delivers [ts] and then
    [s] resolved; but an alternative whose left side resolves to [c -> t] is
    an if-then-else, which is not taken apart: the iterator delivers it
    whole, with its else branch, as the last element. *)
Theorem AltIterator_keeps_if_then_else (fuel : nat) (env : Env) (ts : list Term) :
  noThen fuel env ts ->
  (forall s r, Resolve fuel env s = Some r -> isSeq ";" r = false ->
     drain (AltIterator_Next fuel env) AltIterator_current (length ts + 2)
       {| Alt := Some (fold_right (sepCons ";") s ts); AltIterator_current := None |} []
     = Some ((Some <$> ts) ++ [Some r], {| Alt := None; AltIterator_current := Some r |})) /\
  (forall c e rc, Resolve fuel env c = Some rc -> isThen rc = true ->
     let ite := Compound ";" [c; e] in
     drain (AltIterator_Next fuel env) AltIterator_current (length ts + 2)
       {| Alt := Some (fold_right (sepCons ";") ite ts); AltIterator_current := None |} []
     = Some ((Some <$> ts) ++ [Some ite], {| Alt := None; AltIterator_current := Some ite |})).
Proof.
  intros Hts. split.
  - intros s r Hr Hs.
    apply (drain_AltIterator fuel env s r); [|exact Hts].
    intros c. apply AltIterator_Next_last; assumption.
  - intros c e rc Hrc Hthen ite.
    apply (drain_AltIterator fuel env ite ite); [|exact Hts].
    intros c0. unfold AltIterator_Next, ite. cbn [Alt resolveNil].
    rewrite Resolve_Compound. cbn [String.eqb Ascii.eqb Bool.eqb negb length Nat.eqb orb].
    cbn [lookup list_lookup resolveNil]. rewrite Hrc, Hthen. reflexivity.
Qed.

Lemma AltIterator_keeps_if_then_else_example :
  let ite := Compound ";" [Compound "->" [Atom "a"; Atom "b"]; Atom "c"] in
  drain (AltIterator_Next 0 ∅) AltIterator_current 3
    {| Alt := Some (Compound ";" [Atom "x"; ite]); AltIterator_current := None |} []
  = Some ([Some (Atom "x"); Some ite], {| Alt := None; AltIterator_current := Some ite |}).
Proof.
  refine (proj2 (AltIterator_keeps_if_then_else 0 ∅ [Atom "x"] _)
                (Compound "->" [Atom "a"; Atom "b"]) (Atom "c") _ eq_refl eq_refl).
  repeat constructor. exists (Atom "x"). split; reflexivity.
Defined.
End Engine.

(** ** Terms with mutable variable cells: the built-in predicates *)

Module Prolog.

(** The values of the interface [Term].  A [*Variable] is the address of its
    cell; the field [Ref] of the cell is read in the store.  [Nil] is the nil
    interface value, which [Ref] holds while the variable is unbound. *)
Inductive Term :=
| Nil
| Atom (a : string)
| Integer (n : Z)
| Float (f : float)
| Ref (p : nat)
| Compound (Functor : string) (Args : list Term).

(** The store: the [Ref] field of the allocated cells (no entry, or [Nil],
    for an unbound variable) and the next free address. *)
Record Store := {
  cells : gmap nat Term;
  next : nat
}.

(** [v.Ref] *)
Definition ref (s : Store) (p : nat) : Term := default Nil (cells s !! p).

(** [v.Ref = t] *)
Definition setRef (p : nat) (t : Term) (s : Store) : Store :=
  {| cells := match t with Nil => delete p (cells s) | _ => <[p := t]> (cells s) end;
     next := next s |}.

(** [var v Variable] and [&Variable{}]: a new cell, unbound. *)
Definition newVariable (s : Store) : nat * Store :=
  (next s, {| cells := delete (next s) (cells s); next := S (next s) |}).

Definition isNil (t : Term) : bool := match t with Nil => true | _ => false end.

(** [Cons] and [List] of the term package. *)
Definition Cons (car cdr : Term) : Term := Compound "." [car; cdr].
Definition List (ts : list Term) : Term := fold_right Cons (Atom "[]") ts.

(** Modelled from the spec: the walk of a variable chain to the deepest
    non-variable term or to the terminal unbound variable; one unit of fuel
    per cell followed. *)
Fixpoint walk (fuel : nat) (s : Store) (t : Term) : option Term :=
  match t with
  | Ref p =>
      match ref s p with
      | Nil => Some t
      | t' =>
          match fuel with
          | O => None
          | S fuel' => walk fuel' s t'
          end
      end
  | _ => Some t
  end.

(** Modelled from the spec: [Resolve], which is outside the sources.  As
    [TypeVar] reads it, its result is nil on an unbound variable. *)
Definition Resolve (fuel : nat) (s : Store) (t : Term) : option Term :=
  match walk fuel s t with
  | None => None
  | Some (Ref _) => Some Nil
  | Some r => Some r
  end.

(** The result of a call of the method [Unify]: a boolean, the store it
    left, or a run-time panic (a method called on the nil interface). *)
Inductive Unified :=
| U (ok : bool) (s : Store)
| UPanic.

(** The loop over the arguments of two compounds of the same length. *)
Fixpoint unify_args (unify : Term -> Term -> Store -> option Unified)
    (cs ts : list Term) (s : Store) : option Unified :=
  match cs, ts with
  | c :: cs', t :: ts' =>
      match unify c t s with
      | Some (U true s') => unify_args unify cs' ts' s'
      | r => r
      end
  | _, _ => Some (U true s)
  end.

(** Modelled from the spec: the method [Unify] of the terms, which is outside
    the sources.  Atoms unify only with equal atoms, numbers with equal
    numbers of the same kind, compounds with compounds of the same functor
    and number of arguments whose arguments unify pairwise; a variable that
    is bound hands over to what it is bound to, an unbound one is bound to
    the other side resolved, unless that is the same variable.  Of two
    unbound variables the spec binds either to the other; here the other
    side is bound to the receiver, which is what the loop of [Univ] on
    [car.Ref] reads: it follows a variable that [car], the other side of
    [list.Unify(Cons(&car, &cdr))], has been bound to. *)
Fixpoint Unify (fuel : nat) (x t : Term) (s : Store) : option Unified :=
  match fuel with
  | O => None
  | S fuel' =>
      match x with
      | Nil => Some UPanic
      | Atom a =>
          match t with
          | Atom b => Some (U (String.eqb a b) s)
          | Ref _ => Unify fuel' t x s
          | _ => Some (U false s)
          end
      | Integer n =>
          match t with
          | Integer m => Some (U (n =? m) s)
          | Ref _ => Unify fuel' t x s
          | _ => Some (U false s)
          end
      | Float f =>
          match t with
          | Float g => Some (U (PrimFloat.eqb f g) s)
          | Ref _ => Unify fuel' t x s
          | _ => Some (U false s)
          end
      | Compound f args =>
          match t with
          | Compound g targs =>
              if negb (String.eqb f g) then Some (U false s)
              else if negb (length args =? length targs)%nat then Some (U false s)
              else unify_args (Unify fuel') args targs s
          | Ref _ => Unify fuel' t x s
          | _ => Some (U false s)
          end
      | Ref p =>
          match ref s p with
          | Nil =>
              match walk fuel' s t with
              | None => None
              | Some Nil => Some (U true s)
              | Some (Ref q) =>
                  if (p =? q)%nat then Some (U true s) else Some (U true (setRef q (Ref p) s))
              | Some t' => Some (U true (setRef p t' s))
              end
          | r => Unify fuel' r t s
          end
      end
  end.

(** What a built-in predicate does in the end: it returns [k()], the call of
    its continuation, in the store it has reached; or it returns a boolean
    and an error of its own; or it panics. *)
Inductive Outcome :=
| Continue (s : Store)
| Return (ok : bool) (err : option string) (s : Store)
| Panic.

(** *** [Functor] *)

(** The first loop of [Functor]: [for v == nil { switch t := term.(type) ... }].
    It ends on the unbound variable [v], or the function returns from an atom
    or a compound. *)
Inductive FunctorTerm :=
| FoundVar (v : nat)
| FoundAtom (a : string)
| FoundCompound (f : string) (args : list Term)
| FoundOther.

Fixpoint Functor_term (fuel : nat) (s : Store) (term : Term) : option FunctorTerm :=
  match term with
  | Atom a => Some (FoundAtom a)
  | Ref p =>
      match ref s p with
      | Nil => Some (FoundVar p)
      | t' =>
          match fuel with
          | O => None
          | S fuel' => Functor_term fuel' s t'
          end
      end
  | Compound f args => Some (FoundCompound f args)
  | _ => Some FoundOther
  end.

(** The second and the third loops: [for n == nil] and [for a == nil]. *)
Fixpoint Functor_name (fuel : nat) (s : Store) (name : Term) : option (string + string) :=
  match name with
  | Atom a => Some (inl a)
  | Ref p =>
      match ref s p with
      | Nil => Some (inr "invalid arguments: atom is not instantiated")
      | t' =>
          match fuel with
          | O => None
          | S fuel' => Functor_name fuel' s t'
          end
      end
  | _ => Some (inr "invalid arguments: name is %T")
  end.

Fixpoint Functor_arity (fuel : nat) (s : Store) (arity : Term) : option (Z + string) :=
  match arity with
  | Integer a => Some (inl a)
  | Ref p =>
      match ref s p with
      | Nil => Some (inr "invalid arguments")
      | t' =>
          match fuel with
          | O => None
          | S fuel' => Functor_arity fuel' s t'
          end
      end
  | _ => Some (inr "invalid arguments")
  end.

(** [vars := make([]Term, *a)] filled with as many new variables. *)
Fixpoint newVariables (n : nat) (s : Store) : list Term * Store :=
  match n with
  | O => ([], s)
  | S n' =>
      let (p, s1) := newVariable s in
      let (vs, s2) := newVariables n' s1 in
      (Ref p :: vs, s2)
  end.

(** [if !x.Unify(t) { return false, nil }; return k()] *)
Definition unify_then_k (r : option Unified) : option Outcome :=
  match r with
  | None => None
  | Some UPanic => Some Panic
  | Some (U false s) => Some (Return false None s)
  | Some (U true s) => Some (Continue s)
  end.

(** [if !x.Unify(t) || !y.Unify(u) { return false, nil }; return k()] *)
Definition unify2_then_k (fuel : nat) (x t y u : Term) (s : Store) : option Outcome :=
  match Unify fuel x t s with
  | None => None
  | Some UPanic => Some Panic
  | Some (U false s1) => Some (Return false None s1)
  | Some (U true s1) => unify_then_k (Unify fuel y u s1)
  end.

Definition Functor (fuel : nat) (term name arity : Term) (s : Store) : option Outcome :=
  match Functor_term fuel s term with
  | None => None
  | Some (FoundAtom t) => unify2_then_k fuel (Atom t) name (Integer 0) arity s
  | Some (FoundCompound f args) =>
      unify2_then_k fuel (Atom f) name (Integer (Z.of_nat (length args))) arity s
  | Some FoundOther => Some (Return false None s)
  | Some (FoundVar v) =>
      match Functor_name fuel s name with
      | None => None
      | Some (inr e) => Some (Return false (Some e) s)
      | Some (inl n) =>
          match Functor_arity fuel s arity with
          | None => None
          | Some (inr e) => Some (Return false (Some e) s)
          | Some (inl a) =>
              if a =? 0 then unify_then_k (Unify fuel (Ref v) (Integer a) s)
              else if a <? 0 then Some Panic   (* make: len out of range *)
              else
                let (vars, s1) := newVariables (Z.to_nat a) s in
                unify_then_k (Unify fuel (Ref v) (Compound n vars) s1)
          end
      end
  end.

(** *** [Univ] *)

(** The loop [for c == nil { switch t := term.(type) ... }] of [Univ]. *)
Inductive UnivTerm :=
| UnivVar (v : nat)
| UnivCompound (f : string) (args : list Term)
| UnivOther.

Fixpoint Univ_term (fuel : nat) (s : Store) (term : Term) : option UnivTerm :=
  match term with
  | Ref p =>
      match ref s p with
      | Nil => Some (UnivVar p)
      | t' =>
          match fuel with
          | O => None
          | S fuel' => Univ_term fuel' s t'
          end
      end
  | Compound f args => Some (UnivCompound f args)
  | _ => Some UnivOther
  end.

(** The loop [for f == nil { switch t := car.Ref.(type) ... }]: it shortens
    the chain that hangs on the cell [car] until an atom is found there. *)
Fixpoint Univ_functor (fuel : nat) (car : nat) (s : Store) : option (option string * Store) :=
  match ref s car with
  | Atom a => Some (Some a, s)
  | Ref q =>
      match ref s q with
      | Nil => Some (None, s)
      | r =>
          match fuel with
          | O => None
          | S fuel' => Univ_functor fuel' car (setRef car r s)
          end
      end
  | _ => Some (None, s)
  end.

Definition isEmptyList (t : Term) : bool :=
  match t with
  | Atom a => String.eqb a "[]"
  | _ => false
  end.

Inductive UnivArgs :=
| ArgsDone (args : list Term) (s : Store)
| ArgsInvalid (s : Store)
| ArgsPanic.

(** The loop [for list != Atom("[]")] that collects the arguments. *)
Fixpoint Univ_args (fuel : nat) (lst : Term) (args : list Term) (s : Store)
    : option UnivArgs :=
  if isEmptyList lst then Some (ArgsDone args s)
  else
    match fuel with
    | O => None
    | S fuel' =>
        let (car, s1) := newVariable s in
        let (cdr, s2) := newVariable s1 in
        match Unify fuel' lst (Cons (Ref car) (Ref cdr)) s2 with
        | None => None
        | Some UPanic => Some ArgsPanic
        | Some (U false s3) => Some (ArgsInvalid s3)
        | Some (U true s3) => Univ_args fuel' (ref s3 cdr) (args ++ [ref s3 car]) s3
        end
    end.

Definition invalidArgument : option string := Some "invalid argument".

Definition Univ (fuel : nat) (term lst : Term) (s : Store) : option Outcome :=
  match Univ_term fuel s term with
  | None => None
  | Some UnivOther => Some (Return false invalidArgument s)
  | Some (UnivCompound f args) =>
      unify_then_k (Unify fuel lst (Cons (Atom f) (List args)) s)
  | Some (UnivVar v) =>
      let (car, s1) := newVariable s in
      let (cdr, s2) := newVariable s1 in
      match Unify fuel lst (Cons (Ref car) (Ref cdr)) s2 with
      | None => None
      | Some UPanic => Some Panic
      | Some (U false s3) => Some (Return false invalidArgument s3)
      | Some (U true s3) =>
          match Univ_functor fuel car s3 with
          | None => None
          | Some (None, s4) => Some (Return false invalidArgument s4)
          | Some (Some f, s4) =>
              match Univ_args fuel (ref s4 cdr) [] s4 with
              | None => None
              | Some ArgsPanic => Some Panic
              | Some (ArgsInvalid s5) => Some (Return false invalidArgument s5)
              | Some (ArgsDone args s5) =>
                  unify_then_k (Unify fuel (Ref v) (Compound f args) s5)
              end
          end
      end
  end.

(** *** [Engine.Op] *)

(** An entry of [e.operators]; [operator{}] is its zero value. *)
Record operator := {
  Precedence : Z;
  Type_ : string;    (* Type *)
  Name : string
}.

Definition zeroOperator : operator := {| Precedence := 0; Type_ := ""; Name := "" |}.

(** [sort.Search(n, f)] of Go's library: the binary search on [0, n). *)
Fixpoint Search_loop (fuel : nat) (i j : nat) (f : nat -> bool) : nat :=
  match fuel with
  | O => i
  | S fuel' =>
      if (i <? j)%nat then
        let h := ((i + j) / 2)%nat in
        if negb (f h) then Search_loop fuel' (h + 1)%nat j f
        else Search_loop fuel' i h f
      else i
  end.

Definition Search (n : nat) (f : nat -> bool) : nat := Search_loop n 0 n f.

Inductive OpLoop :=
| OpReturnK (ops : list operator)      (* return k() inside the loop *)
| OpNext (ops : list operator)         (* the loop is over *)
| OpLoopPanic.

(** The loop [for i, o := range e.operators].  The range is over the slice
    as it was on entry: [left] turns are left and [o] is read at index [i] of
    its array, where the slots that a removal has vacated hold the zero
    value.  A removal at an index that is no longer in the slice panics
    (slice bounds out of range). *)
Fixpoint Op_range (left i : nat) (p : Z) (t n : string) (ops : list operator) : OpLoop :=
  match left with
  | O => OpNext ops
  | S left' =>
      let o := nth i ops zeroOperator in
      if negb (String.eqb (Type_ o) t) || negb (String.eqb (Name o) n) then
        Op_range left' (S i) p t n ops
      else if (i <? length ops)%nat then
        let ops' := take i ops ++ drop (S i) ops in
        if p =? 0 then OpReturnK ops' else Op_range left' (S i) p t n ops'
      else OpLoopPanic
  end.

(** The insertion at the index that [sort.Search] gives. *)
Definition Op_insert (p : Z) (t n : string) (ops : list operator) : list operator :=
  let i := Search (length ops) (fun i => Precedence (nth i ops zeroOperator) >=? p) in
  take i ops ++ {| Precedence := p; Type_ := t; Name := n |} :: drop i ops.

Inductive OpOutcome :=
| OpContinue (ops : list operator)     (* return k(), with the new table *)
| OpError (msg : string)
| OpPanic.

Definition Op (fuel : nat) (precedence typ name : Term) (ops : list operator) (s : Store)
    : option OpOutcome :=
  match Resolve fuel s precedence with
  | None => None
  | Some (Integer p) =>
      match Resolve fuel s typ with
      | None => None
      | Some (Atom t) =>
          match Resolve fuel s name with
          | None => None
          | Some (Atom n) =>
              match Op_range (length ops) 0 p t n ops with
              | OpReturnK ops' => Some (OpContinue ops')
              | OpLoopPanic => Some OpPanic
              | OpNext ops' => Some (OpContinue (Op_insert p t n ops'))
              end
          | Some _ => Some (OpError "invalid name")
          end
      | Some _ => Some (OpError "invalid type")
      end
  | Some _ => Some (OpError "invalid precedence")
  end.

(** *** [Engine.Assertz] *)

(** [%d] of [fmt.Sprintf] for a length. *)
Definition decimal (n : nat) : string := DecimalString.NilZero.string_of_uint (Nat.to_uint n).

(** [nameArgs]: the key ["name/arity"] and the list of the arguments of a
    callable term, or the error "not callable". *)
Definition nameArgs (fuel : nat) (s : Store) (t : Term) : option (option (string * Term)) :=
  match Resolve fuel s t with
  | None => None
  | Some (Atom f) => Some (Some (String.append f "/0", List []))
  | Some (Compound f args) =>
      Some (Some (String.append f (String.append "/" (decimal (length args))), List args))
  | Some _ => Some None
  end.

Section Assertz.

(** The compiled clauses and their compiler belong to the machine; here a
    clause is made for a name ([clause{name: name}]) and [c.compile(t)]
    fills it or fails. *)
Variable clause : Type.
Variable newClause : string -> clause.

Inductive Compiled :=
| CompileOk (c : clause)
| CompileError (msg : string)
| CompilePanic.

Variable compile : clause -> Term -> Store -> option Compiled.

(** A value of the interface [procedure]: the clauses of a user-defined
    procedure, or something else (a built-in predicate). *)
Inductive procedure :=
| clauses (cs : list clause)
| builtin.

Inductive AssertzOutcome :=
| AssertzContinue (procedures : gmap string procedure) (s : Store)  (* return k() *)
| AssertzArrive (name : string) (args : Term) (s : Store)   (* the result of e.arrive(name, args, k) *)
| AssertzError (msg : string) (s : Store)
| AssertzPanic.

(** [var x Variable; args.Unify(Cons(&x, &Variable{}))]: the first argument
    is read through a new variable; the result of [Unify] is dropped. *)
Definition firstArg (fuel : nat) (args : Term) (s : Store) : option (option (nat * Store)) :=
  let (x, s1) := newVariable s in
  let (y, s2) := newVariable s1 in
  match Unify fuel args (Cons (Ref x) (Ref y)) s2 with
  | None => None
  | Some UPanic => Some None
  | Some (U _ s3) => Some (Some (x, s3))
  end.

(** The end of [Assertz], from [p, ok := e.procedures[name]] on. *)
Definition Assertz_store (name : string) (t : Term)
    (procedures : gmap string procedure) (s : Store) : option AssertzOutcome :=
  let p := default (clauses []) (procedures !! name) in
  match p with
  | builtin => Some (AssertzError "builtin" s)
  | clauses cs =>
      match compile (newClause name) t s with
      | None => None
      | Some CompilePanic => Some AssertzPanic
      | Some (CompileError e) => Some (AssertzError e s)
      | Some (CompileOk c) =>
          Some (AssertzContinue (<[name := clauses (cs ++ [c])]> procedures) s)
      end
  end.

Definition Assertz (fuel : nat) (t : Term) (procedures : gmap string procedure)
    (s : Store) : option AssertzOutcome :=
  match nameArgs fuel s t with
  | None => None
  | Some None => Some (AssertzError "not callable" s)
  | Some (Some (name, args)) =>
      if String.eqb name ":-/1" then
        match firstArg fuel args s with
        | None => None
        | Some None => Some AssertzPanic
        | Some (Some (d, s1)) =>
            match nameArgs fuel s1 (Ref d) with
            | None => None
            | Some None => Some (AssertzError "not callable" s1)
            | Some (Some (name', args')) => Some (AssertzArrive name' args' s1)
            end
        end
      else if String.eqb name ":-/2" then
        match firstArg fuel args s with
        | None => None
        | Some None => Some AssertzPanic
        | Some (Some (h, s1)) =>
            match nameArgs fuel s1 (Ref h) with
            | None => None
            | Some None => Some (AssertzError "not callable" s1)
            | Some (Some (name', _)) => Assertz_store name' t procedures s1
            end
        end
      else Assertz_store name t procedures s
  end.

End Assertz.

(** *** Facts on [Functor] *)

Lemma ref_setRef p t s : ref (setRef p t s) p = t.
Proof.
  unfold ref, setRef; destruct t; cbn [cells];
    rewrite ?lookup_delete_eq, ?lookup_insert_eq; reflexivity.
Qed.

Lemma ref_setRef_ne p q t s : p <> q -> ref (setRef p t s) q = ref s q.
Proof.
  intros H. unfold ref, setRef; destruct t; cbn [cells];
    rewrite ?lookup_delete_ne, ?lookup_insert_ne by exact H; reflexivity.
Qed.

Lemma newVariables_spec n : forall s,
  newVariables n s
  = (map Ref (seq (next s) n),
     {| cells := fold_right (fun p c => delete p c) (cells s) (rev (seq (next s) n));
        next := (next s + n)%nat |}).
Proof.
  induction n as [|n IH]; intros s.
  - cbn. destruct s; cbn. rewrite Nat.add_0_r. reflexivity.
  - cbn [newVariables newVariable]. rewrite IH. cbn [next cells seq map].
    cbn [rev]. rewrite fold_right_app. cbn [fold_right].
    f_equal. f_equal. lia.
Qed.

Lemma ref_newVariables n s p :
  ref s p = Nil -> ref (snd (newVariables n s)) p = Nil.
Proof.
  rewrite newVariables_spec. cbn [snd]. unfold ref. cbn [cells].
  generalize (rev (seq (next s) n)). intros l H.
  induction l as [|q l IH]; cbn [fold_right]; [exact H|].
  destruct (decide (q = p)) as [->|Hne].
  - rewrite lookup_delete_eq. reflexivity.
  - rewrite lookup_delete_ne by exact Hne. exact IH.
Qed.

Lemma ref_newVariables_fresh n s p :
  (next s <= p < next s + n)%nat -> ref (snd (newVariables n s)) p = Nil.
Proof.
  rewrite newVariables_spec. cbn [snd]. unfold ref. cbn [cells]. intros H.
  assert (Hin : In p (rev (seq (next s) n))) by (rewrite <- in_rev; apply in_seq; lia).
  revert Hin. generalize (rev (seq (next s) n)). intros l.
  induction l as [|q l IH]; cbn [fold_right]; intros Hin; [destruct Hin|].
  destruct (decide (q = p)) as [->|Hne].
  - rewrite lookup_delete_eq. reflexivity.
  - rewrite lookup_delete_ne by exact Hne. apply IH.
    destruct Hin as [|Hin]; [contradiction|exact Hin].
Qed.

Lemma Unify_unbound_Integer fuel p n s :
  ref s p = Nil -> Unify (S fuel) (Ref p) (Integer n) s = Some (U true (setRef p (Integer n) s)).
Proof. intros H. cbn [Unify]. rewrite H. destruct fuel; reflexivity. Qed.

Lemma Unify_unbound_Compound fuel p f args s :
  ref s p = Nil ->
  Unify (S fuel) (Ref p) (Compound f args) s = Some (U true (setRef p (Compound f args) s)).
Proof. intros H. cbn [Unify]. rewrite H. destruct fuel; reflexivity. Qed.

(** C10.  [Functor] called with an unbound variable as the term, an atom as
    the name and an integer as the arity: for the arity 0 it binds the
    variable to the integer 0, the arity, and not to the name; for an arity
    [N >= 1] it binds the variable to the compound of that name whose [N]
    arguments are new, unbound variables; a negative arity panics.  In the
    two first cases the function returns [k()]. *)
Theorem Functor_of_unbound_variable (fuel : nat) (v : nat) (name : string) (N : Z) (s : Store) :
  ref s v = Nil ->
  (Functor (S fuel) (Ref v) (Atom name) (Integer 0) s
     = Some (Continue (setRef v (Integer 0) s)) /\
   ref (setRef v (Integer 0) s) v = Integer 0 /\
   ref (setRef v (Integer 0) s) v <> Atom name) /\
  (1 <= N ->
   let vars := map Ref (seq (next s) (Z.to_nat N)) in
   let s1 := snd (newVariables (Z.to_nat N) s) in
   Functor (S fuel) (Ref v) (Atom name) (Integer N) s
     = Some (Continue (setRef v (Compound name vars) s1)) /\
   ref (setRef v (Compound name vars) s1) v = Compound name vars /\
   Z.of_nat (length vars) = N /\
   NoDup vars /\
   (forall p, In (Ref p) vars -> p <> v -> ref (setRef v (Compound name vars) s1) p = Nil)) /\
  (N < 0 -> Functor (S fuel) (Ref v) (Atom name) (Integer N) s = Some Panic).
Proof.
  intros Hv. split; [|split].
  - split; [|split].
    + unfold Functor. cbn [Functor_term Functor_name Functor_arity]. rewrite Hv.
      cbn [Z.eqb]. rewrite (Unify_unbound_Integer fuel v 0 s Hv). reflexivity.
    + apply ref_setRef.
    + rewrite ref_setRef. discriminate.
  - intros HN vars s1.
    assert (Hnv : newVariables (Z.to_nat N) s = (vars, s1)).
    { unfold vars, s1. rewrite newVariables_spec. reflexivity. }
    split; [|split; [|split; [|split]]].
    + unfold Functor. cbn [Functor_term Functor_name Functor_arity]. rewrite Hv.
      destruct (Z.eqb_spec N 0) as [|_]; [lia|].
      destruct (Z.ltb_spec N 0) as [|_]; [lia|].
      rewrite Hnv.
      rewrite (Unify_unbound_Compound fuel v name vars s1); [reflexivity|].
      unfold s1. apply ref_newVariables. exact Hv.
    + apply ref_setRef.
    + unfold vars. rewrite length_map, length_seq. lia.
    + unfold vars. apply NoDup_fmap_2; [intros a b H; congruence|]. apply NoDup_seq.
    + intros p Hp Hne. rewrite ref_setRef_ne by congruence.
      unfold s1. apply ref_newVariables_fresh.
      unfold vars in Hp. apply in_map_iff in Hp. destruct Hp as (q & Hq & Hin).
      injection Hq as ->. apply in_seq in Hin. lia.
  - intros HN. unfold Functor. cbn [Functor_term Functor_name Functor_arity]. rewrite Hv.
    destruct (Z.eqb_spec N 0) as [|_]; [lia|].
    destruct (Z.ltb_spec N 0) as [_|]; [reflexivity|lia].
Qed.

Definition emptyStore : Store := {| cells := ∅; next := 1 |}.

Lemma Functor_of_unbound_variable_0 :
  Functor 1 (Ref 0) (Atom "foo") (Integer 0) emptyStore
  = Some (Continue (setRef 0 (Integer 0) emptyStore)) /\
  Functor 1 (Ref 0) (Atom "foo") (Integer 2) emptyStore
  = Some (Continue (setRef 0 (Compound "foo" [Ref 1; Ref 2])
                      (snd (newVariables 2 emptyStore)))).
Proof.
  pose proof (Functor_of_unbound_variable 0 0 "foo" 2 emptyStore eq_refl) as T.
  split.
  - exact (proj1 (proj1 T)).
  - exact (proj1 (proj1 (proj2 T) ltac:(lia))).
Defined.

(** *** Facts on [Engine.Op] *)

(** The table is ordered by priority. *)
Definition prec_le (a b : operator) : Prop := Precedence a <= Precedence b.

(** What [Op] compares to find the entry to replace: the specifier as it is
    written, and the name. *)
Definition key (o : operator) : string * string := (Type_ o, Name o).

Definition matches (t n : string) (o : operator) : bool :=
  String.eqb (Type_ o) t && String.eqb (Name o) n.

Lemma matches_key t n o : matches t n o = true <-> key o = (t, n).
Proof.
  unfold matches, key. rewrite andb_true_iff, !String.eqb_eq.
  split; [intros [-> ->]; reflexivity|intros H; injection H as -> ->; auto].
Qed.

Lemma matches_key_false t n o : matches t n o = false <-> key o <> (t, n).
Proof.
  rewrite <- matches_key. destruct (matches t n o); split; congruence.
Qed.

Lemma Op_range_S left i p t n ops :
  Op_range (S left) i p t n ops =
  if matches t n (nth i ops zeroOperator) then
    if (i <? length ops)%nat then
      if p =? 0 then OpReturnK (take i ops ++ drop (S i) ops)
      else Op_range left (S i) p t n (take i ops ++ drop (S i) ops)
    else OpLoopPanic
  else Op_range left (S i) p t n ops.
Proof.
  cbn [Op_range]. unfold matches. rewrite <- negb_andb.
  destruct (_ && _); reflexivity.
Qed.

Lemma Op_range_nomatch p t n ops : forall left i,
  (forall j, (i <= j < i + left)%nat -> matches t n (nth j ops zeroOperator) = false) ->
  Op_range left i p t n ops = OpNext ops.
Proof.
  induction left as [|left IH]; intros i H; [reflexivity|].
  rewrite Op_range_S, (H i) by lia. apply IH. intros j Hj. apply H. lia.
Qed.

Lemma Op_range_match p t n ops : forall left i i0,
  (i <= i0 < i + left)%nat ->
  (forall j, (i <= j < i0)%nat -> matches t n (nth j ops zeroOperator) = false) ->
  matches t n (nth i0 ops zeroOperator) = true ->
  Op_range left i p t n ops =
  if (i0 <? length ops)%nat then
    if p =? 0 then OpReturnK (take i0 ops ++ drop (S i0) ops)
    else Op_range (left - (i0 - i) - 1) (S i0) p t n (take i0 ops ++ drop (S i0) ops)
  else OpLoopPanic.
Proof.
  induction left as [|left IH]; intros i i0 Hi Hno Hm; [lia|].
  rewrite Op_range_S.
  destruct (decide (i = i0)) as [->|Hne].
  - rewrite Hm. replace (S left - (i0 - i0) - 1)%nat with left by lia. reflexivity.
  - rewrite (Hno i) by lia.
    rewrite (IH (S i) i0) by (try assumption; try lia; intros j Hj; apply Hno; lia).
    replace (S left - (i0 - i) - 1)%nat with (left - (i0 - S i) - 1)%nat by lia.
    reflexivity.
Qed.

(** What the loop of [Op] leaves of a table in which no two entries have the
    same specifier and name. *)
Lemma Op_range_NoDup p t n ops :
  NoDup (key <$> ops) ->
  (Forall (fun o => key o <> (t, n)) ops /\
   Op_range (length ops) 0 p t n ops = OpNext ops) \/
  (exists l1 o l2, ops = l1 ++ o :: l2 /\ key o = (t, n) /\
     (Op_range (length ops) 0 p t n ops = OpLoopPanic \/
      (p = 0 /\ Op_range (length ops) 0 p t n ops = OpReturnK (l1 ++ l2)) \/
      (p <> 0 /\ Op_range (length ops) 0 p t n ops = OpNext (l1 ++ l2)))).
Proof.
  intros Hnd.
  destruct (list_find (fun o => matches t n o = true) ops) as [[i0 o]|] eqn:Hf.
  - right. apply list_find_Some in Hf. destruct Hf as (Hi0 & Hm & Hbefore).
    pose proof (lookup_lt_Some _ _ _ Hi0) as Hlt.
    exists (take i0 ops), o, (drop (S i0) ops).
    split; [symmetry; apply take_drop_middle; exact Hi0|].
    split; [apply matches_key; exact Hm|].
    rewrite (Op_range_match p t n ops (length ops) 0 i0); cycle 1.
    { lia. }
    { intros j Hj. destruct (ops !! j) as [y|] eqn:Hy.
      - rewrite (nth_lookup_Some _ _ _ _ Hy).
        destruct (matches t n y) eqn:E; [|reflexivity].
        exfalso. apply (Hbefore j y Hy); [lia|exact E].
      - apply lookup_ge_None in Hy. lia. }
    { rewrite (nth_lookup_Some _ _ _ _ Hi0). exact Hm. }
    destruct (Nat.ltb_spec i0 (length ops)) as [_|]; [|lia].
    destruct (Z.eqb_spec p 0) as [->|Hp]; [right; left; split; reflexivity|].
    set (ops' := take i0 ops ++ drop (S i0) ops).
    assert (Hlen : length ops' = (length ops - 1)%nat).
    { unfold ops'. rewrite length_app, length_take, length_drop. lia. }
    assert (Hreal : forall j, (S i0 <= j < length ops')%nat ->
              matches t n (nth j ops' zeroOperator) = false).
    { intros j Hj.
      assert (Hj' : ops' !! j = ops !! S j).
      { unfold ops'. rewrite lookup_app_r by (rewrite length_take; lia).
        rewrite length_take, lookup_drop. f_equal. lia. }
      destruct (ops !! S j) as [y|] eqn:Hy; [|apply lookup_ge_None in Hy; lia].
      rewrite (nth_lookup_Some _ _ _ _ Hj').
      destruct (matches t n y) eqn:E; [|reflexivity]. exfalso.
      apply matches_key in E. apply matches_key in Hm.
      assert (i0 = S j); [|lia].
      eapply (NoDup_lookup _ _ _ _ Hnd); rewrite list_lookup_fmap.
      - rewrite Hi0. cbn. rewrite Hm. reflexivity.
      - rewrite Hy. cbn. rewrite E. reflexivity. }
    destruct (matches t n zeroOperator) eqn:Hz.
    + (* the vacated slot is read as an entry of the given specifier and name *)
      destruct (decide (S i0 = length ops)) as [Hlast|Hnl].
      * right. right. split; [exact Hp|].
        replace (length ops - (i0 - 0) - 1)%nat with O by lia. reflexivity.
      * left.
        rewrite (Op_range_match p t n ops' _ (S i0) (length ops')); cycle 1.
        { lia. }
        { intros j Hj. apply Hreal. lia. }
        { rewrite nth_overflow by lia. exact Hz. }
        rewrite Nat.ltb_irrefl. reflexivity.
    + right. right. split; [exact Hp|].
      apply Op_range_nomatch. intros j Hj.
      destruct (Nat.lt_ge_cases j (length ops')) as [Hjl|Hjl].
      * apply Hreal. lia.
      * rewrite nth_overflow by lia. exact Hz.
  - left. apply list_find_None in Hf.
    assert (Hall : Forall (fun o => key o <> (t, n)) ops).
    { eapply Forall_impl; [exact Hf|]. intros o Ho. cbn in Ho.
      apply matches_key_false. destruct (matches t n o); congruence. }
    split; [exact Hall|].
    apply Op_range_nomatch. intros j Hj.
    destruct (ops !! j) as [y|] eqn:Hy; [|apply lookup_ge_None in Hy; lia].
    rewrite (nth_lookup_Some _ _ _ _ Hy). apply matches_key_false.
    rewrite Forall_forall in Hall. apply Hall. eapply list_elem_of_lookup_2; exact Hy.
Qed.

Lemma Search_loop_spec (f : nat -> bool) (n : nat) :
  (forall k k', (k <= k')%nat -> (k' < n)%nat -> f k = true -> f k' = true) ->
  forall fuel i j,
    (j - i <= fuel)%nat -> (i <= j)%nat -> (j <= n)%nat ->
    (forall k, (k < i)%nat -> f k = false) ->
    (forall k, (j <= k)%nat -> (k < n)%nat -> f k = true) ->
    (Search_loop fuel i j f <= n)%nat /\
    (forall k, (k < Search_loop fuel i j f)%nat -> f k = false) /\
    (forall k, (Search_loop fuel i j f <= k)%nat -> (k < n)%nat -> f k = true).
Proof.
  intros Hmono. induction fuel as [|fuel IH]; intros i j Hfuel Hij Hjn Hlo Hhi.
  - cbn. assert (i = j) by lia. subst j. repeat split; auto.
  - cbn [Search_loop]. destruct (Nat.ltb_spec i j) as [Hlt|Hge].
    + pose proof (Nat.div_mod_eq (i + j) 2) as Hd.
      pose proof (Nat.mod_upper_bound (i + j) 2 ltac:(lia)) as Hm.
      set (h := ((i + j) / 2)%nat) in *.
      assert (Hh : (i <= h < j)%nat) by lia.
      destruct (f h) eqn:Efh; cbn [negb].
      * apply IH; try lia; [exact Hlo|].
        intros k Hk Hkn. apply (Hmono h k); [lia|exact Hkn|exact Efh].
      * apply IH; try lia; [|exact Hhi].
        intros k Hk. destruct (f k) eqn:Efk; [|reflexivity].
        rewrite (Hmono k h) in Efh; [discriminate|lia|lia|exact Efk].
    + assert (i = j) by lia. subst j. repeat split; auto.
Qed.

Lemma StronglySorted_lookup ops i j a b :
  StronglySorted prec_le ops -> (i < j)%nat ->
  ops !! i = Some a -> ops !! j = Some b -> Precedence a <= Precedence b.
Proof.
  intros Hs Hij Ha Hb.
  rewrite <- (take_drop j ops) in Hs.
  apply (StronglySorted_app_1_elem_of _ _ _ a b Hs).
  - apply elem_of_take. exists i. split; [exact Ha|exact Hij].
  - eapply list_elem_of_lookup_2. rewrite lookup_drop, Nat.add_0_r. exact Hb.
Qed.

(** The insertion of [Op] keeps the table ordered. *)
Lemma Op_insert_sorted p t n ops :
  StronglySorted prec_le ops -> StronglySorted prec_le (Op_insert p t n ops).
Proof.
  intros Hs. unfold Op_insert.
  set (f := fun i => Precedence (nth i ops zeroOperator) >=? p).
  assert (Hmono : forall k k', (k <= k')%nat -> (k' < length ops)%nat ->
                    f k = true -> f k' = true).
  { intros k k' Hk Hk' Hfk. unfold f in *.
    destruct (decide (k = k')) as [->|Hne]; [exact Hfk|].
    destruct (lookup_lt_is_Some_2 ops k ltac:(lia)) as [a Ha].
    destruct (lookup_lt_is_Some_2 ops k' Hk') as [b Hb].
    rewrite (nth_lookup_Some _ _ _ _ Ha) in Hfk. rewrite (nth_lookup_Some _ _ _ _ Hb).
    pose proof (StronglySorted_lookup ops k k' a b Hs ltac:(lia) Ha Hb).
    apply Z.geb_le. apply Z.geb_le in Hfk. lia. }
  destruct (Search_loop_spec f (length ops) Hmono (length ops) 0 (length ops))
    as (Hr & Hlo & Hhi); try lia; try (intros; lia).
  fold (Search (length ops) f) in Hr, Hlo, Hhi.
  set (r := Search (length ops) f) in *.
  rewrite <- (take_drop r ops) in Hs.
  apply StronglySorted_app in Hs. destruct Hs as (Hcross & Hs1 & Hs2).
  assert (Hbelow : forall x, x ∈ take r ops -> Precedence x < p).
  { intros x Hx. apply elem_of_take in Hx. destruct Hx as (i & Hi & Hir).
    specialize (Hlo i Hir). unfold f in Hlo. rewrite (nth_lookup_Some _ _ _ _ Hi) in Hlo.
    destruct (Z.geb_spec (Precedence x) p); [discriminate|lia]. }
  assert (Habove : forall x, x ∈ drop r ops -> p <= Precedence x).
  { intros x Hx. apply list_elem_of_lookup_1 in Hx. destruct Hx as (i & Hi).
    rewrite lookup_drop in Hi. pose proof (lookup_lt_Some _ _ _ Hi) as Hlt.
    specialize (Hhi (r + i)%nat ltac:(lia) Hlt). unfold f in Hhi.
    rewrite (nth_lookup_Some _ _ _ _ Hi) in Hhi.
    apply Z.geb_le in Hhi. lia. }
  apply StronglySorted_app_2.
  - intros x1 x2 H1 H2. unfold prec_le. apply Hbelow in H1.
    apply elem_of_cons in H2. destruct H2 as [->|H2]; [cbn; lia|].
    apply Habove in H2. lia.
  - exact Hs1.
  - apply StronglySorted_cons. split; [|exact Hs2].
    apply Forall_forall. intros x Hx. unfold prec_le. cbn. apply Habove. exact Hx.
Qed.

Lemma Op_insert_elem p t n ops o :
  o ∈ Op_insert p t n ops <-> o = {| Precedence := p; Type_ := t; Name := n |} \/ o ∈ ops.
Proof.
  unfold Op_insert.
  set (r := Search _ _).
  rewrite elem_of_app, elem_of_cons.
  assert (H : o ∈ ops <-> o ∈ take r ops \/ o ∈ drop r ops)
    by (rewrite <- elem_of_app, take_drop; reflexivity).
  tauto.
Qed.

Lemma Op_insert_NoDup p t n ops :
  NoDup (key <$> ops) -> Forall (fun o => key o <> (t, n)) ops ->
  NoDup (key <$> Op_insert p t n ops).
Proof.
  intros Hnd Hno. unfold Op_insert.
  set (r := Search _ _).
  rewrite <- (take_drop r ops) in Hnd, Hno.
  rewrite fmap_app in Hnd. apply NoDup_app in Hnd. destruct Hnd as (H1 & H12 & H2).
  apply Forall_app in Hno. destruct Hno as [Hno1 Hno2].
  rewrite fmap_app, fmap_cons. apply NoDup_app. split; [exact H1|]. split.
  - intros x Hx Hx'. apply elem_of_cons in Hx'. destruct Hx' as [->|Hx'].
    + apply list_elem_of_fmap in Hx. destruct Hx as (o & Ho & Hin).
      rewrite Forall_forall in Hno1. apply (Hno1 o Hin). symmetry. exact Ho.
    + exact (H12 x Hx Hx').
  - apply NoDup_cons. split; [|exact H2].
    intros Hin. apply list_elem_of_fmap in Hin. destruct Hin as (o & Ho & Hin).
    rewrite Forall_forall in Hno2. apply (Hno2 o Hin). symmetry. exact Ho.
Qed.

(** The removal of one entry. *)
Lemma remove_sorted l1 (o : operator) l2 :
  StronglySorted prec_le (l1 ++ o :: l2) -> StronglySorted prec_le (l1 ++ l2).
Proof.
  intros H. apply StronglySorted_app in H. destruct H as (Hc & H1 & H2).
  apply StronglySorted_cons in H2.
  apply StronglySorted_app_2; [|exact H1|apply H2].
  intros x1 x2 Hx1 Hx2. apply Hc; [exact Hx1|]. apply elem_of_cons. right. exact Hx2.
Qed.

Lemma remove_NoDup l1 (o : operator) l2 :
  NoDup (key <$> (l1 ++ o :: l2)) ->
  NoDup (key <$> (l1 ++ l2)) /\ Forall (fun x => key x <> key o) (l1 ++ l2).
Proof.
  rewrite !fmap_app, fmap_cons. intros H.
  apply NoDup_app in H. destruct H as (H1 & H12 & H2).
  apply NoDup_cons in H2. destruct H2 as [Ho H2]. split.
  - apply NoDup_app. split; [exact H1|]. split; [|exact H2].
    intros x Hx Hx'. apply (H12 x Hx). apply elem_of_cons. right. exact Hx'.
  - apply Forall_app. split; apply Forall_forall; intros x Hx Heq.
    + apply (H12 (key o)).
      * rewrite <- Heq. apply list_elem_of_fmap. exists x. auto.
      * apply elem_of_cons. left. reflexivity.
    + apply Ho. rewrite <- Heq. apply list_elem_of_fmap. exists x. auto.
Qed.

(** C7 (amended).  In the operator table the pair of a specifier, as it is
    written, and a name is unique: on a table that is ordered by priority and
    holds no two entries of the same specifier and name, a call of op/3 that
    succeeds leaves such a table; the entries of other specifiers or names
    are kept; an entry of the declared specifier and name is removed, and the
    declared operator takes its place, at its rank in the order, unless the
    new priority is 0, in which case the entry is removed and nothing is put
    in. *)
Theorem Op_replaces (fuel : nat) (precedence typ name : Term)
    (ops ops' : list operator) (s : Store) :
  StronglySorted prec_le ops ->
  NoDup (key <$> ops) ->
  Op fuel precedence typ name ops s = Some (OpContinue ops') ->
  exists p t n,
    Resolve fuel s precedence = Some (Integer p) /\
    Resolve fuel s typ = Some (Atom t) /\
    Resolve fuel s name = Some (Atom n) /\
    StronglySorted prec_le ops' /\
    NoDup (key <$> ops') /\
    (forall o, key o <> (t, n) -> (o ∈ ops' <-> o ∈ ops)) /\
    (forall o, o ∈ ops' -> key o = (t, n) ->
       o = {| Precedence := p; Type_ := t; Name := n |}) /\
    ({| Precedence := p; Type_ := t; Name := n |} ∈ ops' <->
       ~ (p = 0 /\ (t, n) ∈ key <$> ops)).
Proof.
  intros Hs Hnd H. unfold Op in H.
  destruct (Resolve fuel s precedence) as [[| |p| | |]|] eqn:E1; try discriminate.
  destruct (Resolve fuel s typ) as [[|t| | | |]|] eqn:E2; try discriminate.
  destruct (Resolve fuel s name) as [[|n| | | |]|] eqn:E3; try discriminate.
  exists p, t, n. do 3 (split; [reflexivity|]).
  set (new := {| Precedence := p; Type_ := t; Name := n |}).
  assert (Hknew : key new = (t, n)) by reflexivity.
  destruct (Op_range_NoDup p t n ops Hnd)
    as [[Hno Hr]|(l1 & o & l2 & -> & Hko & [Hr|[[-> Hr]|[Hp Hr]]])];
    rewrite Hr in H; try discriminate; injection H as <-.
  - (* no entry of the specifier and name: the operator is inserted *)
    split; [apply Op_insert_sorted; exact Hs|].
    split; [apply Op_insert_NoDup; assumption|].
    split; [|split].
    + intros o Ho. rewrite Op_insert_elem. split; [|auto].
      intros [->|Hin]; [contradiction|exact Hin].
    + intros o Hin Hk. apply Op_insert_elem in Hin. destruct Hin as [->|Hin]; [reflexivity|].
      rewrite Forall_forall in Hno. exfalso. exact (Hno o Hin Hk).
    + split.
      * intros _ [_ Hin]. apply list_elem_of_fmap in Hin. destruct Hin as (o & Ho & Hin).
        rewrite Forall_forall in Hno. apply (Hno o Hin). symmetry. exact Ho.
      * intros _. apply Op_insert_elem. left. reflexivity.
  - (* priority 0: the entry is removed *)
    destruct (remove_NoDup l1 o l2 Hnd) as [Hnd' Hno']. rewrite Hko in Hno'.
    split; [eapply remove_sorted; exact Hs|].
    split; [exact Hnd'|].
    split; [|split].
    + intros x Hx. rewrite !elem_of_app, elem_of_cons. split; [tauto|].
      intros [H1|[->|H2]]; [auto|contradiction|auto].
    + intros x Hin Hk. rewrite Forall_forall in Hno'. exfalso. exact (Hno' x Hin Hk).
    + split.
      * intros Hin. rewrite Forall_forall in Hno'. exfalso. exact (Hno' new Hin Hknew).
      * intros Hn. exfalso. apply Hn. split; [reflexivity|].
        apply list_elem_of_fmap. exists o. split; [symmetry; exact Hko|].
        apply elem_of_app. right. apply elem_of_cons. left. reflexivity.
  - (* the entry is removed and the operator is inserted at its rank *)
    destruct (remove_NoDup l1 o l2 Hnd) as [Hnd' Hno']. rewrite Hko in Hno'.
    split; [apply Op_insert_sorted; eapply remove_sorted; exact Hs|].
    split; [apply Op_insert_NoDup; assumption|].
    split; [|split].
    + intros x Hx. rewrite Op_insert_elem, !elem_of_app, elem_of_cons. split.
      * intros [->|[H1|H2]]; [contradiction|auto|auto].
      * intros [H1|[->|H2]]; [auto|contradiction|auto].
    + intros x Hin Hk. apply Op_insert_elem in Hin. destruct Hin as [->|Hin]; [reflexivity|].
      rewrite Forall_forall in Hno'. exfalso. exact (Hno' x Hin Hk).
    + split.
      * intros _ [Hp0 _]. contradiction.
      * intros _. apply Op_insert_elem. left. reflexivity.
Qed.

Definition op700 (t : string) : operator := {| Precedence := 700; Type_ := t; Name := "=" |}.

Lemma Op_replaces_example :
  exists p t n,
    Resolve 0 emptyStore (Integer 200) = Some (Integer p) /\
    Resolve 0 emptyStore (Atom "xfx") = Some (Atom t) /\
    Resolve 0 emptyStore (Atom "=") = Some (Atom n) /\
    StronglySorted prec_le [ {| Precedence := 200; Type_ := "xfx"; Name := "=" |} ] /\
    NoDup (key <$> [ {| Precedence := 200; Type_ := "xfx"; Name := "=" |} ]) /\
    (forall o, key o <> (t, n) ->
       (o ∈ [ {| Precedence := 200; Type_ := "xfx"; Name := "=" |} ] <-> o ∈ [op700 "xfx"])) /\
    (forall o, o ∈ [ {| Precedence := 200; Type_ := "xfx"; Name := "=" |} ] -> key o = (t, n) ->
       o = {| Precedence := p; Type_ := t; Name := n |}) /\
    ({| Precedence := p; Type_ := t; Name := n |}
       ∈ [ {| Precedence := 200; Type_ := "xfx"; Name := "=" |} ] <->
       ~ (p = 0 /\ (t, n) ∈ key <$> [op700 "xfx"])).
Proof.
  apply (Op_replaces 0 (Integer 200) (Atom "xfx") (Atom "=") [op700 "xfx"] _ emptyStore).
  - repeat constructor.
  - apply NoDup_singleton.
  - reflexivity.
Defined.

(** The classes of the specifiers, as the claim has them. *)
Inductive specifierClass := prefixClass | infixClass | postfixClass.

Definition classOf (t : string) : option specifierClass :=
  if String.eqb t "fx" || String.eqb t "fy" then Some prefixClass
  else if String.eqb t "xf" || String.eqb t "yf" then Some postfixClass
  else if String.eqb t "xfx" || String.eqb t "xfy" || String.eqb t "yfx" then Some infixClass
  else None.

(** After [op(700, xfx, =)], the call [op(700, xfy, =)] leaves two infix
    entries of the name [=]. *)
Lemma Op_keeps_other_specifier_of_class :
  Op 0 (Integer 700) (Atom "xfy") (Atom "=") [op700 "xfx"] emptyStore
  = Some (OpContinue [op700 "xfy"; op700 "xfx"]) /\
  classOf (Type_ (op700 "xfy")) = classOf (Type_ (op700 "xfx")) /\
  Name (op700 "xfy") = Name (op700 "xfx") /\
  op700 "xfy" <> op700 "xfx".
Proof. repeat split; try reflexivity. discriminate. Qed.

(** *** Facts on [Univ] *)

(** A result found with some fuel is found with more. *)
Definition le_fuel {A} (x y : option A) : Prop := forall r, x = Some r -> y = Some r.

Lemma walk_mono n m s t : (n <= m)%nat -> le_fuel (walk n s t) (walk m s t).
Proof.
  revert m t. induction n as [|n IH]; intros m t Hle r H.
  - destruct t as [|a|z|f|p|f args]; try (destruct m; exact H).
    cbn [walk] in H. destruct (ref s p) eqn:Ep; try discriminate.
    destruct m; cbn [walk]; rewrite Ep; exact H.
  - destruct m as [|m]; [lia|].
    destruct t as [|a|z|f|p|f args]; cbn [walk] in *; try exact H.
    destruct (ref s p); try exact H; (apply IH; [lia|exact H]).
Qed.

Lemma cells_unify_args_mono (u u' : Term -> Term -> Store -> option Unified) :
  (forall c t s, le_fuel (u c t s) (u' c t s)) ->
  forall cs ts s, le_fuel (unify_args u cs ts s) (unify_args u' cs ts s).
Proof.
  intros Hu cs. induction cs as [|c cs IH]; intros ts s r H; [exact H|].
  destruct ts as [|t ts]; [exact H|]. cbn [unify_args] in *.
  destruct (u c t s) as [[[|] s1|]|] eqn:E; try discriminate; rewrite (Hu _ _ _ _ E).
  - apply IH. exact H.
  - exact H.
  - exact H.
Qed.

Lemma cells_Unify_mono n m x t s : (n <= m)%nat -> le_fuel (Unify n x t s) (Unify m x t s).
Proof.
  revert m x t s. induction n as [|n IH]; intros m x t s Hle r H; [discriminate|].
  destruct m as [|m]; [lia|].
  assert (Hn : (n <= m)%nat) by lia.
  assert (HU : forall c u e, le_fuel (Unify n c u e) (Unify m c u e))
    by (intros; apply IH; exact Hn).
  destruct x as [|a|z|f|p|f args]; cbn [Unify] in *.
  - exact H.
  - destruct t; try exact H. apply HU; exact H.
  - destruct t; try exact H. apply HU; exact H.
  - destruct t; try exact H. apply HU; exact H.
  - destruct (ref s p) eqn:Ep; try (apply HU; exact H).
    destruct (walk n s t) as [t'|] eqn:Ew; [|discriminate].
    rewrite (walk_mono n m s t Hn _ Ew). exact H.
  - destruct t; try exact H; [apply HU; exact H|].
    destruct (negb _); [exact H|]. destruct (negb _); [exact H|].
    eapply cells_unify_args_mono; [exact HU|exact H].
Qed.

(** A term that is neither nil nor a variable. *)
Definition isValue (r : Term) : bool :=
  match r with
  | Nil | Ref _ => false
  | _ => true
  end.

(** No cell is bound beyond the allocated ones. *)
Definition wfStore (s : Store) : Prop := forall p, (next s <= p)%nat -> ref s p = Nil.

(** [s'] has the bound cells of [s]. *)
Definition extends (s s' : Store) : Prop :=
  (next s <= next s')%nat /\ forall p, ref s p <> Nil -> ref s' p = ref s p.

Lemma extends_refl s : extends s s.
Proof. split; [lia|auto]. Qed.

Lemma extends_trans s1 s2 s3 : extends s1 s2 -> extends s2 s3 -> extends s1 s3.
Proof.
  intros [H1 H1'] [H2 H2']. split; [lia|]. intros p Hp.
  rewrite H2', H1'; auto. rewrite H1'; auto.
Qed.

(** [s'] has the allocated cells of [s] as they are in [s]. *)
Definition frame (s s' : Store) : Prop := forall p, (p < next s)%nat -> ref s' p = ref s p.

Lemma frame_trans s1 s2 s3 :
  (next s1 <= next s2)%nat -> frame s1 s2 -> frame s2 s3 -> frame s1 s3.
Proof. intros Hn H1 H2 p Hp. rewrite H2 by lia. apply H1. exact Hp. Qed.

(** The end of a chain of bound variables: a term that is not the nil
    interface value, and when it is a variable, an unbound one that has been
    allocated. *)
Definition endOf (s : Store) (v : Term) : Prop :=
  match v with
  | Nil => False
  | Ref q => (q < next s)%nat
  | _ => True
  end.

(** [a], followed through the variables that are bound, is [v]. *)
Definition derefs (s : Store) (a v : Term) : Prop :=
  exists n, walk n s a = Some v /\ endOf s v.

Lemma walk_same s s' : (forall p, ref s' p = ref s p) ->
  forall n a, walk n s' a = walk n s a.
Proof.
  intros H. induction n as [|n IH]; intros a; destruct a as [|x|z|f|p|f args];
    cbn [walk]; try reflexivity; rewrite H; [reflexivity|].
  destruct (ref s p); try reflexivity; apply IH.
Qed.

Lemma walk_frame s s' : wfStore s -> frame s s' ->
  forall n a v, walk n s a = Some v -> endOf s v -> walk n s' a = Some v.
Proof.
  intros Hwf Hfr. induction n as [|n IH]; intros a v H Hv;
    destruct a as [|x|z|f|p|f args]; cbn [walk] in *; try exact H.
  - destruct (ref s p) eqn:Ep; try discriminate H. injection H as <-.
    cbn [endOf] in Hv. rewrite (Hfr p Hv), Ep. reflexivity.
  - assert (Hp : ref s p <> Nil -> ref s' p = ref s p).
    { intros Hb. apply Hfr. destruct (Nat.lt_ge_cases p (next s)) as [Hlt|Hge]; [exact Hlt|].
      destruct (Hb (Hwf p Hge)). }
    destruct (ref s p) eqn:Ep;
      try (rewrite Hp by discriminate; apply IH; assumption).
    injection H as <-. cbn [endOf] in Hv. rewrite (Hfr p Hv), Ep. reflexivity.
Qed.

Lemma derefs_frame s s' a v :
  wfStore s -> frame s s' -> (next s <= next s')%nat -> derefs s a v -> derefs s' a v.
Proof.
  intros Hwf Hfr Hn (n & Hw & Hv). exists n.
  split; [apply (walk_frame s s' Hwf Hfr n a v Hw Hv)|].
  destruct v; cbn [endOf] in *; try exact Hv. lia.
Qed.

Lemma derefs_unbound s a v :
  (forall p, a = Ref p -> ref s p = Nil) -> derefs s a v -> v = a.
Proof.
  intros Ha (n & Hw & Hv). destruct a as [|x|z|f|p|f args];
    try (destruct n; cbn [walk] in Hw; congruence).
  destruct n; cbn [walk] in Hw; rewrite (Ha p eq_refl) in Hw; congruence.
Qed.

Lemma newVariable_spec s : wfStore s ->
  fst (newVariable s) = next s /\
  next (snd (newVariable s)) = S (next s) /\
  (forall p, ref (snd (newVariable s)) p = ref s p) /\
  wfStore (snd (newVariable s)).
Proof.
  intros Hwf. cbn [newVariable fst snd next].
  assert (Href : forall p, ref {| cells := delete (next s) (cells s); next := S (next s) |} p
                           = ref s p).
  { intros p. unfold ref at 1. cbn [cells].
    destruct (decide (next s = p)) as [<-|Hne].
    - rewrite lookup_delete_eq. cbn. symmetry. apply Hwf. lia.
    - rewrite lookup_delete_ne by exact Hne. reflexivity. }
  repeat split; [exact Href|].
  intros p Hp. rewrite Href. apply Hwf. cbn [next] in Hp. lia.
Qed.

Lemma setRef_wf p t s : wfStore s -> (p < next s)%nat -> wfStore (setRef p t s).
Proof.
  intros Hwf Hp q Hq. assert (next (setRef p t s) = next s) as Hn by (destruct t; reflexivity).
  rewrite Hn in Hq. rewrite ref_setRef_ne by lia. apply Hwf. exact Hq.
Qed.

Lemma setRef_extends p t s : ref s p = Nil -> extends s (setRef p t s).
Proof.
  intros Hp. split; [destruct t; cbn; lia|].
  intros q Hq. apply ref_setRef_ne. intros ->. contradiction.
Qed.

Lemma next_setRef p t s : next (setRef p t s) = next s.
Proof. destruct t; reflexivity. Qed.

(** A bound variable hands over to what it is bound to. *)
Lemma Unify_bound n p t s :
  ref s p <> Nil -> Unify (S n) (Ref p) t s = Unify n (ref s p) t s.
Proof. intros H. cbn [Unify]. destruct (ref s p); [contradiction|reflexivity..]. Qed.

(** An unbound variable met by a term that is bound to a value takes that
    value. *)
Lemma Unify_value_fresh s c r : ref s c = Nil -> isValue r = true ->
  forall n a, walk n s a = Some r ->
  Unify (S (S n)) a (Ref c) s = Some (U true (setRef c r s)).
Proof.
  intros Hc Hv. induction n as [|n IH]; intros a Hw.
  - destruct a as [|x|z|f|p|f args]; cbn [walk] in Hw.
    + injection Hw as <-. discriminate.
    + injection Hw as <-. cbn [Nat.add Unify walk]. rewrite Hc. reflexivity.
    + injection Hw as <-. cbn [Nat.add Unify walk]. rewrite Hc. reflexivity.
    + injection Hw as <-. cbn [Nat.add Unify walk]. rewrite Hc. reflexivity.
    + destruct (ref s p); try discriminate. injection Hw as <-. discriminate.
    + injection Hw as <-. cbn [Nat.add Unify walk]. rewrite Hc. reflexivity.
  - destruct a as [|x|z|f|p|f args]; cbn [walk] in Hw.
    + injection Hw as <-. discriminate.
    + injection Hw as <-. cbn [Nat.add Unify walk]. rewrite Hc. reflexivity.
    + injection Hw as <-. cbn [Nat.add Unify walk]. rewrite Hc. reflexivity.
    + injection Hw as <-. cbn [Nat.add Unify walk]. rewrite Hc. reflexivity.
    + destruct (ref s p) eqn:Ep;
        try (rewrite Unify_bound by (rewrite Ep; discriminate); rewrite Ep;
             apply IH; exact Hw).
      injection Hw as <-. discriminate.
    + injection Hw as <-. cbn [Nat.add Unify walk]. rewrite Hc. reflexivity.
Qed.

(** A new, unbound variable met by a term takes what the term is, followed
    through the variables that are bound: a term, or the unbound variable at
    the end. *)
Lemma Unify_deref_fresh s c v : ref s c = Nil -> v <> Nil -> v <> Ref c ->
  forall n a, walk n s a = Some v ->
  Unify (S (S n)) a (Ref c) s = Some (U true (setRef c v s)).
Proof.
  intros Hc Hn Hnc.
  assert (Hvar : forall m p, ref s p = Nil -> Ref p = v ->
            Unify (S (S m)) (Ref p) (Ref c) s = Some (U true (setRef c v s))).
  { intros m p Ep <-. cbn [Unify]. rewrite Ep. cbn [walk]. rewrite Hc.
    destruct (Nat.eqb_spec p c) as [->|_]; [contradiction|reflexivity]. }
  induction n as [|n IH]; intros a Hw.
  - destruct a as [|x|z|f|p|f args]; cbn [walk] in Hw.
    + injection Hw as <-. contradiction.
    + injection Hw as <-. cbn [Unify walk]. rewrite Hc. reflexivity.
    + injection Hw as <-. cbn [Unify walk]. rewrite Hc. reflexivity.
    + injection Hw as <-. cbn [Unify walk]. rewrite Hc. reflexivity.
    + destruct (ref s p) eqn:Ep; try discriminate Hw. injection Hw as Hw.
      apply Hvar; assumption.
    + injection Hw as <-. cbn [Unify walk]. rewrite Hc. reflexivity.
  - destruct a as [|x|z|f|p|f args]; cbn [walk] in Hw.
    + injection Hw as <-. contradiction.
    + injection Hw as <-. cbn [Unify walk]. rewrite Hc. reflexivity.
    + injection Hw as <-. cbn [Unify walk]. rewrite Hc. reflexivity.
    + injection Hw as <-. cbn [Unify walk]. rewrite Hc. reflexivity.
    + destruct (ref s p) eqn:Ep;
        try (rewrite Unify_bound by (rewrite Ep; discriminate); rewrite Ep;
             apply IH; exact Hw).
      injection Hw as Hw. apply Hvar; assumption.
    + injection Hw as <-. cbn [Unify walk]. rewrite Hc. reflexivity.
Qed.

Lemma newVariable_extends s : wfStore s -> extends s (snd (newVariable s)).
Proof.
  intros Hwf. destruct (newVariable_spec s Hwf) as (_ & Hn & Href & _).
  split; [lia|]. intros p _. apply Href.
Qed.

(** Two lists unify when their heads and then their tails do. *)
Lemma Unify_Cons fuel a b x y s s1 s2 :
  Unify fuel a x s = Some (U true s1) ->
  Unify fuel b y s1 = Some (U true s2) ->
  Unify (S fuel) (Cons a b) (Cons x y) s = Some (U true s2).
Proof.
  intros H1 H2. unfold Cons. cbn [Unify]. cbn [String.eqb Ascii.eqb Bool.eqb negb length Nat.eqb].
  cbn [unify_args]. rewrite H1, H2. reflexivity.
Qed.

Lemma Unify_Cons_eq n a b x y s :
  Unify (S n) (Cons a b) (Cons x y) s = unify_args (Unify n) [a; b] [x; y] s.
Proof. reflexivity. Qed.

(** One turn of the loop that collects the arguments. *)
Lemma Univ_args_step fuel a rest acc s s3 :
  Unify fuel (Cons a rest) (Cons (Ref (next s)) (Ref (S (next s))))
    (snd (newVariable (snd (newVariable s)))) = Some (U true s3) ->
  Univ_args (S fuel) (Cons a rest) acc s
  = Univ_args fuel (ref s3 (S (next s))) (acc ++ [ref s3 (next s)]) s3.
Proof.
  intros H. cbn [Univ_args Cons isEmptyList newVariable next snd] in *.
  rewrite H. reflexivity.
Qed.

Lemma isValue_List ts : isValue (List ts) = true.
Proof. destruct ts; reflexivity. Qed.

(** A list and a pair of new variables: the first takes the head, followed
    through the variables that are bound, the second the tail. *)
Lemma Unify_List_fresh s a r rest : wfStore s -> derefs s a r ->
  exists m s3, forall fuel, (m <= fuel)%nat ->
    Unify fuel (Cons a (List rest)) (Cons (Ref (next s)) (Ref (S (next s))))
      (snd (newVariable (snd (newVariable s)))) = Some (U true s3) /\
    ref s3 (next s) = r /\ ref s3 (S (next s)) = List rest /\
    wfStore s3 /\ extends s s3 /\ frame s s3.
Proof.
  intros Hwf (k & Hw & Hend).
  destruct (newVariable_spec s Hwf) as (_ & Hn1 & Hr1 & Hwf1).
  destruct (newVariable_spec _ Hwf1) as (_ & Hn2 & Hr2 & Hwf2).
  set (s2 := snd (newVariable (snd (newVariable s)))) in *.
  assert (Hsame : forall p, ref s2 p = ref s p) by (intros p; rewrite Hr2, Hr1; reflexivity).
  assert (He2 : extends s s2).
  { eapply extends_trans; [apply newVariable_extends; exact Hwf|].
    apply newVariable_extends; exact Hwf1. }
  assert (Hc : ref s2 (next s) = Nil) by (rewrite Hsame; apply Hwf; lia).
  assert (Hd : ref s2 (S (next s)) = Nil) by (rewrite Hsame; apply Hwf; lia).
  assert (Hrn : r <> Nil) by (intros ->; exact Hend).
  assert (Hrc : r <> Ref (next s)) by (intros ->; cbn [endOf] in Hend; lia).
  assert (Hw2 : walk k s2 a = Some r) by (rewrite (walk_same s s2 Hsame); exact Hw).
  pose proof (Unify_deref_fresh s2 (next s) r Hc Hrn Hrc k a Hw2) as Hm.
  set (s3 := setRef (next s) r s2).
  assert (Hd3 : ref s3 (S (next s)) = Nil)
    by (unfold s3; rewrite ref_setRef_ne by lia; exact Hd).
  exists (S (S (S k))), (setRef (S (next s)) (List rest) s3).
  intros fuel Hf. destruct fuel as [|fuel]; [lia|].
  split; [|split; [|split; [|split; [|split]]]].
  - apply (Unify_Cons fuel a (List rest) _ _ s2 s3).
    + apply (cells_Unify_mono (S (S k))); [lia|exact Hm].
    + apply (cells_Unify_mono 2); [lia|].
      apply (Unify_value_fresh s3 (S (next s)) (List rest) Hd3 (isValue_List rest) 0).
      destruct rest; reflexivity.
  - rewrite ref_setRef_ne by lia. unfold s3. apply ref_setRef.
  - rewrite ref_setRef. destruct rest; reflexivity.
  - apply setRef_wf; [apply setRef_wf; [exact Hwf2|lia]|].
    unfold s3. rewrite next_setRef. lia.
  - eapply extends_trans; [exact He2|].
    eapply extends_trans; apply setRef_extends; assumption.
  - intros p Hp. rewrite ref_setRef_ne by lia. unfold s3.
    rewrite ref_setRef_ne by lia. apply Hsame.
Qed.

(** The loop that collects the arguments: it returns the elements of the
    list, each followed through the variables that are bound, in the order of
    the list. *)
Lemma Univ_args_List args : forall vals acc s,
  wfStore s -> Forall2 (derefs s) args vals ->
  exists m s', forall fuel, (m <= fuel)%nat ->
    Univ_args fuel (List args) acc s = Some (ArgsDone (acc ++ vals) s') /\
    wfStore s' /\ extends s s' /\ frame s s'.
Proof.
  induction args as [|a args IH]; intros vals acc s Hwf Hvals.
  - apply Forall2_nil_inv_l in Hvals as ->. exists 0%nat, s. intros fuel _.
    rewrite app_nil_r. split; [destruct fuel; reflexivity|].
    split; [exact Hwf|]. split; [apply extends_refl|intros p _; reflexivity].
  - apply Forall2_cons_inv_l in Hvals as (r & vals' & Ha & Hvals' & ->).
    destruct (Unify_List_fresh s a r args Hwf Ha) as (m1 & s3 & H3).
    destruct (H3 m1 (le_n _)) as (_ & Hcar & Hcdr & Hwf3 & He3 & Hf3).
    assert (Hvals3 : Forall2 (derefs s3) args vals').
    { eapply Forall2_impl; [exact Hvals'|]. intros x y.
      apply derefs_frame; [exact Hwf|exact Hf3|apply He3]. }
    destruct (IH vals' (acc ++ [r]) s3 Hwf3 Hvals3) as (m2 & s' & H').
    exists (S (m1 + m2)), s'. intros fuel Hf. destruct fuel as [|fuel]; [lia|].
    destruct (H3 fuel ltac:(lia)) as (HU & _).
    change (List (a :: args)) with (Cons a (List args)).
    rewrite (Univ_args_step fuel a (List args) acc s s3 HU), Hcar, Hcdr.
    destruct (H' fuel ltac:(lia)) as (HA & Hwf' & He' & Hf').
    rewrite HA, <- app_assoc. split; [reflexivity|].
    split; [exact Hwf'|]. split; [eapply extends_trans; eassumption|].
    eapply frame_trans; [apply He3|eassumption..].
Qed.

Lemma Univ_term_mono n m s t : (n <= m)%nat -> le_fuel (Univ_term n s t) (Univ_term m s t).
Proof.
  revert m t. induction n as [|n IH]; intros m t Hle r H.
  - destruct t as [|a|z|f|p|f args]; try (destruct m; exact H).
    cbn [Univ_term] in H. destruct (ref s p) eqn:Ep; try discriminate.
    destruct m; cbn [Univ_term]; rewrite Ep; exact H.
  - destruct m as [|m]; [lia|].
    destruct t as [|a|z|f|p|f args]; cbn [Univ_term] in *; try exact H.
    destruct (ref s p); try exact H; (apply IH; [lia|exact H]).
Qed.

(** The lists of two argument vectors unify as the vectors do, pair by
    pair. *)
Lemma Unify_List_of_args n : forall args sargs s s',
  length args = length sargs ->
  unify_args (Unify n) args sargs s = Some (U true s') ->
  Unify (S (n + length args)) (List args) (List sargs) s = Some (U true s').
Proof.
  induction args as [|a args IH]; intros sargs s s' Hlen H;
    destruct sargs as [|b sargs]; try discriminate Hlen.
  - cbn [unify_args] in H. injection H as <-. reflexivity.
  - cbn [unify_args] in H. cbn [length] in Hlen.
    destruct (Unify n a b s) as [[[|] s2|]|] eqn:E; try discriminate H.
    change (List (a :: args)) with (Cons a (List args)).
    change (List (b :: sargs)) with (Cons b (List sargs)).
    apply (Unify_Cons _ _ _ _ _ s s2).
    + apply (cells_Unify_mono n); [cbn [length]; lia|exact E].
    + apply (cells_Unify_mono (S (n + length args))); [cbn [length]; lia|].
      apply IH; [lia|exact H].
Qed.

Lemma args_of_Unify_List : forall args n sargs s s',
  Unify n (List args) (List sargs) s = Some (U true s') ->
  length args = length sargs /\
  unify_args (Unify n) args sargs s = Some (U true s').
Proof.
  induction args as [|a args IH]; intros n sargs s s' H;
    (destruct n as [|n]; [discriminate H|]); destruct sargs as [|b sargs];
    try discriminate H.
  - injection H as <-. split; reflexivity.
  - change (List (a :: args)) with (Cons a (List args)) in H.
    change (List (b :: sargs)) with (Cons b (List sargs)) in H.
    unfold Cons in H. cbn [Unify] in H.
    cbn [String.eqb Ascii.eqb Bool.eqb negb length Nat.eqb unify_args] in H.
    destruct (Unify n a b s) as [[[|] s2|]|] eqn:E; try discriminate H.
    destruct (Unify n (List args) (List sargs) s2) as [[[|] s3|]|] eqn:E2;
      try discriminate H.
    injection H as <-.
    destruct (IH n sargs s2 s3 E2) as (Hlen & Hargs).
    split; [cbn [length]; lia|]. cbn [unify_args].
    rewrite (cells_Unify_mono n (S n) a b s ltac:(lia) _ E).
    eapply cells_unify_args_mono; [|exact Hargs].
    intros c t e. apply cells_Unify_mono. lia.
Qed.

(** The list of a compound: its functor, then its arguments. *)
Definition univList (f : string) (args : list Term) : Term := Cons (Atom f) (List args).

Lemma Unify_unbound_value fuel v r s :
  ref s v = Nil -> isValue r = true ->
  Unify (S fuel) (Ref v) r s = Some (U true (setRef v r s)).
Proof.
  intros Hv Hr. cbn [Unify]. rewrite Hv.
  destruct r; try discriminate Hr; destruct fuel; reflexivity.
Qed.

(** From a compound to its list. *)
Lemma Univ_compound k t l f args s :
  ref s l = Nil -> Univ_term k s t = Some (UnivCompound f args) ->
  forall fuel, (S k <= fuel)%nat ->
  Univ fuel t (Ref l) s = Some (Continue (setRef l (univList f args) s)).
Proof.
  intros Hl Ht fuel Hf. unfold Univ.
  rewrite (Univ_term_mono k fuel s t ltac:(lia) _ Ht).
  destruct fuel as [|fuel]; [lia|].
  change (Cons (Atom f) (List args)) with (univList f args).
  rewrite Unify_unbound_value by (exact Hl || reflexivity). reflexivity.
Qed.

(** From the list to a new compound, through an unbound variable. *)
Lemma Univ_variable sv l f args vals s1 :
  wfStore s1 -> (sv < next s1)%nat -> ref s1 sv = Nil ->
  ref s1 l = univList f args -> Forall2 (derefs s1) args vals ->
  exists m s2, forall fuel, (m <= fuel)%nat ->
    Univ fuel (Ref sv) (Ref l) s1 = Some (Continue s2) /\
    ref s2 sv = Compound f vals /\ frame s1 (setRef sv Nil s2).
Proof.
  intros Hwf Hsv Hunb Hl Hvals.
  assert (Hf : derefs s1 (Atom f) (Atom f)) by (exists 0%nat; split; [reflexivity|exact I]).
  destruct (Unify_List_fresh s1 (Atom f) (Atom f) args Hwf Hf) as (m1 & s3 & H3).
  destruct (H3 m1 (le_n _)) as (_ & Hcar & Hcdr & Hwf3 & He3 & Hf3).
  assert (Hvals3 : Forall2 (derefs s3) args vals).
  { eapply Forall2_impl; [exact Hvals|]. intros x y.
    apply derefs_frame; [exact Hwf|exact Hf3|apply He3]. }
  destruct (Univ_args_List args vals [] s3 Hwf3 Hvals3) as (m2 & s5 & H5).
  destruct (H5 m2 (le_n _)) as (_ & Hwf5 & He5 & Hf5).
  assert (Hfr : frame s1 s5) by (eapply frame_trans; [apply He3|eassumption..]).
  exists (S (S (m1 + m2))), (setRef sv (Compound f vals) s5).
  intros fuel Hfuel. destruct fuel as [|fuel]; [lia|].
  split; [|split].
  - unfold Univ. cbn [Univ_term]. rewrite Hunb.
    cbn [newVariable next].
    destruct (newVariable_spec s1 Hwf) as (_ & _ & Hr1 & Hwf1).
    destruct (newVariable_spec _ Hwf1) as (_ & _ & Hr2 & _).
    cbn [newVariable next snd] in Hr1, Hr2.
    rewrite Unify_bound by (rewrite Hr2, Hr1, Hl; discriminate).
    rewrite Hr2, Hr1, Hl. unfold univList.
    destruct (H3 fuel ltac:(lia)) as (HU & _).
    cbn [newVariable next snd] in HU. rewrite HU.
    assert (HF : Univ_functor (S fuel) (next s1) s3 = Some (Some f, s3))
      by (cbn [Univ_functor]; rewrite Hcar; reflexivity).
    rewrite HF, Hcdr.
    destruct (H5 (S fuel) ltac:(lia)) as (HA & _). rewrite HA. cbn [app].
    rewrite Unify_unbound_value; [reflexivity| |reflexivity].
    rewrite Hfr by exact Hsv. exact Hunb.
  - apply ref_setRef.
  - intros p Hp. destruct (decide (sv = p)) as [<-|Hne].
    + rewrite ref_setRef. symmetry. exact Hunb.
    + rewrite ref_setRef_ne by exact Hne. rewrite ref_setRef_ne by exact Hne.
      apply Hfr. exact Hp.
Qed.

(** From the list to a compound that is there already: the call is the
    unification of the two compounds. *)
Lemma Univ_unifies l f args g sargs s1 s2 :
  ref s1 l = univList f args ->
  (exists fuel, Univ fuel (Compound g sargs) (Ref l) s1 = Some (Continue s2)) <->
  (exists fuel, Unify fuel (Compound f args) (Compound g sargs) s1 = Some (U true s2)).
Proof.
  intros Hl. split; intros (fuel & H).
  - unfold Univ in H.
    assert (Ht : Univ_term fuel s1 (Compound g sargs) = Some (UnivCompound g sargs))
      by (destruct fuel; reflexivity).
    rewrite Ht in H. destruct fuel as [|fuel]; [discriminate H|].
    rewrite Unify_bound in H by (rewrite Hl; discriminate). rewrite Hl in H.
    destruct fuel as [|fuel]; [discriminate H|].
    unfold univList in H. rewrite Unify_Cons_eq in H. cbn [unify_args] in H.
    destruct (Unify fuel (Atom f) (Atom g) s1) as [[[|] s0|]|] eqn:E0;
      try discriminate H.
    destruct fuel as [|fuel]; [discriminate E0|]. cbn [Unify] in E0.
    injection E0 as Efg <-. apply String.eqb_eq in Efg as <-.
    destruct (Unify (S fuel) (List args) (List sargs) s1) as [[[|] s3|]|] eqn:E;
      try discriminate H.
    cbn [unify_then_k] in H. injection H as <-.
    destruct (args_of_Unify_List args (S fuel) sargs s1 s3 E) as (Hlen & Hargs).
    exists (S (S fuel)). cbn [Unify].
    rewrite String.eqb_refl, Hlen, Nat.eqb_refl. exact Hargs.
  - destruct fuel as [|n]; [discriminate H|]. cbn [Unify] in H.
    destruct (String.eqb f g) eqn:Efg; [|discriminate H].
    apply String.eqb_eq in Efg as <-.
    destruct (length args =? length sargs)%nat eqn:Elen; [|discriminate H].
    apply Nat.eqb_eq in Elen. cbn [negb] in H.
    pose proof (Unify_List_of_args n args sargs s1 s2 Elen H) as HL.
    exists (S (S (S (n + length args)))). unfold Univ. cbn [Univ_term].
    rewrite Unify_bound by (rewrite Hl; discriminate). rewrite Hl. unfold univList.
    rewrite (Unify_Cons _ _ _ _ _ s1 s1 s2); [reflexivity| |exact HL].
    cbn [Unify]. rewrite String.eqb_refl. reflexivity.
Qed.

(** An atom or a number. *)
Definition isAtomic (r : Term) : bool :=
  match r with
  | Atom _ | Integer _ | Float _ => true
  | _ => false
  end.

(** A term that is an atom or a number, or a variable bound to one, is
    refused. *)
Lemma Univ_not_compound fuel : forall u lst e r,
  walk fuel e u = Some r -> isAtomic r = true ->
  Univ fuel u lst e = Some (Return false invalidArgument e).
Proof.
  intros u lst e r Hw Hr. unfold Univ.
  assert (Ht : Univ_term fuel e u = Some UnivOther); [|rewrite Ht; reflexivity].
  revert u Hw. induction fuel as [|fuel IH]; intros u Hw.
  - destruct u as [|a|z|x|p|g gs]; cbn [walk] in Hw; try reflexivity.
    + destruct (ref e p); try discriminate Hw. injection Hw as <-. discriminate Hr.
    + injection Hw as <-. discriminate Hr.
  - destruct u as [|a|z|x|p|g gs]; cbn [walk] in Hw; try reflexivity.
    + cbn [Univ_term]. destruct (ref e p); try (apply IH; exact Hw).
      injection Hw as <-. discriminate Hr.
    + injection Hw as <-. discriminate Hr.
Qed.

(** C3 (amended). [Univ] and the compounds.  For every term [t] that is a
    compound [f(args)], or a variable bound to one, and every unbound variable
    [l], [Univ t l] goes on to its continuation with [l] bound to the list of
    [f] and of the arguments.  With that same list, [Univ] of a second unbound
    variable [sv] goes on with [sv] bound to the compound of [f] and of the
    arguments, each followed through the variables that are bound by then,
    nothing else changed: the compound [t] itself when no argument is a bound
    variable, an argument that is an unbound variable staying that variable.
    And [Univ] of a compound goes on exactly when that compound unifies with
    [t], in the store that this unification leaves.  A term that is neither a
    variable nor a compound, an atom for one, is refused with the error
    "invalid argument". *)
Theorem Univ_round_trip (k : nat) (t : Term) (l : nat) (f : string) (args : list Term)
    (s : Store) :
  wfStore s -> (l < next s)%nat -> ref s l = Nil ->
  Univ_term k s t = Some (UnivCompound f args) ->
  let s1 := setRef l (univList f args) s in
  (forall fuel, (S k <= fuel)%nat -> Univ fuel t (Ref l) s = Some (Continue s1)) /\
  (forall sv vals,
     (sv < next s)%nat -> sv <> l -> ref s sv = Nil -> Forall2 (derefs s1) args vals ->
     exists m s2, forall fuel, (m <= fuel)%nat ->
       Univ fuel (Ref sv) (Ref l) s1 = Some (Continue s2) /\
       ref s2 sv = Compound f vals /\
       frame s1 (setRef sv Nil s2) /\
       (Forall (fun a => forall p, a = Ref p -> ref s1 p = Nil) args ->
        ref s2 sv = Compound f args)) /\
  (forall g sargs s2,
     (exists fuel, Univ fuel (Compound g sargs) (Ref l) s1 = Some (Continue s2)) <->
     (exists fuel, Unify fuel (Compound f args) (Compound g sargs) s1 = Some (U true s2))) /\
  (forall fuel u lst e r,
     walk fuel e u = Some r -> isAtomic r = true ->
     Univ fuel u lst e = Some (Return false invalidArgument e)).
Proof.
  intros Hwf Hlt Hl Ht s1.
  assert (Hl1 : ref s1 l = univList f args) by apply ref_setRef.
  split; [|split; [|split]].
  - apply Univ_compound; assumption.
  - intros sv vals Hsv Hne Hunb Hvals.
    assert (Hwf1 : wfStore s1) by (apply setRef_wf; assumption).
    destruct (Univ_variable sv l f args vals s1 Hwf1) as (m & s2 & H2);
      [unfold s1; rewrite next_setRef; exact Hsv
      |unfold s1; rewrite ref_setRef_ne by auto; exact Hunb
      |exact Hl1|exact Hvals|].
    exists m, s2. intros fuel Hf. destruct (H2 fuel Hf) as (HU & Hr & Hfr).
    split; [exact HU|]. split; [exact Hr|]. split; [exact Hfr|].
    intros Hv. rewrite Hr. f_equal.
    clear -Hv Hvals. subst s1. set (s1 := setRef l _ s) in *. clearbody s1.
    induction Hvals as [|a r args' vals' Ha _ IH]; [reflexivity|].
    apply Forall_cons in Hv as [Hva Hv].
    rewrite (derefs_unbound _ a r Hva Ha), (IH Hv). reflexivity.
  - intros g sargs s2. apply Univ_unifies. exact Hl1.
  - apply Univ_not_compound.
Qed.

(** Two unbound variables, [L] at 0 and [S] at 1. *)
Definition twoVariables : Store := {| cells := ∅; next := 2 |}.

(** Three unbound variables, [L] at 0, [S] at 1 and [X] at 2, and the term
    [f(a, X)]. *)
Definition threeVariables : Store := {| cells := ∅; next := 3 |}.
Definition f_a_X : Term := Compound "f" [Atom "a"; Ref 2].

Lemma threeVariables_wf : wfStore threeVariables.
Proof. intros p _. reflexivity. Qed.

Lemma Univ_round_trip_f_a_X :
  Univ 1 f_a_X (Ref 0) threeVariables
  = Some (Continue (setRef 0 (List [Atom "f"; Atom "a"; Ref 2]) threeVariables)) /\
  exists m s2, forall fuel, (m <= fuel)%nat ->
    Univ fuel (Ref 1) (Ref 0) (setRef 0 (List [Atom "f"; Atom "a"; Ref 2]) threeVariables)
    = Some (Continue s2) /\
    ref s2 1 = f_a_X /\ ref s2 2 = Nil.
Proof.
  pose proof (Univ_round_trip 0 f_a_X 0 "f" [Atom "a"; Ref 2] threeVariables
                threeVariables_wf ltac:(cbn; lia) eq_refl eq_refl) as (H1 & H2 & _).
  split; [apply H1; lia|].
  destruct (H2 1%nat [Atom "a"; Ref 2] ltac:(cbn; lia) ltac:(lia) eq_refl)
    as (m & s2 & H).
  - repeat constructor; exists 0%nat; (split; [reflexivity|cbn; lia || exact I]).
  - exists m, s2. intros fuel Hf. destruct (H fuel Hf) as (HU & Hr & Hfr & _).
    split; [exact HU|]. split; [exact Hr|].
    pose proof (Hfr 2%nat ltac:(cbn; lia)) as H2'.
    rewrite ref_setRef_ne in H2' by lia. exact H2'.
Defined.

(** C3, as stated, fails on an atom: [foo =.. L] is refused with the error
    "invalid argument" and [L] stays unbound. *)
Lemma Univ_atom_refused :
  Univ 1 (Atom "foo") (Ref 0) emptyStore
  = Some (Return false invalidArgument emptyStore) /\
  ref emptyStore 0 = Nil.
Proof. split; reflexivity. Qed.

(** *** Facts on [Engine.Assertz] *)

Arguments CompileOk {clause} c.
Arguments CompileError {clause} msg.
Arguments CompilePanic {clause}.
Arguments clauses {clause} cs.
Arguments builtin {clause}.
Arguments AssertzContinue {clause} procedures s.
Arguments AssertzArrive {clause} name args s.
Arguments AssertzError {clause} msg s.
Arguments AssertzPanic {clause}.

(** The clauses that [Assertz] finds under a name: those of the procedure,
    none when there is no procedure. *)
Definition clausesOf {clause : Type} (procedures : gmap string (procedure clause))
    (name : string) : list clause :=
  match procedures !! name with
  | Some (clauses cs) => cs
  | _ => []
  end.

Section AssertzFacts.

Variable clause : Type.
Variable newClause : string -> clause.
Variable compile : clause -> Term -> Store -> option (Compiled clause).

Lemma Assertz_store_appends name t procedures s procedures' s' :
  Assertz_store clause newClause compile name t procedures s
  = Some (AssertzContinue procedures' s') ->
  exists c,
    procedures !! name <> Some builtin /\
    compile (newClause name) t s = Some (CompileOk c) /\
    procedures' = <[name := clauses (clausesOf procedures name ++ [c])]> procedures.
Proof.
  unfold Assertz_store, clausesOf. intros H.
  destruct (procedures !! name) as [[cs|]|] eqn:E; cbn [default] in H; try discriminate.
  - destruct (compile (newClause name) t s) as [[c|e|]|]; try discriminate.
    injection H as <- <-. exists c. split; [discriminate|]. split; reflexivity.
  - destruct (compile (newClause name) t s) as [[c|e|]|]; try discriminate.
    injection H as <- <-. exists c. split; [discriminate|]. split; reflexivity.
Qed.

(** A call of [Assertz] that returns [k()] has put one new clause, compiled
    from the term, at the end of the clauses of one procedure. *)
Lemma Assertz_appends fuel t procedures s procedures' s' :
  Assertz clause newClause compile fuel t procedures s
  = Some (AssertzContinue procedures' s') ->
  exists name c,
    procedures !! name <> Some builtin /\
    compile (newClause name) t s' = Some (CompileOk c) /\
    procedures' = <[name := clauses (clausesOf procedures name ++ [c])]> procedures.
Proof.
  unfold Assertz. intros H.
  destruct (nameArgs fuel s t) as [[[name args]|]|]; try discriminate.
  destruct (String.eqb name ":-/1").
  { destruct (firstArg fuel args s) as [[[d s1]|]|]; try discriminate.
    destruct (nameArgs fuel s1 (Ref d)) as [[[name' args']|]|]; discriminate. }
  destruct (String.eqb name ":-/2").
  { destruct (firstArg fuel args s) as [[[h s1]|]|]; try discriminate.
    destruct (nameArgs fuel s1 (Ref h)) as [[[name' args']|]|]; try discriminate.
    assert (s' = s1).
    { unfold Assertz_store in H. destruct (default _ _); [|discriminate].
      destruct (compile _ _ _) as [[c|e|]|]; try discriminate. injection H as _ <-. reflexivity. }
    subst s1. exists name'. eapply Assertz_store_appends. exact H. }
  assert (s' = s).
  { unfold Assertz_store in H. destruct (default _ _); [|discriminate].
    destruct (compile _ _ _) as [[c|e|]|]; try discriminate. injection H as _ <-. reflexivity. }
  subst s'. exists name. eapply Assertz_store_appends. exact H.
Qed.

(** A callable term that is not a directive nor a rule is stored as the last
    clause of the procedure that its own key names. *)
Lemma Assertz_fact fuel t procedures s name args c :
  nameArgs fuel s t = Some (Some (name, args)) ->
  name <> ":-/1" -> name <> ":-/2" ->
  procedures !! name <> Some builtin ->
  compile (newClause name) t s = Some (CompileOk c) ->
  Assertz clause newClause compile fuel t procedures s
  = Some (AssertzContinue (<[name := clauses (clausesOf procedures name ++ [c])]> procedures) s).
Proof.
  intros Hn H1 H2 Hb Hc. unfold Assertz. rewrite Hn.
  destruct (String.eqb_spec name ":-/1") as [E|_]; [contradiction|].
  destruct (String.eqb_spec name ":-/2") as [E|_]; [contradiction|].
  unfold Assertz_store, clausesOf.
  destruct (procedures !! name) as [[cs|]|]; cbn [default]; try (rewrite Hc; reflexivity).
  contradiction.
Qed.

Lemma cells_Resolve_mono n m s t r :
  (n <= m)%nat -> Resolve n s t = Some r -> Resolve m s t = Some r.
Proof.
  unfold Resolve. intros Hle H.
  destruct (walk n s t) as [w|] eqn:E; [|discriminate].
  rewrite (walk_mono n m s t Hle w E). exact H.
Qed.

Lemma nameArgs_mono n m s t r :
  (n <= m)%nat -> nameArgs n s t = Some r -> nameArgs m s t = Some r.
Proof.
  unfold nameArgs. intros Hle H.
  destruct (Resolve n s t) as [w|] eqn:E; [|discriminate].
  rewrite (cells_Resolve_mono n m s t w Hle E). exact H.
Qed.

(** The key of a term is the key of what the term is bound to, an atom or a
    compound. *)
Lemma nameArgs_callable k s t key args :
  nameArgs k s t = Some (Some (key, args)) ->
  exists r, walk k s t = Some r /\ isValue r = true /\
    forall fuel s', nameArgs fuel s' r = Some (Some (key, args)).
Proof.
  unfold nameArgs, Resolve. intros H.
  destruct (walk k s t) as [[|a|z|f|p|f fargs]|]; try discriminate.
  - exists (Atom a). split; [reflexivity|]. split; [reflexivity|].
    intros fuel s'. destruct fuel; exact H.
  - exists (Compound f fargs). split; [reflexivity|]. split; [reflexivity|].
    intros fuel s'. destruct fuel; exact H.
Qed.

(** A rule [Head :- Body] is stored as the last clause of the procedure that
    the key of its head names; two variables have been allocated by then, the
    first one bound to the head. *)
Lemma Assertz_rule k t H B key hargs procedures s :
  wfStore s ->
  Resolve k s t = Some (Compound ":-" [H; B]) ->
  nameArgs k s H = Some (Some (key, hargs)) ->
  exists m s', frame s s' /\ forall fuel c, (m <= fuel)%nat ->
    procedures !! key <> Some builtin ->
    compile (newClause key) t s' = Some (CompileOk c) ->
    Assertz clause newClause compile fuel t procedures s
    = Some (AssertzContinue (<[key := clauses (clausesOf procedures key ++ [c])]> procedures) s').
Proof.
  intros Hwf Ht HH.
  destruct (nameArgs_callable k s H key hargs HH) as (r & Hw & Hr & Hkey).
  assert (Hd : derefs s H r).
  { exists k. split; [exact Hw|]. destruct r; try discriminate Hr; exact I. }
  destruct (Unify_List_fresh s H r [B] Hwf Hd) as (m & s3 & H3).
  exists (S (k + m)), s3. split; [apply (H3 m (le_n _))|].
  intros fuel c Hf Hb Hc.
  destruct (H3 fuel ltac:(lia)) as (HU & Hcar & _).
  unfold Assertz, nameArgs at 1.
  rewrite (cells_Resolve_mono k fuel s t _ ltac:(lia) Ht).
  change (String.eqb (String.append ":-" (String.append "/" (decimal (length [H; B])))) ":-/1")
    with false.
  change (String.eqb (String.append ":-" (String.append "/" (decimal (length [H; B])))) ":-/2")
    with true.
  cbv iota.
  assert (Hfa : firstArg fuel (List [H; B]) s = Some (Some (next s, s3))).
  { unfold firstArg.
    change (newVariable s) with (next s, snd (newVariable s)). cbv iota.
    change (newVariable (snd (newVariable s)))
      with (S (next s), snd (newVariable (snd (newVariable s)))). cbv iota.
    change (List [H; B]) with (Cons H (List [B])).
    rewrite HU. reflexivity. }
  rewrite Hfa.
  assert (Hx : nameArgs fuel s3 (Ref (next s)) = Some (Some (key, hargs))).
  { destruct fuel as [|fuel]; [lia|]. rewrite <- (Hkey fuel s3).
    unfold nameArgs, Resolve. cbn [walk]. rewrite Hcar.
    destruct r; try discriminate Hr; reflexivity. }
  rewrite Hx. unfold Assertz_store, clausesOf.
  destruct (procedures !! key) as [[cs|]|]; cbn [default]; try (rewrite Hc; reflexivity).
  contradiction.
Qed.

End AssertzFacts.

(** *** [Cut] *)

(** The errors of Go: the sentinel [errCut], the other errors made by
    [errors.New] and [fmt.Errorf], and the errors that wrap an error. *)
Inductive error :=
| errCut
| errNew (msg : string)
| errWrap (msg : string) (err : error).

(** [errors.Is(err, errCut)]: the error, or one that it wraps, is [errCut]. *)
Fixpoint Is_errCut (err : error) : bool :=
  match err with
  | errCut => true
  | errNew _ => false
  | errWrap _ err' => Is_errCut err'
  end.

(** [func Cut(k func() (bool, error)) (bool, error)] *)
Definition Cut (k : unit -> bool * option error) : bool * option error :=
  let (ok, err) := k tt in
  match err with
  | Some e => if Is_errCut e then (ok, Some e) else (false, Some e)
  | None => (ok, Some errCut)
  end.

(** X5.  [Cut] always returns an error.  Without an error of the
    continuation it returns its boolean with [errCut]; a cut signalled by the
    continuation passes through with its boolean; any other error passes
    through with [false].  In every case the error says whether the
    continuation failed for a reason of its own, and a second [Cut] around
    the first changes nothing. *)
Theorem Cut_signals (k : unit -> bool * option error) :
  (exists e, snd (Cut k) = Some e /\
     (Is_errCut e = true \/ (snd (k tt) = Some e /\ fst (Cut k) = false))) /\
  (snd (k tt) = None -> Cut k = (fst (k tt), Some errCut)) /\
  (forall e, snd (k tt) = Some e -> Is_errCut e = true -> Cut k = k tt) /\
  Cut (fun _ => Cut k) = Cut k.
Proof.
  unfold Cut. destruct (k tt) as [ok [e|]]; cbn [fst snd].
  - destruct (Is_errCut e) eqn:E; cbn [fst snd]; rewrite ?E.
    + split; [exists e; auto|]. split; [discriminate|]. split; [reflexivity|reflexivity].
    + split; [exists e; auto|]. split; [discriminate|].
      split; [intros e' [= <-]; congruence|reflexivity].
  - split; [exists errCut; auto|]. split; [reflexivity|].
    split; [discriminate|reflexivity].
Qed.

(** Three continuations: one that succeeds without an error, one that
    signals a cut under a wrapper, and one with an error of its own. *)
Lemma Cut_signals_true_and_error :
  Cut (fun _ => (true, None)) = (true, Some errCut) /\
  Cut (fun _ => (true, Some (errWrap "call" errCut))) = (true, Some (errWrap "call" errCut)) /\
  Cut (fun _ => (true, Some (errNew "boom"))) = (false, Some (errNew "boom")).
Proof.
  split; [|split].
  - exact (proj1 (proj2 (Cut_signals (fun _ => (true, None)))) eq_refl).
  - exact (proj1 (proj2 (proj2 (Cut_signals (fun _ => (true, Some (errWrap "call" errCut))))))
             _ eq_refl eq_refl).
  - reflexivity.
Defined.

(** *** The arguments of [Functor] *)

Lemma Functor_term_walk fuel s t r :
  walk fuel s t = Some r ->
  Functor_term fuel s t
  = Some match r with
         | Ref v => FoundVar v
         | Atom a => FoundAtom a
         | Compound f args => FoundCompound f args
         | _ => FoundOther
         end.
Proof.
  revert t. induction fuel as [|fuel IH]; intros t H.
  - destruct t as [|a|z|x|p|f args]; cbn [walk Functor_term] in *;
      try (injection H as <-; reflexivity).
    destruct (ref s p) eqn:E; try discriminate H. injection H as <-. reflexivity.
  - destruct t as [|a|z|x|p|f args]; cbn [walk Functor_term] in *;
      try (injection H as <-; reflexivity).
    destruct (ref s p) eqn:E; try (apply IH; exact H). injection H as <-. reflexivity.
Qed.

Lemma Functor_name_walk fuel s t r :
  walk fuel s t = Some r ->
  Functor_name fuel s t
  = Some match r with
         | Atom a => inl a
         | Ref _ => inr "invalid arguments: atom is not instantiated"
         | _ => inr "invalid arguments: name is %T"
         end.
Proof.
  revert t. induction fuel as [|fuel IH]; intros t H.
  - destruct t as [|a|z|x|p|f args]; cbn [walk Functor_name] in *;
      try (injection H as <-; reflexivity).
    destruct (ref s p) eqn:E; try discriminate H. injection H as <-. reflexivity.
  - destruct t as [|a|z|x|p|f args]; cbn [walk Functor_name] in *;
      try (injection H as <-; reflexivity).
    destruct (ref s p) eqn:E; try (apply IH; exact H). injection H as <-. reflexivity.
Qed.

Lemma Functor_arity_walk fuel s t r :
  walk fuel s t = Some r ->
  Functor_arity fuel s t
  = Some match r with
         | Integer a => inl a
         | _ => inr "invalid arguments"
         end.
Proof.
  revert t. induction fuel as [|fuel IH]; intros t H.
  - destruct t as [|a|z|x|p|f args]; cbn [walk Functor_arity] in *;
      try (injection H as <-; reflexivity).
    destruct (ref s p) eqn:E; try discriminate H. injection H as <-. reflexivity.
  - destruct t as [|a|z|x|p|f args]; cbn [walk Functor_arity] in *;
      try (injection H as <-; reflexivity).
    destruct (ref s p) eqn:E; try (apply IH; exact H). injection H as <-. reflexivity.
Qed.

Definition isInteger (r : Term) : bool := match r with Integer _ => true | _ => false end.
Definition isAtom (r : Term) : bool := match r with Atom _ => true | _ => false end.
Definition isNumber (r : Term) : bool :=
  match r with Integer _ | Float _ => true | _ => false end.

(** X6.  The errors of [Functor] when it has to build the term.  The term
    being an unbound variable, the name, followed through the variables that
    are bound, has to be an atom: an unbound variable gives the error "atom
    is not instantiated" and any other term an error too; then the arity has
    to be an integer, or the error is "invalid arguments".  The name is
    looked at first.  A term that is a number makes [Functor] fail without
    an error.  In none of these cases is a variable bound. *)
Theorem Functor_argument_errors (fuel : nat) (term name arity : Term) (s : Store)
    (rt rn ra : Term) :
  walk fuel s term = Some rt -> walk fuel s name = Some rn -> walk fuel s arity = Some ra ->
  (forall v, rt = Ref v ->
     (forall q, rn = Ref q ->
        Functor fuel term name arity s
        = Some (Return false (Some "invalid arguments: atom is not instantiated") s)) /\
     (isAtom rn = false ->
        exists e, Functor fuel term name arity s = Some (Return false (Some e) s)) /\
     (isAtom rn = true -> isInteger ra = false ->
        Functor fuel term name arity s = Some (Return false (Some "invalid arguments") s))) /\
  (isNumber rt = true -> Functor fuel term name arity s = Some (Return false None s)).
Proof.
  intros Ht Hn Ha. unfold Functor.
  rewrite (Functor_term_walk _ _ _ _ Ht). split.
  - intros v ->. rewrite (Functor_name_walk _ _ _ _ Hn). split; [|split].
    + intros q ->. reflexivity.
    + intros E. destruct rn; try discriminate E; eexists; reflexivity.
    + intros E E'. destruct rn; try discriminate E.
      rewrite (Functor_arity_walk _ _ _ _ Ha). destruct ra; try discriminate E'; reflexivity.
  - intros E. destruct rt; try discriminate E; reflexivity.
Qed.

Lemma Functor_argument_errors_unbound_name :
  Functor 0 (Ref 0) (Ref 1) (Integer 2) twoVariables
  = Some (Return false (Some "invalid arguments: atom is not instantiated") twoVariables).
Proof.
  exact (proj1 (proj1 (Functor_argument_errors 0 (Ref 0) (Ref 1) (Integer 2) twoVariables
                         (Ref 0) (Ref 1) (Integer 2) eq_refl eq_refl eq_refl) 0%nat eq_refl)
               1%nat eq_refl).
Defined.

(** *** The keys of [nameArgs] *)

Fixpoint hasSlash (s : string) : bool :=
  match s with
  | EmptyString => false
  | String c s' => Ascii.eqb c "/" || hasSlash s'
  end.

Lemma hasSlash_append a b : hasSlash (String.append a (String "/" b)) = true.
Proof.
  induction a as [|c a IH].
  - reflexivity.
  - change (hasSlash (String.append (String c a) (String "/" b)))
      with (Ascii.eqb c "/" || hasSlash (String.append a (String "/" b))).
    rewrite IH. apply orb_true_r.
Qed.

Lemma hasSlash_digits d : hasSlash (DecimalString.NilEmpty.string_of_uint d) = false.
Proof. induction d; cbn [DecimalString.NilEmpty.string_of_uint hasSlash]; auto. Qed.

Lemma to_uint_nonnil n : Nat.to_uint n <> Decimal.Nil.
Proof.
  rewrite <- (DecimalNat.Unsigned.of_to n) at 1. rewrite DecimalNat.Unsigned.to_of.
  unfold Decimal.unorm. destruct (Decimal.nzhead (Nat.to_uint n)); discriminate.
Qed.

Lemma decimal_digits n : decimal n = DecimalString.NilEmpty.string_of_uint (Nat.to_uint n).
Proof.
  unfold decimal, DecimalString.NilZero.string_of_uint.
  pose proof (to_uint_nonnil n) as H. destruct (Nat.to_uint n); [contradiction|reflexivity..].
Qed.

Lemma decimal_inj n m : decimal n = decimal m -> n = m.
Proof.
  rewrite !decimal_digits. intros H. apply DecimalNat.Unsigned.to_uint_inj.
  apply (f_equal DecimalString.NilEmpty.uint_of_string) in H.
  rewrite !DecimalString.NilEmpty.usu in H. congruence.
Qed.

Lemma hasSlash_decimal n : hasSlash (decimal n) = false.
Proof. rewrite decimal_digits. apply hasSlash_digits. Qed.

(** The last slash of a key parts the name from the arity. *)
Lemma key_parts : forall f1 f2 d1 d2,
  hasSlash d1 = false -> hasSlash d2 = false ->
  String.append f1 (String "/" d1) = String.append f2 (String "/" d2) ->
  f1 = f2 /\ d1 = d2.
Proof.
  induction f1 as [|c f1 IH]; intros f2 d1 d2 H1 H2 H; destruct f2 as [|c2 f2];
    cbn [String.append] in H.
  - injection H as ->. split; reflexivity.
  - injection H as _ ->. rewrite hasSlash_append in H1. discriminate H1.
  - injection H as _ <-. rewrite hasSlash_append in H2. discriminate H2.
  - injection H as -> H. destruct (IH f2 d1 d2 H1 H2 H) as [-> ->]. split; reflexivity.
Qed.

(** The functor and the number of arguments of a callable term. *)
Definition indicator (r : Term) : option (string * nat) :=
  match r with
  | Atom f => Some (f, O)
  | Compound f args => Some (f, length args)
  | _ => None
  end.

Lemma nameArgs_key fuel s t k args :
  nameArgs fuel s t = Some (Some (k, args)) ->
  exists r f n, Resolve fuel s t = Some r /\ indicator r = Some (f, n) /\
    k = String.append f (String "/" (decimal n)).
Proof.
  unfold nameArgs. intros H.
  destruct (Resolve fuel s t) as [[|f|z|x|p|f fargs]|]; try discriminate H;
    injection H as <- <-; eexists _, _, _; (split; [reflexivity|]);
    (split; [reflexivity|]); reflexivity.
Qed.

(** X7.  The keys of the procedures do not collide: two terms for which
    [nameArgs] gives the same key, ["name/arity"], have the same name and the
    same number of arguments, whatever characters the names are made of (a
    slash in a name does no harm: the arity holds none). *)
Theorem nameArgs_keys_do_not_collide (fuel fuel' : nat) (s s' : Store) (t t' : Term)
    (k : string) (args args' : Term) :
  nameArgs fuel s t = Some (Some (k, args)) ->
  nameArgs fuel' s' t' = Some (Some (k, args')) ->
  exists r r' f n,
    Resolve fuel s t = Some r /\ Resolve fuel' s' t' = Some r' /\
    indicator r = Some (f, n) /\ indicator r' = Some (f, n).
Proof.
  intros H H'.
  destruct (nameArgs_key _ _ _ _ _ H) as (r & f & n & Hr & Hi & Hk).
  destruct (nameArgs_key _ _ _ _ _ H') as (r' & f' & n' & Hr' & Hi' & Hk').
  rewrite Hk in Hk'.
  destruct (key_parts f f' (decimal n) (decimal n')
              (hasSlash_decimal n) (hasSlash_decimal n') Hk') as [<- Hd].
  apply decimal_inj in Hd as <-.
  exists r, r', f, n. auto.
Qed.

Lemma nameArgs_keys_do_not_collide_slash :
  exists r r' f n,
    Resolve 0 emptyStore (Atom "a/1") = Some r /\
    Resolve 0 emptyStore (Atom "a/1") = Some r' /\
    indicator r = Some (f, n) /\ indicator r' = Some (f, n).
Proof.
  exact (nameArgs_keys_do_not_collide 0 0 emptyStore emptyStore (Atom "a/1") (Atom "a/1")
           "a/1/0" (List []) (List []) eq_refl eq_refl).
Defined.

(** *** The arguments of [Op] *)

Lemma Op_range_panic p t n : forall left i ops,
  Op_range left i p t n ops = OpLoopPanic -> matches t n zeroOperator = true.
Proof.
  induction left as [|left IH]; intros i ops H; [discriminate H|].
  rewrite Op_range_S in H.
  destruct (matches t n (nth i ops zeroOperator)) eqn:Hm; [|exact (IH _ _ H)].
  destruct (Nat.ltb_spec i (length ops)) as [Hlt|Hge].
  - destruct (p =? 0); [discriminate H|exact (IH _ _ H)].
  - rewrite nth_overflow in Hm by lia. exact Hm.
Qed.

(** X8.  [Op] checks the types of its arguments and nothing else.  The
    priority has to be an integer, then the specifier an atom, then the name
    an atom, or the error is "invalid precedence", "invalid type" or "invalid
    name", in this order; any integer and any two atoms, not both empty, are
    accepted, whatever table there is: neither the range of the priority nor
    the spelling of the specifier is looked at. *)
Theorem Op_checks_types_only (fuel : nat) (precedence typ name : Term)
    (ops : list operator) (s : Store) (rp rt rn : Term) :
  Resolve fuel s precedence = Some rp ->
  Resolve fuel s typ = Some rt ->
  Resolve fuel s name = Some rn ->
  match rp, rt, rn with
  | Integer p, Atom t, Atom n =>
      (t, n) <> ("", "") ->
      exists ops', Op fuel precedence typ name ops s = Some (OpContinue ops')
  | Integer _, Atom _, _ => Op fuel precedence typ name ops s = Some (OpError "invalid name")
  | Integer _, _, _ => Op fuel precedence typ name ops s = Some (OpError "invalid type")
  | _, _, _ => Op fuel precedence typ name ops s = Some (OpError "invalid precedence")
  end.
Proof.
  intros Hp Ht Hn. unfold Op. rewrite Hp.
  destruct rp as [|a|p|x|q|f args]; try reflexivity.
  rewrite Ht. destruct rt as [|t|z|x|q|f args]; try reflexivity.
  rewrite Hn. destruct rn as [|n|z|x|q|f args]; try reflexivity.
  intros Hne.
  destruct (Op_range (length ops) 0 p t n ops) as [ops'|ops'|] eqn:E;
    [eexists; reflexivity..|].
  exfalso. apply Op_range_panic in E. apply matches_key in E.
  apply Hne. symmetry. exact E.
Qed.

Lemma Op_checks_types_only_5000 :
  exists ops', Op 0 (Integer 5000) (Atom "foo") (Atom "bar") [] emptyStore
               = Some (OpContinue ops').
Proof.
  exact (Op_checks_types_only 0 (Integer 5000) (Atom "foo") (Atom "bar") [] emptyStore
           (Integer 5000) (Atom "foo") (Atom "bar") eq_refl eq_refl eq_refl
           ltac:(discriminate)).
Defined.
End Prolog.

(** ** The machine: clause compiler, [VM.arrive] and [clauses.Call] *)

Module VM.

Import Prolog.

(** [procedureIndicator{name, arity}] *)
Definition procedureIndicator : Type := string * Z.

(** The errors of the engine.  Modelled from the spec (section 7): the
    constructors [typeErrorCallable], [existenceErrorProcedure] and
    [systemError] are called in the sources and declared outside them;
    each keeps its culprit or its message. *)
Inductive Exception :=
| typeErrorCallable (culprit : Term)
| typeErrorList (culprit : Term)
| instantiationError (culprit : Term)
| existenceErrorProcedure (culprit : Term)
| otherError (msg : string)               (* errors.New, fmt.Errorf *)
| systemError (cause : Exception).

(** *** The clause compiler *)

Definition opVoid : Z := 0.
Definition opEnter : Z := 1.
Definition opCall : Z := 2.
Definition opExit : Z := 3.
Definition opConst : Z := 4.
Definition opVar : Z := 5.
Definition opFunctor : Z := 6.
Definition opPop : Z := 7.
Definition opCut : Z := 8.

(** [byte(i)] *)
Definition byte (i : nat) : Z := Z.of_nat i mod 256.

(** An entry of [xrTable]: a constant term or a procedure indicator. *)
Inductive XR :=
| XTerm (t : Term)
| XIndicator (pi : procedureIndicator).

Record clause := {
  pi : procedureIndicator;
  raw : Term;
  xrTable : list XR;
  vars : list nat;
  bytecode : list Z
}.

Definition setRaw (t : Term) (c : clause) : clause :=
  {| pi := pi c; raw := t; xrTable := xrTable c; vars := vars c; bytecode := bytecode c |}.

(** [c.bytecode = append(c.bytecode, ...)] *)
Definition emit (code : list Z) (c : clause) : clause :=
  {| pi := pi c; raw := raw c; xrTable := xrTable c; vars := vars c;
     bytecode := bytecode c ++ code |}.

Inductive CompileResult :=
| COk (c : clause)
| CErr (e : Exception)
| CPanic.

(** [if err := step; err != nil { return err }] and what follows. *)
Definition andThen (r : CompileResult) (k : clause -> CompileResult) : CompileResult :=
  match r with
  | COk c => k c
  | CErr e => CErr e
  | CPanic => CPanic
  end.

Section Compiler.

(** [r.Unify(o, false)] on two entries of the table, which hold no variable:
    the methods [Unify] of the constants and of [procedureIndicator] are
    outside the sources, and the compiler is taken over any of them. *)
Variable unifies : XR -> XR -> bool.

(** The index of the first entry that unifies with [o], from [i] on. *)
Fixpoint xrFind (o : XR) (table : list XR) (i : nat) : option nat :=
  match table with
  | [] => None
  | r :: table' => if unifies r o then Some i else xrFind o table' (S i)
  end.

Definition xrOffset (o : XR) (c : clause) : Z * clause :=
  match xrFind o (xrTable c) 0 with
  | Some i => (byte i, c)
  | None =>
      let c' := {| pi := pi c; raw := raw c; xrTable := xrTable c ++ [o];
                   vars := vars c; bytecode := bytecode c |} in
      (byte (length (xrTable c') - 1), c')
  end.

Fixpoint varFind (o : nat) (vs : list nat) (i : nat) : option nat :=
  match vs with
  | [] => None
  | v :: vs' => if (v =? o)%nat then Some i else varFind o vs' (S i)
  end.

Definition varOffset (o : nat) (c : clause) : Z * clause :=
  match varFind o (vars c) 0 with
  | Some i => (byte i, c)
  | None =>
      let c' := {| pi := pi c; raw := raw c; xrTable := xrTable c;
                   vars := vars c ++ [o]; bytecode := bytecode c |} in
      (byte (length (vars c') - 1), c')
  end.

(** [for _, a := range args { if err := compile(a); err != nil { return err } }] *)
Fixpoint forArgs (compile : Term -> clause -> CompileResult) (args : list Term)
    (c : clause) : CompileResult :=
  match args with
  | [] => COk c
  | a :: args' => andThen (compile a c) (forArgs compile args')
  end.

Fixpoint compileArg (a : Term) (c : clause) : CompileResult :=
  match a with
  | Ref v =>
      let (off, c1) := varOffset v c in COk (emit [opVar; off] c1)
  | Float _ | Integer _ | Atom _ =>
      let (off, c1) := xrOffset (XTerm a) c in COk (emit [opConst; off] c1)
  | Compound f args =>
      let (off, c1) := xrOffset (XIndicator (f, Z.of_nat (length args))) c in
      andThen (forArgs compileArg args (emit [opFunctor; off] c1))
        (fun c2 => COk (emit [opPop] c2))
  | Nil => CErr (systemError (otherError "unknown argument"))
  end.

Definition compilePred (p : Term) (c : clause) : CompileResult :=
  match p with
  | Atom a =>
      if String.eqb a "!" then COk (emit [opCut] c)
      else let (off, c1) := xrOffset (XIndicator (a, 0)) c in COk (emit [opCall; off] c1)
  | Compound f args =>
      andThen (forArgs compileArg args c) (fun c1 =>
        let (off, c2) := xrOffset (XIndicator (f, Z.of_nat (length args))) c1 in
        COk (emit [opCall; off] c2))
  | _ => CErr (typeErrorCallable p)
  end.

(** The loop of [compileClause] on the body, through [,/2], and the call
    of [compilePred] on what is left of it. *)
Fixpoint compileBody (body : Term) (c : clause) : CompileResult :=
  match body with
  | Compound f [p; rest] =>
      if String.eqb f "," then andThen (compilePred p c) (compileBody rest)
      else compilePred body c
  | _ => compilePred body c
  end.

(** [compileClause(head, body)]; a clause without a body has [body == nil]. *)
Definition compileClause (head body : Term) (c : clause) : CompileResult :=
  let headResult :=
    match head with
    | Atom _ => COk c
    | Compound _ args => forArgs compileArg args c
    | _ => CErr (typeErrorCallable head)
    end in
  andThen headResult (fun c1 =>
    if isNil body then COk (emit [opExit] c1)
    else andThen (compileBody body (emit [opEnter] c1)) (fun c2 => COk (emit [opExit] c2))).

(** [c.compile(t)].  [t.Args[0]] and [t.Args[1]] panic on a compound [:-]
    of fewer than two arguments. *)
Definition compile (fuel : nat) (s : Store) (t : Term) (c : clause) : option CompileResult :=
  match Resolve fuel s t with
  | None => None
  | Some t =>
      let c := setRaw t c in
      match t with
      | Atom _ => Some (compileClause t Nil c)
      | Compound f args =>
          if String.eqb f ":-" then
            match args with
            | head :: body :: _ => Some (compileClause head body c)
            | _ => Some CPanic
            end
          else Some (compileClause t Nil c)
      | _ => Some (CErr (typeErrorCallable t))
      end
  end.

End Compiler.

(** *** Facts on the compiler *)

(** The opcode stream of the claim, operands left out. *)
Fixpoint arg_ops (a : Term) : list Z :=
  match a with
  | Ref _ => [opVar]
  | Atom _ | Integer _ | Float _ => [opConst]
  | Compound _ args => opFunctor :: flat_map arg_ops args ++ [opPop]
  | Nil => []
  end.

Definition head_ops (head : Term) : list Z :=
  match head with
  | Compound _ args => flat_map arg_ops args
  | _ => []
  end.

(** The conjuncts of a body, walked left to right through [,/2]. *)
Fixpoint conjuncts (body : Term) : list Term :=
  match body with
  | Compound f [p; rest] => if String.eqb f "," then p :: conjuncts rest else [body]
  | _ => [body]
  end.

Definition pred_ops (p : Term) : list Z :=
  match p with
  | Atom a => if String.eqb a "!" then [opCut] else [opCall]
  | Compound _ args => flat_map arg_ops args ++ [opCall]
  | _ => []
  end.

Definition callable (t : Term) : bool :=
  match t with
  | Atom _ | Compound _ _ => true
  | _ => false
  end.

Definition clause_ops (head body : Term) : list Z :=
  head_ops head ++ [opEnter] ++ flat_map pred_ops (conjuncts body) ++ [opExit].

(** A term holds no nil interface value. *)
Fixpoint noNil (t : Term) : bool :=
  match t with
  | Nil => false
  | Compound _ args => forallb noNil args
  | _ => true
  end.

(** The opcodes of a bytecode: [opCall], [opConst], [opVar] and [opFunctor]
    are followed by one operand byte. *)
Definition hasOperand (op : Z) : bool :=
  (op =? opCall) || (op =? opConst) || (op =? opVar) || (op =? opFunctor).

Fixpoint opcodes (pc : list Z) : list Z :=
  match pc with
  | [] => []
  | op :: rest =>
      op :: (if hasOperand op then
               match rest with
               | [] => []
               | _ :: rest' => opcodes rest'
               end
             else opcodes rest)
  end.

(** [decodes code ops]: [code] is a sequence of whole instructions, of
    opcodes [ops]. *)
Inductive decodes : list Z -> list Z -> Prop :=
| decodes_nil : decodes [] []
| decodes_0 op code ops :
    hasOperand op = false -> decodes code ops -> decodes (op :: code) (op :: ops)
| decodes_1 op x code ops :
    hasOperand op = true -> decodes code ops -> decodes (op :: x :: code) (op :: ops).

Lemma decodes_app c1 o1 c2 o2 :
  decodes c1 o1 -> decodes c2 o2 -> decodes (c1 ++ c2) (o1 ++ o2).
Proof.
  induction 1 as [|op code ops Hop _ IH|op x code ops Hop _ IH]; intros H2.
  - exact H2.
  - cbn [app]. apply decodes_0; [exact Hop|apply IH; exact H2].
  - cbn [app]. apply decodes_1; [exact Hop|apply IH; exact H2].
Qed.

Lemma decodes_opcodes code ops : decodes code ops -> opcodes code = ops.
Proof.
  induction 1 as [|op code ops Hop _ IH|op x code ops Hop _ IH]; cbn [opcodes].
  - reflexivity.
  - rewrite Hop, IH. reflexivity.
  - rewrite Hop, IH. reflexivity.
Qed.

Lemma Term_nested_ind (P : Term -> Prop) :
  P Nil -> (forall a, P (Atom a)) -> (forall n, P (Integer n)) -> (forall f, P (Float f)) ->
  (forall p, P (Ref p)) ->
  (forall f args, Forall P args -> P (Compound f args)) ->
  forall t, P t.
Proof.
  intros HN HA HI HF HR HC.
  fix IH 1. intros [|a|n|f|p|f args].
  - exact HN.
  - apply HA.
  - apply HI.
  - apply HF.
  - apply HR.
  - apply HC. induction args as [|a args IHargs]; constructor; [apply IH|exact IHargs].
Qed.

Section CompilerFacts.

Variable unifies : XR -> XR -> bool.

Lemma xrOffset_bytecode o c : bytecode (snd (xrOffset unifies o c)) = bytecode c.
Proof. unfold xrOffset. destruct (xrFind _ _ _ _); reflexivity. Qed.

Lemma varOffset_bytecode o c : bytecode (snd (varOffset o c)) = bytecode c.
Proof. unfold varOffset. destruct (varFind _ _ _); reflexivity. Qed.

(** What a step of the compiler adds to the bytecode. *)
Definition emits (r : CompileResult) (c : clause) (ops : list Z) : Prop :=
  exists c' code, r = COk c' /\ bytecode c' = bytecode c ++ code /\ decodes code ops.

Lemma emits_bind r c ops (k : clause -> CompileResult) ops' :
  emits r c ops ->
  (forall c', emits (k c') c' ops') ->
  emits (andThen r k) c (ops ++ ops').
Proof.
  intros (c1 & code1 & -> & Hb1 & Hd1) Hk.
  destruct (Hk c1) as (c2 & code2 & Hr & Hb2 & Hd2).
  exists c2, (code1 ++ code2). split; [exact Hr|]. split.
  - rewrite Hb2, Hb1, app_assoc. reflexivity.
  - apply decodes_app; assumption.
Qed.

Lemma emits_emit0 op c : hasOperand op = false -> emits (COk (emit [op] c)) c [op].
Proof.
  intros H. exists (emit [op] c), [op]. repeat split. repeat constructor. exact H.
Qed.

Lemma emits_xr op o c :
  hasOperand op = true ->
  emits (let (off, c1) := xrOffset unifies o c in COk (emit [op; off] c1)) c [op].
Proof.
  intros H. pose proof (xrOffset_bytecode o c) as Hb.
  destruct (xrOffset unifies o c) as [off c1]. cbn [snd] in Hb.
  exists (emit [op; off] c1), [op; off]. split; [reflexivity|]. split.
  - cbn [emit bytecode]. rewrite Hb. reflexivity.
  - apply decodes_1; [exact H|constructor].
Qed.

Lemma emits_var v c :
  emits (let (off, c1) := varOffset v c in COk (emit [opVar; off] c1)) c [opVar].
Proof.
  pose proof (varOffset_bytecode v c) as Hb.
  destruct (varOffset v c) as [off c1]. cbn [snd] in Hb.
  exists (emit [opVar; off] c1), [opVar; off]. split; [reflexivity|]. split.
  - cbn [emit bytecode]. rewrite Hb. reflexivity.
  - apply decodes_1; [reflexivity|constructor].
Qed.

Lemma forArgs_emits args :
  Forall (fun a => forall c, emits (compileArg unifies a c) c (arg_ops a)) args ->
  forall c, emits (forArgs (compileArg unifies) args c) c (flat_map arg_ops args).
Proof.
  induction 1 as [|a args Ha _ IH]; intros c; cbn [forArgs flat_map].
  - exists c, []. repeat split; [rewrite app_nil_r; reflexivity|constructor].
  - apply (emits_bind _ c _ (forArgs (compileArg unifies) args)); [apply Ha|exact IH].
Qed.

Lemma compileArg_emits a : noNil a = true -> forall c,
  emits (compileArg unifies a c) c (arg_ops a).
Proof.
  induction a as [|a|n|f|p|f args IH] using Term_nested_ind; intros Hn c;
    cbn [compileArg arg_ops]; try discriminate;
    try (apply emits_xr; reflexivity).
  - apply emits_var.
  - cbn [noNil] in Hn. rewrite forallb_forall in Hn.
    assert (Hargs : Forall (fun a => forall c, emits (compileArg unifies a c) c (arg_ops a)) args).
    { rewrite Forall_forall in *. intros a Ha. apply IH; [exact Ha|].
      apply Hn. apply list_elem_of_In. exact Ha. }
    pose proof (xrOffset_bytecode (XIndicator (f, Z.of_nat (length args))) c) as Hb.
    destruct (xrOffset unifies _ c) as [off c1]. cbn [snd] in Hb.
    destruct (forArgs_emits args Hargs (emit [opFunctor; off] c1))
      as (c2 & code & -> & Hb2 & Hd).
    exists (emit [opPop] c2), ([opFunctor; off] ++ code ++ [opPop]).
    split; [reflexivity|]. split.
    + cbn [emit bytecode] in *. rewrite Hb2, Hb, <- !app_assoc. reflexivity.
    + change (opFunctor :: flat_map arg_ops args ++ [opPop])
        with ([opFunctor] ++ flat_map arg_ops args ++ [opPop]).
      apply decodes_app; [apply decodes_1; [reflexivity|constructor]|].
      apply decodes_app; [exact Hd|]. apply decodes_0; [reflexivity|constructor].
Qed.

Lemma forArgs_compileArg_emits args c :
  forallb noNil args = true ->
  emits (forArgs (compileArg unifies) args c) c (flat_map arg_ops args).
Proof.
  intros Hn. apply forArgs_emits. rewrite forallb_forall in Hn.
  apply Forall_forall. intros a Ha. apply compileArg_emits. apply Hn.
  apply list_elem_of_In. exact Ha.
Qed.

Lemma compilePred_emits p c :
  noNil p = true -> callable p = true ->
  emits (compilePred unifies p c) c (pred_ops p).
Proof.
  intros Hn Hc. destruct p as [|a|n|f|v|f args]; try discriminate; cbn [compilePred pred_ops].
  - destruct (String.eqb a "!").
    + apply emits_emit0. reflexivity.
    + apply emits_xr. reflexivity.
  - apply (emits_bind _ c _
             (fun c1 => let (off, c2) := xrOffset unifies (XIndicator (f, Z.of_nat (length args))) c1
                        in COk (emit [opCall; off] c2))).
    + apply forArgs_compileArg_emits. exact Hn.
    + intros c'. apply emits_xr. reflexivity.
Qed.

Lemma compilePred_error p c :
  callable p = false -> compilePred unifies p c = CErr (typeErrorCallable p).
Proof. destruct p; try discriminate; reflexivity. Qed.

Lemma compileBody_emits body : noNil body = true -> forall c,
  Forall (fun p => callable p = true) (conjuncts body) ->
  emits (compileBody unifies body c) c (flat_map pred_ops (conjuncts body)).
Proof.
  induction body as [|a|n|f|v|f args IH] using Term_nested_ind; intros Hn c Hc;
    try discriminate;
    try (cbn [compileBody conjuncts flat_map]; rewrite app_nil_r;
         apply compilePred_emits; [exact Hn|apply Forall_inv in Hc; exact Hc]).
  assert (Hsingle : forall c,
    Forall (fun p => callable p = true) [Compound f args] ->
    emits (compilePred unifies (Compound f args) c) c
      (flat_map pred_ops [Compound f args])).
  { intros c0 _. cbn [flat_map]. rewrite app_nil_r. apply compilePred_emits; [exact Hn|reflexivity]. }
  destruct args as [|p [|rest [|x args]]]; try (apply Hsingle; exact Hc).
  cbn [compileBody conjuncts] in *. destruct (String.eqb f ","); [|apply Hsingle; exact Hc].
  cbn [flat_map]. cbn [noNil forallb] in Hn.
  apply andb_true_iff in Hn. destruct Hn as [Hp Hrest]. rewrite andb_true_r in Hrest.
  apply Forall_cons in Hc. destruct Hc as [Hcp Hcrest].
  apply (emits_bind _ c _ (compileBody unifies rest)).
  - apply compilePred_emits; assumption.
  - intros c'. apply Forall_cons in IH. destruct IH as [_ IH].
    apply Forall_cons in IH. destruct IH as [IH _]. apply IH; assumption.
Qed.

Lemma compileBody_error body : noNil body = true -> forall c p,
  find (fun p => negb (callable p)) (conjuncts body) = Some p ->
  compileBody unifies body c = CErr (typeErrorCallable p).
Proof.
  induction body as [|a|n|f|v|f args IH] using Term_nested_ind; intros Hn c q Hf;
    try discriminate;
    try (cbn in Hf; injection Hf as <-; reflexivity).
  destruct args as [|p [|rest [|x args]]]; try (cbn in Hf; discriminate).
  cbn [compileBody conjuncts] in *. destruct (String.eqb f ","); [|cbn in Hf; discriminate].
  cbn [find] in Hf. cbn [noNil forallb] in Hn.
  apply andb_true_iff in Hn. destruct Hn as [Hp Hrest]. rewrite andb_true_r in Hrest.
  destruct (callable p) eqn:Hcp; cbn [negb] in Hf.
  - destruct (compilePred_emits p c Hp Hcp) as (c' & code & -> & _).
    cbn [andThen]. apply Forall_cons in IH. destruct IH as [_ IH].
    apply Forall_cons in IH. destruct IH as [IH _]. apply IH; assumption.
  - injection Hf as <-. rewrite compilePred_error by exact Hcp. reflexivity.
Qed.

End CompilerFacts.

(** [clause{pi: pi}], the clause that [compile] is called on. *)
Definition newClause (p : procedureIndicator) : clause :=
  {| pi := p; raw := Nil; xrTable := []; vars := []; bytecode := [] |}.

(** C5.  The clause [Head :- Body] is compiled into: the opcodes that match
    the head ([opConst] for an atomic argument, [opVar] for a variable,
    [opFunctor], the stream of the arguments and [opPop] for a compound);
    [opEnter]; for each conjunct of the body, left to right through [,/2],
    the opcodes that build its arguments and [opCall], or [opCut] alone for
    [!]; and [opExit].  A head or a conjunct that is not callable makes the
    compilation fail with the type error [callable] on it. *)
Theorem compile_clause_opcodes (unifies : XR -> XR -> bool) (fuel : nat) (s : Store)
    (p : procedureIndicator) (head body : Term) :
  noNil head = true -> noNil body = true ->
  (callable head = true ->
   Forall (fun q => callable q = true) (conjuncts body) ->
   exists c,
     compile unifies fuel s (Compound ":-" [head; body]) (newClause p) = Some (COk c) /\
     opcodes (bytecode c)
     = head_ops head ++ [opEnter] ++ flat_map pred_ops (conjuncts body) ++ [opExit]) /\
  (callable head = false ->
   compile unifies fuel s (Compound ":-" [head; body]) (newClause p)
   = Some (CErr (typeErrorCallable head))) /\
  (callable head = true ->
   forall q, find (fun q => negb (callable q)) (conjuncts body) = Some q ->
   compile unifies fuel s (Compound ":-" [head; body]) (newClause p)
   = Some (CErr (typeErrorCallable q))).
Proof.
  intros Hh Hb.
  assert (Hc : compile unifies fuel s (Compound ":-" [head; body]) (newClause p)
               = Some (compileClause unifies head body
                         (setRaw (Compound ":-" [head; body]) (newClause p)))).
  { unfold compile, Resolve. destruct fuel; reflexivity. }
  rewrite Hc. set (c0 := setRaw _ _).
  assert (Hnil : isNil body = false) by (destruct body; [discriminate|reflexivity..]).
  assert (Hhead : callable head = true ->
    emits (match head with
           | Atom _ => COk c0
           | Compound _ args => forArgs (compileArg unifies) args c0
           | _ => CErr (typeErrorCallable head)
           end) c0 (head_ops head)).
  { intros Hcall. destruct head as [|a|n|f|v|f args]; try discriminate.
    - exists c0, []. split; [reflexivity|].
      split; [rewrite app_nil_r; reflexivity|constructor].
    - apply forArgs_compileArg_emits. exact Hh. }
  split; [|split].
  - intros Hcall Hconj. unfold compileClause.
    destruct (Hhead Hcall) as (c1 & code1 & -> & Hb1 & Hd1).
    cbn [andThen]. rewrite Hnil.
    destruct (compileBody_emits unifies body Hb (emit [opEnter] c1) Hconj)
      as (c2 & code2 & -> & Hb2 & Hd2).
    cbn [andThen].
    exists (emit [opExit] c2). split; [reflexivity|].
    apply decodes_opcodes. cbn [emit bytecode] in *. rewrite Hb2, Hb1.
    cbn [c0 setRaw newClause bytecode app]. rewrite <- !app_assoc.
    apply decodes_app; [exact Hd1|].
    cbn [app]. apply decodes_0; [reflexivity|].
    apply decodes_app; [exact Hd2|apply decodes_0; [reflexivity|constructor]].
  - intros Hcall. unfold compileClause.
    destruct head; try discriminate; reflexivity.
  - intros Hcall q Hq. unfold compileClause.
    destruct (Hhead Hcall) as (c1 & code1 & -> & _).
    cbn [andThen]. rewrite Hnil.
    rewrite (compileBody_error unifies body Hb _ q Hq). reflexivity.
Qed.

Definition neverUnifies (r o : XR) : bool := false.

Lemma compile_clause_opcodes_example :
  exists c,
    compile neverUnifies 0 emptyStore
      (Compound ":-"
         [Compound "foo" [Ref 0; Atom "a"];
          Compound "," [Compound "bar" [Ref 0]; Compound "," [Atom "!"; Atom "baz"]]])
      (newClause ("foo", 2)) = Some (COk c) /\
    opcodes (bytecode c)
    = [opVar; opConst; opEnter; opVar; opCall; opCut; opCall; opExit].
Proof.
  refine (proj1 (compile_clause_opcodes neverUnifies 0 emptyStore ("foo", 2)
                   (Compound "foo" [Ref 0; Atom "a"])
                   (Compound "," [Compound "bar" [Ref 0]; Compound "," [Atom "!"; Atom "baz"]])
                   eq_refl eq_refl) eq_refl _).
  repeat constructor.
Defined.

(** *** The operands of the bytecode *)

Section Operands.

Variable unifies : XR -> XR -> bool.

(** The entry [e] of the table stands for [o]: it is [o], put there for it,
    or an earlier entry that unified with it. *)
Definition entryFor (e o : XR) : Prop := e = o \/ unifies e o = true.

(** [codeOf xr vs args code]: [code] is the code of the arguments [args],
    its operands being read in the tables [xr] and [vs]. *)
Inductive codeOf (xr : list XR) (vs : list nat) : list Term -> list Z -> Prop :=
| codeOf_nil : codeOf xr vs [] []
| codeOf_var v i args code :
    vs !! i = Some v -> codeOf xr vs args code ->
    codeOf xr vs (Ref v :: args) (opVar :: Z.of_nat i :: code)
| codeOf_const a i e args code :
    isAtomic a = true -> xr !! i = Some e -> entryFor e (XTerm a) ->
    codeOf xr vs args code ->
    codeOf xr vs (a :: args) (opConst :: Z.of_nat i :: code)
| codeOf_functor f fargs i e cargs args code :
    xr !! i = Some e -> entryFor e (XIndicator (f, Z.of_nat (length fargs))) ->
    codeOf xr vs fargs cargs -> codeOf xr vs args code ->
    codeOf xr vs (Compound f fargs :: args)
      (opFunctor :: Z.of_nat i :: cargs ++ opPop :: code).

(** The code of a goal of a body. *)
Inductive predOf (xr : list XR) (vs : list nat) : Term -> list Z -> Prop :=
| predOf_cut : predOf xr vs (Atom "!") [opCut]
| predOf_atom a i e :
    a <> "!" -> xr !! i = Some e -> entryFor e (XIndicator (a, 0)) ->
    predOf xr vs (Atom a) [opCall; Z.of_nat i]
| predOf_compound f args i e cargs :
    codeOf xr vs args cargs ->
    xr !! i = Some e -> entryFor e (XIndicator (f, Z.of_nat (length args))) ->
    predOf xr vs (Compound f args) (cargs ++ [opCall; Z.of_nat i]).

Inductive bodyOf (xr : list XR) (vs : list nat) : list Term -> list Z -> Prop :=
| bodyOf_nil : bodyOf xr vs [] []
| bodyOf_cons p ps c1 c2 :
    predOf xr vs p c1 -> bodyOf xr vs ps c2 -> bodyOf xr vs (p :: ps) (c1 ++ c2).

(** The arguments of a head. *)
Definition headArgs (head : Term) : list Term :=
  match head with
  | Compound _ args => args
  | _ => []
  end.

(** The code of a clause, [body] being [Nil] for a fact. *)
Definition clauseOf (xr : list XR) (vs : list nat) (head body : Term) (code : list Z) : Prop :=
  exists hcode, codeOf xr vs (headArgs head) hcode /\
    if isNil body then code = hcode ++ [opExit]
    else exists bcode, bodyOf xr vs (conjuncts body) bcode /\
           code = hcode ++ opEnter :: bcode ++ [opExit].

Lemma codeOf_mono xr xr' vs vs' args code :
  xr `prefix_of` xr' -> vs `prefix_of` vs' ->
  codeOf xr vs args code -> codeOf xr' vs' args code.
Proof.
  intros Hx Hv. induction 1.
  - constructor.
  - apply codeOf_var; [eapply prefix_lookup_Some; eassumption|assumption].
  - eapply codeOf_const; [assumption|eapply prefix_lookup_Some; eassumption|eassumption|assumption].
  - eapply codeOf_functor; [eapply prefix_lookup_Some; eassumption|eassumption|assumption..].
Qed.

Lemma codeOf_app xr vs l1 c1 l2 c2 :
  codeOf xr vs l1 c1 -> codeOf xr vs l2 c2 -> codeOf xr vs (l1 ++ l2) (c1 ++ c2).
Proof.
  induction 1; intros Hl2; cbn [app].
  - exact Hl2.
  - apply codeOf_var; auto.
  - eapply codeOf_const; eauto.
  - rewrite <- app_assoc. cbn [app]. eapply codeOf_functor; eauto.
Qed.

Lemma predOf_mono xr xr' vs vs' p code :
  xr `prefix_of` xr' -> vs `prefix_of` vs' ->
  predOf xr vs p code -> predOf xr' vs' p code.
Proof.
  intros Hx Hv. destruct 1.
  - constructor.
  - eapply predOf_atom; [assumption|eapply prefix_lookup_Some; eassumption|eassumption].
  - eapply predOf_compound;
      [eapply codeOf_mono; eassumption|eapply prefix_lookup_Some; eassumption|eassumption].
Qed.

Lemma bodyOf_mono xr xr' vs vs' ps code :
  xr `prefix_of` xr' -> vs `prefix_of` vs' ->
  bodyOf xr vs ps code -> bodyOf xr' vs' ps code.
Proof.
  intros Hx Hv. induction 1; constructor; [eapply predOf_mono; eassumption|assumption].
Qed.

(** The tables are small enough for an index to be a byte. *)
Definition small (c : clause) : Prop :=
  (length (xrTable c) <= 256)%nat /\ (length (vars c) <= 256)%nat.

(** The tables of [c'] are those of [c] with new entries behind. *)
Definition grows (c c' : clause) : Prop :=
  xrTable c `prefix_of` xrTable c' /\ vars c `prefix_of` vars c' /\
  (NoDup (vars c) -> NoDup (vars c')) /\ raw c' = raw c.

Lemma grows_refl c : grows c c.
Proof. split; [reflexivity|]. split; [reflexivity|auto]. Qed.

Lemma grows_trans c1 c2 c3 : grows c1 c2 -> grows c2 c3 -> grows c1 c3.
Proof.
  intros (H1 & H2 & H3 & H3') (H4 & H5 & H6 & H6').
  split; [etrans; eassumption|]. split; [etrans; eassumption|]. split; [auto|congruence].
Qed.

Lemma grows_small c c' : grows c c' -> small c' -> small c.
Proof.
  intros (H1 & H2 & _) (H3 & H4). apply prefix_length in H1, H2. split; lia.
Qed.

Lemma byte_small i : (i < 256)%nat -> byte i = Z.of_nat i.
Proof. intros H. unfold byte. apply Z.mod_small. lia. Qed.

Lemma xrFind_spec o table : forall i0 i,
  xrFind unifies o table i0 = Some i ->
  exists e, (i0 <= i)%nat /\ table !! (i - i0)%nat = Some e /\ unifies e o = true.
Proof.
  induction table as [|r table IH]; intros i0 i H; cbn [xrFind] in H; [discriminate|].
  destruct (unifies r o) eqn:E.
  - injection H as <-. exists r. rewrite Nat.sub_diag. auto.
  - destruct (IH _ _ H) as (e & Hle & Hl & He). exists e. split; [lia|].
    split; [|exact He]. replace (i - i0)%nat with (S (i - S i0)) by lia. exact Hl.
Qed.

Lemma xrOffset_spec o c :
  let (off, c') := xrOffset unifies o c in
  grows c c' /\ bytecode c' = bytecode c /\ vars c' = vars c /\
  (small c' -> exists i e, off = Z.of_nat i /\ xrTable c' !! i = Some e /\ entryFor e o).
Proof.
  unfold xrOffset. destruct (xrFind unifies o (xrTable c) 0) as [i|] eqn:E.
  - split; [apply grows_refl|]. split; [reflexivity|]. split; [reflexivity|].
    intros [Hs _]. destruct (xrFind_spec _ _ _ _ E) as (e & _ & Hl & He).
    rewrite Nat.sub_0_r in Hl. exists i, e.
    split; [apply byte_small; apply lookup_lt_Some in Hl; lia|].
    split; [exact Hl|right; exact He].
  - cbn [xrTable vars bytecode].
    split; [split; [apply prefix_app_r; reflexivity|split; [reflexivity|auto]]|].
    split; [reflexivity|]. split; [reflexivity|].
    intros [Hs _]. cbn [xrTable] in Hs. rewrite length_app in *. cbn [length] in *.
    exists (length (xrTable c)), o.
    split; [rewrite <- byte_small by lia; f_equal; lia|].
    split; [|left; reflexivity].
    rewrite lookup_app_r by lia. rewrite Nat.sub_diag. reflexivity.
Qed.

Lemma varFind_Some o vs : forall i0 i,
  varFind o vs i0 = Some i -> (i0 <= i)%nat /\ vs !! (i - i0)%nat = Some o.
Proof.
  induction vs as [|v vs IH]; intros i0 i H; cbn [varFind] in H; [discriminate|].
  destruct (Nat.eqb_spec v o) as [->|Hne].
  - injection H as <-. rewrite Nat.sub_diag. auto.
  - destruct (IH _ _ H) as (Hle & Hl). split; [lia|].
    replace (i - i0)%nat with (S (i - S i0)) by lia. exact Hl.
Qed.

Lemma varFind_None o vs : forall i0, varFind o vs i0 = None -> o ∉ vs.
Proof.
  induction vs as [|v vs IH]; intros i0 H; cbn [varFind] in H; [apply not_elem_of_nil|].
  destruct (Nat.eqb_spec v o) as [->|Hne]; [discriminate|].
  apply not_elem_of_cons. split; [congruence|]. exact (IH _ H).
Qed.

Lemma varOffset_spec o c :
  let (off, c') := varOffset o c in
  grows c c' /\ bytecode c' = bytecode c /\ xrTable c' = xrTable c /\
  (small c' -> exists i, off = Z.of_nat i /\ vars c' !! i = Some o).
Proof.
  unfold varOffset. destruct (varFind o (vars c) 0) as [i|] eqn:E.
  - split; [apply grows_refl|]. split; [reflexivity|]. split; [reflexivity|].
    intros [_ Hs]. destruct (varFind_Some _ _ _ _ E) as (_ & Hl).
    rewrite Nat.sub_0_r in Hl. exists i.
    split; [apply byte_small; apply lookup_lt_Some in Hl; lia|exact Hl].
  - cbn [xrTable vars bytecode].
    split.
    { split; [reflexivity|]. split; [apply prefix_app_r; reflexivity|].
      split; [|reflexivity]. intros Hnd. apply NoDup_app. split; [exact Hnd|]. split; [|apply NoDup_singleton].
      intros x Hx Hx'. apply list_elem_of_singleton in Hx' as ->.
      exact (varFind_None _ _ _ E Hx). }
    split; [reflexivity|]. split; [reflexivity|].
    intros [_ Hs]. cbn [vars] in Hs. rewrite length_app in *. cbn [length] in *.
    exists (length (vars c)).
    split; [rewrite <- byte_small by lia; f_equal; lia|].
    rewrite lookup_app_r by lia. rewrite Nat.sub_diag. reflexivity.
Qed.

End Operands.

Section OperandFacts.

Variable unifies : XR -> XR -> bool.

(** What a step of the compiler adds: code whose operands are right in the
    tables that the step leaves, which are the tables it found with new
    entries behind. *)
Definition emitsD (r : CompileResult) (c : clause)
    (D : list XR -> list nat -> list Z -> Prop) : Prop :=
  exists c' code, r = COk c' /\ bytecode c' = bytecode c ++ code /\ grows c c' /\
    (small c' -> D (xrTable c') (vars c') code).

Definition monoD (D : list XR -> list nat -> list Z -> Prop) : Prop :=
  forall xr xr' vs vs' code,
    xr `prefix_of` xr' -> vs `prefix_of` vs' -> D xr vs code -> D xr' vs' code.

Definition seqD (D1 D2 : list XR -> list nat -> list Z -> Prop)
    (xr : list XR) (vs : list nat) (code : list Z) : Prop :=
  exists c1 c2, code = c1 ++ c2 /\ D1 xr vs c1 /\ D2 xr vs c2.

Lemma emitsD_bind r c D1 (k : clause -> CompileResult) D2 :
  emitsD r c D1 -> monoD D1 ->
  (forall c', emitsD (k c') c' D2) ->
  emitsD (andThen r k) c (seqD D1 D2).
Proof.
  intros (c1 & code1 & -> & Hb1 & Hg1 & HD1) Hm Hk.
  destruct (Hk c1) as (c2 & code2 & Hr & Hb2 & Hg2 & HD2).
  exists c2, (code1 ++ code2). split; [exact Hr|]. split.
  - rewrite Hb2, Hb1, app_assoc. reflexivity.
  - split; [eapply grows_trans; eassumption|].
    intros Hs. exists code1, code2. split; [reflexivity|]. split; [|apply HD2; exact Hs].
    pose proof Hg2 as (Hx & Hv & _).
    apply (Hm _ _ _ _ _ Hx Hv). apply HD1. eapply grows_small; [exact Hg2|exact Hs].
Qed.

Lemma emitsD_weaken r c (D D' : list XR -> list nat -> list Z -> Prop) :
  emitsD r c D -> (forall xr vs code, D xr vs code -> D' xr vs code) -> emitsD r c D'.
Proof.
  intros (c1 & code1 & Hr & Hb & Hg & HD) Hw. exists c1, code1. auto 10.
Qed.

Lemma emitsD_ret c : emitsD (COk c) c (fun xr vs code => code = []).
Proof.
  exists c, []. split; [reflexivity|]. split; [rewrite app_nil_r; reflexivity|].
  split; [apply grows_refl|reflexivity].
Qed.

Lemma emitsD_emit code c :
  emitsD (COk (emit code c)) c (fun xr vs code' => code' = code).
Proof.
  exists (emit code c), code. split; [reflexivity|]. split; [reflexivity|].
  split; [|reflexivity]. split; [reflexivity|]. split; [reflexivity|auto].
Qed.

(** [c.bytecode = append(c.bytecode, op, c.xrOffset(o))] *)
Lemma emitsD_xr op o c :
  emitsD (let (off, c1) := xrOffset unifies o c in COk (emit [op; off] c1)) c
    (fun xr vs code => exists i e, code = [op; Z.of_nat i] /\ xr !! i = Some e /\
                                   entryFor unifies e o).
Proof.
  pose proof (xrOffset_spec unifies o c) as H.
  destruct (xrOffset unifies o c) as [off c1]. destruct H as (Hg & Hb & _ & Hs).
  exists (emit [op; off] c1), [op; off]. split; [reflexivity|].
  split; [cbn [emit bytecode]; rewrite Hb; reflexivity|].
  split; [exact Hg|]. intros Hsm. destruct (Hs Hsm) as (i & e & -> & Hl & He).
  exists i, e. auto.
Qed.

Lemma emitsD_var v c :
  emitsD (let (off, c1) := varOffset v c in COk (emit [opVar; off] c1)) c
    (fun xr vs code => exists i, code = [opVar; Z.of_nat i] /\ vs !! i = Some v).
Proof.
  pose proof (varOffset_spec v c) as H.
  destruct (varOffset v c) as [off c1]. destruct H as (Hg & Hb & _ & Hs).
  exists (emit [opVar; off] c1), [opVar; off]. split; [reflexivity|].
  split; [cbn [emit bytecode]; rewrite Hb; reflexivity|].
  split; [exact Hg|]. intros Hsm. destruct (Hs Hsm) as (i & -> & Hl).
  exists i. auto.
Qed.

Lemma codeOf_monoD args : monoD (fun xr vs code => codeOf unifies xr vs args code).
Proof. intros xr xr' vs vs' code Hx Hv. apply codeOf_mono; assumption. Qed.

Lemma forArgs_emitsD args :
  Forall (fun a => forall c,
            emitsD (compileArg unifies a c) c (fun xr vs code => codeOf unifies xr vs [a] code))
    args ->
  forall c, emitsD (forArgs (compileArg unifies) args c) c
              (fun xr vs code => codeOf unifies xr vs args code).
Proof.
  induction 1 as [|a args Ha _ IH]; intros c; cbn [forArgs].
  - eapply emitsD_weaken; [apply emitsD_ret|]. intros xr vs code ->. constructor.
  - eapply emitsD_weaken.
    + eapply (emitsD_bind _ c _ (forArgs (compileArg unifies) args));
        [apply Ha|apply codeOf_monoD|exact IH].
    + intros xr vs code (c1 & c2 & -> & H1 & H2).
      apply (codeOf_app unifies xr vs [a] c1 args c2 H1 H2).
Qed.

Lemma compileArg_emitsD a : noNil a = true -> forall c,
  emitsD (compileArg unifies a c) c (fun xr vs code => codeOf unifies xr vs [a] code).
Proof.
  induction a as [|a|n|f|p|f args IH] using Term_nested_ind; intros Hn c;
    cbn [compileArg]; try discriminate.
  - eapply emitsD_weaken; [apply emitsD_xr|].
    intros xr vs code (i & e & -> & Hl & He).
    eapply codeOf_const; [reflexivity|exact Hl|exact He|constructor].
  - eapply emitsD_weaken; [apply emitsD_xr|].
    intros xr vs code (i & e & -> & Hl & He).
    eapply codeOf_const; [reflexivity|exact Hl|exact He|constructor].
  - eapply emitsD_weaken; [apply emitsD_xr|].
    intros xr vs code (i & e & -> & Hl & He).
    eapply codeOf_const; [reflexivity|exact Hl|exact He|constructor].
  - eapply emitsD_weaken; [apply emitsD_var|].
    intros xr vs code (i & -> & Hl). apply codeOf_var; [exact Hl|constructor].
  - cbn [noNil] in Hn. rewrite forallb_forall in Hn.
    assert (Hargs : Forall (fun a => forall c,
              emitsD (compileArg unifies a c) c
                (fun xr vs code => codeOf unifies xr vs [a] code)) args).
    { rewrite Forall_forall in *. intros a Ha. apply IH; [exact Ha|].
      apply Hn. apply list_elem_of_In. exact Ha. }
    pose proof (emitsD_xr opFunctor (XIndicator (f, Z.of_nat (length args))) c) as H1.
    destruct (xrOffset unifies _ c) as [off c1].
    epose proof (emitsD_bind _ c _
                  (fun c1 => andThen (forArgs (compileArg unifies) args c1)
                               (fun c2 => COk (emit [opPop] c2))) _ H1) as H2.
    cbn [andThen] in H2. eapply emitsD_weaken.
    + apply H2.
      * intros xr xr' vs vs' code Hx Hv (i & e & -> & Hl & He).
        exists i, e. split; [reflexivity|]. split; [|exact He].
        eapply prefix_lookup_Some; eassumption.
      * intros c'. eapply (emitsD_bind _ c' _ (fun c2 => COk (emit [opPop] c2)));
          [apply forArgs_emitsD; exact Hargs|apply codeOf_monoD|].
        intros c2. apply emitsD_emit.
    + intros xr vs code (k1 & k2 & -> & (i & e & -> & Hl & He) & (k3 & k4 & -> & H3 & ->)).
      cbn [app]. eapply codeOf_functor; [exact Hl|exact He|exact H3|constructor].
Qed.

Lemma forArgs_compileArg_emitsD args c :
  forallb noNil args = true ->
  emitsD (forArgs (compileArg unifies) args c) c
    (fun xr vs code => codeOf unifies xr vs args code).
Proof.
  intros Hn. apply forArgs_emitsD. rewrite forallb_forall in Hn.
  apply Forall_forall. intros a Ha. apply compileArg_emitsD. apply Hn.
  apply list_elem_of_In. exact Ha.
Qed.

Lemma compilePred_emitsD p c :
  noNil p = true -> callable p = true ->
  emitsD (compilePred unifies p c) c (fun xr vs code => predOf unifies xr vs p code).
Proof.
  intros Hn Hc. destruct p as [|a|n|f|v|f args]; try discriminate; cbn [compilePred].
  - destruct (String.eqb_spec a "!") as [->|Hne].
    + eapply emitsD_weaken; [apply emitsD_emit|]. intros xr vs code ->. constructor.
    + eapply emitsD_weaken; [apply emitsD_xr|].
      intros xr vs code (i & e & -> & Hl & He). eapply predOf_atom; eassumption.
  - eapply emitsD_weaken.
    + eapply (emitsD_bind _ c _
               (fun c1 => let (off, c2) :=
                            xrOffset unifies (XIndicator (f, Z.of_nat (length args))) c1
                          in COk (emit [opCall; off] c2)));
        [apply forArgs_compileArg_emitsD; exact Hn|apply codeOf_monoD|].
      intros c'. apply emitsD_xr.
    + intros xr vs code (k1 & k2 & -> & H1 & (i & e & -> & Hl & He)).
      eapply predOf_compound; eassumption.
Qed.

Lemma predOf_monoD p : monoD (fun xr vs code => predOf unifies xr vs p code).
Proof. intros xr xr' vs vs' code Hx Hv. apply predOf_mono; assumption. Qed.

Lemma compileBody_emitsD body : noNil body = true -> forall c,
  Forall (fun p => callable p = true) (conjuncts body) ->
  emitsD (compileBody unifies body c) c
    (fun xr vs code => bodyOf unifies xr vs (conjuncts body) code).
Proof.
  assert (Hone : forall p c, noNil p = true -> callable p = true ->
            emitsD (compilePred unifies p c) c
              (fun xr vs code => bodyOf unifies xr vs [p] code)).
  { intros p c Hn Hc. eapply emitsD_weaken; [apply compilePred_emitsD; assumption|].
    intros xr vs code H. rewrite <- (app_nil_r code). constructor; [exact H|constructor]. }
  induction body as [|a|n|f|v|f args IH] using Term_nested_ind; intros Hn c Hc;
    try discriminate;
    try (cbn [compileBody conjuncts]; apply Hone;
         [exact Hn|apply Forall_inv in Hc; exact Hc]).
  destruct args as [|p [|rest [|x args]]];
    try (cbn [compileBody conjuncts]; apply Hone; [exact Hn|reflexivity]).
  cbn [compileBody conjuncts] in *.
  destruct (String.eqb f ","); [|apply Hone; [exact Hn|reflexivity]].
  cbn [noNil forallb] in Hn.
  apply andb_true_iff in Hn. destruct Hn as [Hp Hrest]. rewrite andb_true_r in Hrest.
  apply Forall_cons in Hc. destruct Hc as [Hcp Hcrest].
  eapply emitsD_weaken.
  - eapply (emitsD_bind _ c _ (compileBody unifies rest));
      [apply compilePred_emitsD; assumption|apply predOf_monoD|].
    intros c'. apply Forall_cons in IH. destruct IH as [_ IH].
    apply Forall_cons in IH. destruct IH as [IH _]. apply IH; assumption.
  - intros xr vs code (k1 & k2 & -> & H1 & H2). constructor; assumption.
Qed.

Lemma compileClause_emitsD head body c :
  noNil head = true -> callable head = true ->
  (isNil body = false ->
     noNil body = true /\ Forall (fun p => callable p = true) (conjuncts body)) ->
  emitsD (compileClause unifies head body c) c
    (fun xr vs code => clauseOf unifies xr vs head body code).
Proof.
  intros Hn Hc Hb. unfold compileClause.
  assert (Hhead : emitsD (match head with
                          | Atom _ => COk c
                          | Compound _ args => forArgs (compileArg unifies) args c
                          | _ => CErr (typeErrorCallable head)
                          end) c
                    (fun xr vs code => codeOf unifies xr vs (headArgs head) code)).
  { destruct head as [|a|n|f|v|f args]; try discriminate.
    - eapply emitsD_weaken; [apply emitsD_ret|]. intros xr vs code ->. constructor.
    - apply forArgs_compileArg_emitsD. exact Hn. }
  destruct (isNil body) eqn:Enil.
  - eapply emitsD_weaken.
    + eapply (emitsD_bind _ c _ (fun c1 => COk (emit [opExit] c1)) _ Hhead);
        [apply codeOf_monoD|]. intros c'. apply emitsD_emit.
    + intros xr vs code (k1 & k2 & -> & H1 & ->). exists k1. rewrite Enil. auto.
  - destruct (Hb eq_refl) as [Hnb Hcb].
    assert (Hrest : forall c',
      emitsD (andThen (compileBody unifies body (emit [opEnter] c'))
                (fun c2 => COk (emit [opExit] c2))) c'
        (fun xr vs code' => exists bcode,
           bodyOf unifies xr vs (conjuncts body) bcode /\
           code' = opEnter :: bcode ++ [opExit])).
    { intros c'.
      destruct (emitsD_bind _ (emit [opEnter] c') _ (fun c2 => COk (emit [opExit] c2)) _
                  (compileBody_emitsD body Hnb (emit [opEnter] c') Hcb)
                  (fun xr xr' vs vs' code Hx Hv =>
                     bodyOf_mono unifies xr xr' vs vs' (conjuncts body) code Hx Hv)
                  (fun c2 => emitsD_emit [opExit] c2))
        as (c2 & code & Hr & Hbc & Hg & HD).
      exists c2, (opEnter :: code). split; [exact Hr|].
      split; [cbn [emit bytecode] in Hbc; rewrite Hbc, <- app_assoc; reflexivity|].
      split; [exact Hg|]. intros Hs. destruct (HD Hs) as (k1 & k2 & -> & H1 & ->).
      exists k1. auto. }
    eapply emitsD_weaken.
    + eapply (emitsD_bind _ c _ _ _ Hhead); [apply codeOf_monoD|exact Hrest].
    + intros xr vs code (k1 & k2 & -> & H1 & (k3 & H3 & ->)).
      exists k1. rewrite Enil. split; [exact H1|]. exists k3. auto.
Qed.

End OperandFacts.

(** X9.  The operands of the compiled code are right.  A rule [Head :- Body]
    and a fact [Head] are compiled into the code of the arguments of the
    head, [opEnter] and the code of the goals of the body for a rule, and
    [opExit]; as long as no table grows beyond 256 entries, every operand
    byte is an index of its table: the operand of an [opVar] is the index at
    which the table of the variables holds that very variable, and the
    operand of an [opConst], [opFunctor] or [opCall] is the index of an entry
    of the constants table that is the constant or the indicator compiled, or
    an earlier entry that unified with it.  No variable is twice in the table
    of the variables. *)
Theorem compile_operands (unifies : XR -> XR -> bool) (fuel : nat) (s : Store)
    (p : procedureIndicator) (head body : Term) :
  noNil head = true -> callable head = true ->
  (noNil body = true -> Forall (fun q => callable q = true) (conjuncts body) ->
   exists c,
     compile unifies fuel s (Compound ":-" [head; body]) (newClause p) = Some (COk c) /\
     NoDup (vars c) /\
     (small c -> clauseOf unifies (xrTable c) (vars c) head body (bytecode c))) /\
  ((forall args, head <> Compound ":-" args) ->
   exists c,
     compile unifies fuel s head (newClause p) = Some (COk c) /\
     NoDup (vars c) /\ raw c = head /\
     (small c -> clauseOf unifies (xrTable c) (vars c) head Nil (bytecode c))).
Proof.
  intros Hn Hc. split.
  - intros Hnb Hcb.
    assert (HC : compile unifies fuel s (Compound ":-" [head; body]) (newClause p)
                 = Some (compileClause unifies head body
                           (setRaw (Compound ":-" [head; body]) (newClause p)))).
    { unfold compile, Resolve. destruct fuel; reflexivity. }
    rewrite HC. set (c0 := setRaw _ _).
    destruct (compileClause_emitsD unifies head body c0 Hn Hc (fun _ => conj Hnb Hcb))
      as (c & code & -> & Hb & (_ & _ & Hnd & _) & HD).
    exists c. split; [reflexivity|]. split; [apply Hnd; constructor|].
    intros Hs. rewrite Hb. exact (HD Hs).
  - intros Hne.
    assert (HC : compile unifies fuel s head (newClause p)
                 = Some (compileClause unifies head Nil (setRaw head (newClause p)))).
    { unfold compile, Resolve. destruct head as [|a|n|f|v|f args]; try discriminate.
      - destruct fuel; reflexivity.
      - destruct (String.eqb_spec f ":-") as [->|_]; [destruct (Hne args eq_refl)|].
        destruct fuel; cbn [walk]; destruct (String.eqb_spec f ":-"); try reflexivity;
          subst; destruct (Hne args eq_refl). }
    rewrite HC. set (c0 := setRaw _ _).
    destruct (compileClause_emitsD unifies head Nil c0 Hn Hc ltac:(discriminate))
      as (c & code & Hr & Hb & (_ & _ & Hnd & Hraw) & HD).
    exists c. split; [rewrite Hr; reflexivity|]. split; [apply Hnd; constructor|].
    split; [exact Hraw|intros Hs; rewrite Hb; exact (HD Hs)].
Qed.

Lemma compile_operands_example :
  exists c,
    compile neverUnifies 0 emptyStore
      (Compound ":-" [Compound "foo" [Ref 0; Atom "a"]; Compound "bar" [Ref 0]])
      (newClause ("foo", 2)) = Some (COk c) /\
    NoDup (vars c) /\
    (small c ->
     clauseOf neverUnifies (xrTable c) (vars c)
       (Compound "foo" [Ref 0; Atom "a"]) (Compound "bar" [Ref 0]) (bytecode c)).
Proof.
  refine (proj1 (compile_operands neverUnifies 0 emptyStore ("foo", 2)
                   (Compound "foo" [Ref 0; Atom "a"]) (Compound "bar" [Ref 0])
                   eq_refl eq_refl) eq_refl _).
  repeat constructor.
Defined.

(** X10.  Beyond 256 entries the operand is not the index.  When the table
    of the constants holds 256 entries or more and none unifies with [o],
    [xrOffset] puts [o] behind them and returns, as a byte, a number below
    256 that is not the index of [o]; and so does [varOffset] for a variable
    that the table of the variables, of 256 entries or more, does not hold. *)
Theorem offsets_wrap (unifies : XR -> XR -> bool) (c : clause) :
  (forall o, (256 <= length (xrTable c))%nat ->
     xrFind unifies o (xrTable c) 0 = None ->
     xrTable (snd (xrOffset unifies o c)) !! length (xrTable c) = Some o /\
     0 <= fst (xrOffset unifies o c) < 256 /\
     fst (xrOffset unifies o c) <> Z.of_nat (length (xrTable c))) /\
  (forall v, (256 <= length (vars c))%nat ->
     varFind v (vars c) 0 = None ->
     vars (snd (varOffset v c)) !! length (vars c) = Some v /\
     0 <= fst (varOffset v c) < 256 /\
     fst (varOffset v c) <> Z.of_nat (length (vars c))).
Proof.
  split.
  - intros o Hlen Hf. unfold xrOffset. rewrite Hf. cbn [fst snd xrTable].
    split; [rewrite lookup_app_r by lia; rewrite Nat.sub_diag; reflexivity|].
    unfold byte. rewrite length_app. cbn [length].
    pose proof (Z.mod_pos_bound (Z.of_nat (length (xrTable c) + 1 - 1)) 256 ltac:(lia)).
    split; lia.
  - intros v Hlen Hf. unfold varOffset. rewrite Hf. cbn [fst snd vars].
    split; [rewrite lookup_app_r by lia; rewrite Nat.sub_diag; reflexivity|].
    unfold byte. rewrite length_app. cbn [length].
    pose proof (Z.mod_pos_bound (Z.of_nat (length (vars c) + 1 - 1)) 256 ltac:(lia)).
    split; lia.
Qed.

(** A clause with 256 variables in its table. *)
Definition fullClause : clause :=
  {| pi := ("foo", 0); raw := Nil; xrTable := []; vars := seq 0 256; bytecode := [] |}.

Lemma offsets_wrap_256 :
  vars (snd (varOffset 256 fullClause)) !! 256%nat = Some 256%nat /\
  fst (varOffset 256 fullClause) = 0.
Proof.
  destruct (proj2 (offsets_wrap neverUnifies fullClause) 256%nat) as (H1 & H2 & H3).
  - vm_compute. lia.
  - vm_compute. reflexivity.
  - split; [exact H1|]. vm_compute. reflexivity.
Defined.

(** *** The promises of the non-determinism core *)

(** The hooks and the log of the machine, as the events of a run. *)
Inductive Event :=
| OnArrive (goal : Term)
| OnCall (pi : procedureIndicator) (args : Term)
| OnExit (pi : procedureIndicator) (args : Term)
| OnFail (pi : procedureIndicator) (args : Term)
| OnRedo (pi : procedureIndicator) (args : Term)
| Warn (pi : procedureIndicator) (msg : string).

(** What the closures of a run read and write: the cells of the variables
    and the events so far. *)
Record State := {
  store : Store;
  trace : list Event
}.

Definition hook (e : Event) (st : State) : State :=
  {| store := store st; trace := trace st ++ [e] |}.

(** Modelled from the spec: the promises of the package [nondet], which is
    outside the sources (section 4.G).  [Bool true] is the unit, [Bool false]
    the failure, [Error] a thrown error, [Delay] the ordered choice of its
    delayed alternatives, [Opaque] a cut barrier and [Cut] a cut. *)
Inductive Promise :=
| Bool (ok : bool)
| Error (e : Exception)
| Delay (ks : list (State -> option (Promise * State)))
| Cut (p : Promise)
| Opaque (p : Promise).

(** The outcome of the search for the first solution. *)
Inductive Outcome :=
| Succeeded (st : State)
| Failed (st : State)
| CutFailed (st : State)     (* failed after a cut: up to the barrier, no alternative is left *)
| Raised (e : Exception) (st : State).

(** Modelled from the spec: the driver.  It walks the tree depth first, the
    alternatives of a choice left to right, each one forced when the ones
    before it have failed; a cut discards the alternatives that are left up
    to the enclosing barrier.  [None]: a delayed alternative did not return. *)
Fixpoint run (p : Promise) (st : State) : option Outcome :=
  match p with
  | Bool true => Some (Succeeded st)
  | Bool false => Some (Failed st)
  | Error e => Some (Raised e st)
  | Delay ks =>
      (fix alternatives (ks : list (State -> option (Promise * State))) (st : State)
         : option Outcome :=
         match ks with
         | [] => Some (Failed st)
         | k :: ks' =>
             match k st with
             | None => None
             | Some (q, st1) =>
                 match run q st1 with
                 | Some (Failed st2) => alternatives ks' st2
                 | r => r
                 end
             end
         end) ks st
  | Cut q =>
      match run q st with
      | Some (Failed st') => Some (CutFailed st')
      | r => r
      end
  | Opaque q =>
      match run q st with
      | Some (CutFailed st') => Some (Failed st')
      | r => r
      end
  end.

(** One alternative forced and searched. *)
Definition try (k : State -> option (Promise * State)) (st : State) : option Outcome :=
  match k st with
  | None => None
  | Some (q, st1) => run q st1
  end.

(** The alternatives of a choice, searched in their order. *)
Fixpoint alternatives (ks : list (State -> option (Promise * State))) (st : State)
    : option Outcome :=
  match ks with
  | [] => Some (Failed st)
  | k :: ks' =>
      match try k st with
      | Some (Failed st2) => alternatives ks' st2
      | r => r
      end
  end.

(** *** [VM.arrive] and [clauses.Call] *)

(** [Each], [EachList] and [EachSeq] of the term package, on the cells of
    the store; [f] appends the element to [acc]. *)
Fixpoint EachList (fuel : nat) (s : Store) (whole lst : Term) (acc : list Term)
    : option (Exception + list Term) :=
  match fuel with
  | O => None
  | S fuel' =>
      match walk fuel' s lst with
      | None => None
      | Some (Ref p) => Some (inl (instantiationError whole))
      | Some (Atom a) =>
          if String.eqb a "[]" then Some (inr acc) else Some (inl (typeErrorList (Atom a)))
      | Some (Compound f args) =>
          if negb (String.eqb f ".") || negb (length args =? 2)%nat then
            Some (inl (typeErrorList (Compound f args)))
          else
            match args with
            | h :: tl :: _ => EachList fuel' s whole tl (acc ++ [h])
            | _ => Some (inl (typeErrorList (Compound f args)))
            end
      | Some l => Some (inl (typeErrorList l))
      end
  end.

Fixpoint EachSeq (fuel : nat) (s : Store) (seq : Term) (sep : string) (acc : list Term)
    : option (Exception + list Term) :=
  match fuel with
  | O => None
  | S fuel' =>
      match walk fuel' s seq with
      | None => None
      | Some (Compound f (a :: b :: nil)) =>
          if String.eqb f sep then EachSeq fuel' s b sep (acc ++ [a])
          else Some (inr (acc ++ [seq]))
      | Some _ => Some (inr (acc ++ [seq]))
      end
  end.

Definition Each (fuel : nat) (s : Store) (any : Term) : option (Exception + list Term) :=
  match walk fuel s any with
  | None => None
  | Some (Compound f args) =>
      if String.eqb f "." && (length args =? 2)%nat then EachList fuel s any any []
      else EachSeq fuel s any "," []
  | Some _ => EachSeq fuel s any "," []
  end.

(** [type unknownAction int] *)
Definition unknownError : Z := 0.
Definition unknownFail : Z := 1.
Definition unknownWarning : Z := 2.

(** [FreeVariables] and [ResetVariables]. *)
Fixpoint appendFreeVariables (fuel : nat) (s : Store) (fvs : list nat) (t : Term)
    : option (list nat) :=
  match fuel with
  | O => None
  | S fuel' =>
      match t with
      | Ref p =>
          match ref s p with
          | Nil => Some (if existsb (Nat.eqb p) fvs then fvs else fvs ++ [p])
          | r => appendFreeVariables fuel' s fvs r
          end
      | Compound _ args =>
          fold_left (fun acc arg =>
                       match acc with
                       | None => None
                       | Some fvs => appendFreeVariables fuel' s fvs arg
                       end) args (Some fvs)
      | _ => Some fvs
      end
  end.

Definition FreeVariables (fuel : nat) (s : Store) (ts : list Term) : option (list nat) :=
  fold_left (fun acc t =>
               match acc with
               | None => None
               | Some fvs => appendFreeVariables fuel s fvs t
               end) ts (Some []).

Definition ResetVariables (vs : list nat) (st : State) : State :=
  {| store := fold_left (fun s v => setRef v Nil s) vs (store st); trace := trace st |}.

(** [type cont struct { exit, fail nondet.Promise }] *)
Record cont := {
  exit : Promise;
  fail : Promise
}.

(** A value of the interface [procedure]: the clauses of a user-defined
    procedure, or a built-in predicate, given by its method [Call]. *)
Inductive procedure :=
| clauses (cs : list clause)
| predicate (call : Term -> Promise -> State -> option (Promise * State)).

Record VM := {
  procedures : gmap procedureIndicator procedure;
  unknown : Z
}.

Section Machine.

(** [vm.exec(pc, xr, vars, k, args, astack)], the interpreter of the
    bytecode; [clauses.Call] hands each clause over to it. *)
Variable exec : list Z -> list XR -> list Term -> cont -> Term -> Term ->
                State -> option (Promise * State).

(** The closure [ks[i]] of [clauses.Call], for the clause [c] at index [i]. *)
Definition alternative (fvs : list nat) (args : Term) (k : Promise) (i : nat) (c : clause)
    : State -> option (Promise * State) :=
  fun st =>
    let st1 :=
      if (i =? 0)%nat then hook (OnCall (pi c) args) st
      else hook (OnRedo (pi c) args) (ResetVariables fvs st) in
    let (vars, s2) := newVariables (length (vars c)) (store st1) in
    let st2 := {| store := s2; trace := trace st1 |} in
    Some (Delay [fun st' =>
            exec (bytecode c) (xrTable c) vars
              {| exit := Delay [fun st'' => Some (k, hook (OnExit (pi c) args) st'')];
                 fail := Delay [fun st'' =>
                           Some (Bool false, ResetVariables fvs (hook (OnFail (pi c) args) st''))] |}
              args (List []) st'],
          st2).

(** [func (cs clauses) Call(vm *VM, args Term, k nondet.Promise) nondet.Promise] *)
Definition clauses_Call (fuel : nat) (cs : list clause) (args : Term) (k : Promise)
    (st : State) : option Promise :=
  match cs with
  | [] => Some (Bool false)
  | _ =>
      match FreeVariables fuel (store st) [args] with
      | None => None
      | Some fvs => Some (Opaque (Delay (imap (alternative fvs args k) cs)))
      end
  end.

(** [p.Call(vm, args, k)] *)
Definition procedure_Call (fuel : nat) (p : procedure) (args : Term) (k : Promise)
    (st : State) : option (Promise * State) :=
  match p with
  | clauses cs =>
      match clauses_Call fuel cs args k st with
      | None => None
      | Some q => Some (q, st)
      end
  | predicate call => call args k st
  end.

(** [func (vm *VM) arrive(pi procedureIndicator, args Term, k nondet.Promise) nondet.Promise] *)
Definition arrive (fuel : nat) (vm : VM) (pi : procedureIndicator) (args : Term)
    (k : Promise) (st : State) : option (Promise * State) :=
  match Each fuel (store st) args with
  | None => None
  | Some (inl err) => Some (Error (systemError err), st)
  | Some (inr elems) =>
      let goal :=
        match elems with
        | [] => Atom (fst pi)
        | _ => Compound (fst pi) elems
        end in
      let st1 := hook (OnArrive goal) st in
      match procedures vm !! pi with
      | None =>
          if unknown vm =? unknownError then
            Some (Error (existenceErrorProcedure
                           (Compound "/" [Atom (fst pi); Integer (snd pi)])), st1)
          else if unknown vm =? unknownWarning then
            Some (Bool false, hook (Warn pi "unknown procedure") st1)
          else if unknown vm =? unknownFail then Some (Bool false, st1)
          else Some (Error (systemError (otherError "unknown unknown")), st1)
      | Some p =>
          Some (Delay [fun st' => procedure_Call fuel p args k st'], st1)
      end
  end.

End Machine.

(** *** Facts on [VM.arrive] *)

(** C2.  The machine arrives at a goal, the list of whose arguments is
    walked without error, and whose procedure indicator has no procedure:
    the flag [unknown] decides.  With [error] the promise is the existence
    error of the procedure [name/arity]; with [fail] it is [Bool false], no
    error and nothing logged; with [warning] a warning is logged and the
    promise is [Bool false]. *)
Theorem arrive_unknown_procedure
    (exec : list Z -> list XR -> list Term -> cont -> Term -> Term ->
            State -> option (Promise * State))
    (fuel : nat) (vm : VM) (pi : procedureIndicator) (args : Term) (k : Promise)
    (st : State) (elems : list Term) :
  Each fuel (store st) args = Some (inr elems) ->
  procedures vm !! pi = None ->
  let goal := match elems with [] => Atom (fst pi) | _ => Compound (fst pi) elems end in
  let st1 := hook (OnArrive goal) st in
  (unknown vm = unknownError ->
   arrive exec fuel vm pi args k st
   = Some (Error (existenceErrorProcedure (Compound "/" [Atom (fst pi); Integer (snd pi)])),
           st1)) /\
  (unknown vm = unknownFail ->
   arrive exec fuel vm pi args k st = Some (Bool false, st1)) /\
  (unknown vm = unknownWarning ->
   arrive exec fuel vm pi args k st
   = Some (Bool false, hook (Warn pi "unknown procedure") st1)).
Proof.
  intros HE Hp goal st1. unfold arrive. rewrite HE, Hp. fold goal. fold st1.
  repeat split; intros ->; reflexivity.
Qed.

Definition noExec (pc : list Z) (xr : list XR) (vars : list Term) (k : cont)
    (args astack : Term) (st : State) : option (Promise * State) := None.

Definition emptyState : State := {| store := emptyStore; trace := [] |}.

Definition emptyVM (u : Z) : VM := {| procedures := ∅; unknown := u |}.

Lemma arrive_unknown_procedure_foo :
  arrive noExec 3 (emptyVM unknownError) ("foo", 1) (List [Atom "a"]) (Bool true) emptyState
  = Some (Error (existenceErrorProcedure (Compound "/" [Atom "foo"; Integer 1])),
          hook (OnArrive (Compound "foo" [Atom "a"])) emptyState) /\
  arrive noExec 3 (emptyVM unknownFail) ("foo", 1) (List [Atom "a"]) (Bool true) emptyState
  = Some (Bool false, hook (OnArrive (Compound "foo" [Atom "a"])) emptyState) /\
  arrive noExec 3 (emptyVM unknownWarning) ("foo", 1) (List [Atom "a"]) (Bool true) emptyState
  = Some (Bool false,
          hook (Warn ("foo", 1) "unknown procedure")
            (hook (OnArrive (Compound "foo" [Atom "a"])) emptyState)).
Proof.
  split; [|split].
  - exact (proj1 (arrive_unknown_procedure noExec 3 (emptyVM unknownError) ("foo", 1)
                    (List [Atom "a"]) (Bool true) emptyState [Atom "a"] eq_refl eq_refl)
                 eq_refl).
  - exact (proj1 (proj2 (arrive_unknown_procedure noExec 3 (emptyVM unknownFail) ("foo", 1)
                    (List [Atom "a"]) (Bool true) emptyState [Atom "a"] eq_refl eq_refl))
                 eq_refl).
  - exact (proj2 (proj2 (arrive_unknown_procedure noExec 3 (emptyVM unknownWarning) ("foo", 1)
                    (List [Atom "a"]) (Bool true) emptyState [Atom "a"] eq_refl eq_refl))
                 eq_refl).
Defined.

(** *** Facts on [clauses.Call] *)

Lemma run_Delay ks : forall st, run (Delay ks) st = alternatives ks st.
Proof.
  induction ks as [|k ks IH]; intros st; [reflexivity|].
  cbn [run alternatives]. unfold try.
  destruct (k st) as [[q st1]|]; [|reflexivity].
  destruct (run q st1) as [[st2|st2|st2|e st2]|]; try reflexivity.
  apply (IH st2).
Qed.

Lemma alternatives_app ks1 ks2 : forall st,
  alternatives (ks1 ++ ks2) st =
  match alternatives ks1 st with
  | Some (Failed st') => alternatives ks2 st'
  | r => r
  end.
Proof.
  induction ks1 as [|k ks1 IH]; intros st; [reflexivity|].
  cbn [app alternatives].
  destruct (try k st) as [[st2|st2|st2|e st2]|]; try reflexivity.
  apply IH.
Qed.

(** The cut barrier of [nondet.Opaque]. *)
Definition barrier (r : option Outcome) : option Outcome :=
  match r with
  | Some (CutFailed st') => Some (Failed st')
  | r => r
  end.

Lemma run_Opaque p st : run (Opaque p) st = barrier (run p st).
Proof.
  cbn [run]. destruct p; cbn [run]; try reflexivity.
  all: match goal with |- context [match ?x with _ => _ end] => destruct x as [[]|] end;
    reflexivity.
Qed.

(** The event at the entry of the clause at index [i]: a call for the first
    clause, a redo for the others. *)
Definition entering (args : Term) (i : nat) (c : clause) : Event :=
  if (i =? 0)%nat then OnCall (pi c) args else OnRedo (pi c) args.

(** The events of the clauses [cs], the first of them at index [i], when
    each one is entered in turn and left by its exit where [ex] holds, by
    its failure elsewhere. *)
Fixpoint tried (args : Term) (ex : clause -> bool) (i : nat) (cs : list clause)
    : list Event :=
  match cs with
  | [] => []
  | c :: cs' =>
      entering args i c
      :: (if ex c then OnExit (pi c) args else OnFail (pi c) args)
      :: tried args ex (S i) cs'
  end.

Section CallFacts.

Variable exec : list Z -> list XR -> list Term -> cont -> Term -> Term ->
                State -> option (Promise * State).

(** What the interpreter makes of the clause [c] on the arguments [args]:
    whatever the variables of the clause, the continuations and the state, it
    returns [k.exit], and no hook is called. *)
Definition clauseExits (args : Term) (c : clause) : Prop :=
  forall vars K st, exists st',
    exec (bytecode c) (xrTable c) vars K args (List []) st = Some (exit K, st') /\
    trace st' = trace st.

(** The same with [k.fail]. *)
Definition clauseFails (args : Term) (c : clause) : Prop :=
  forall vars K st, exists st',
    exec (bytecode c) (xrTable c) vars K args (List []) st = Some (fail K, st') /\
    trace st' = trace st.

Lemma try_alternative_fails fvs args k i c st :
  clauseFails args c ->
  exists st',
    try (alternative exec fvs args k i c) st = Some (Failed st') /\
    trace st' = trace st ++ [entering args i c; OnFail (pi c) args].
Proof.
  intros Hc. unfold try, alternative.
  destruct (newVariables _ _) as [vs s2].
  rewrite run_Delay. cbn [alternatives]. unfold try at 1.
  match goal with
  | |- context [exec _ _ _ ?K _ _ ?st2] => destruct (Hc vs K st2) as (st3 & -> & Ht)
  end.
  cbn [fail]. rewrite run_Delay. cbn [alternatives try run].
  eexists. split; [reflexivity|].
  cbn [ResetVariables trace hook]. rewrite Ht. cbn [trace].
  unfold entering. destruct (i =? 0)%nat; cbn [trace hook ResetVariables];
    rewrite <- app_assoc; reflexivity.
Qed.

Lemma try_alternative_exits fvs args (b : bool) i c st :
  clauseExits args c ->
  exists st',
    try (alternative exec fvs args (Bool b) i c) st
    = Some (if b then Succeeded st' else Failed st') /\
    trace st' = trace st ++ [entering args i c; OnExit (pi c) args].
Proof.
  intros Hc. unfold try, alternative.
  destruct (newVariables _ _) as [vs s2].
  rewrite run_Delay. cbn [alternatives]. unfold try at 1.
  match goal with
  | |- context [exec _ _ _ ?K _ _ ?st2] => destruct (Hc vs K st2) as (st3 & -> & Ht)
  end.
  cbn [exit]. rewrite run_Delay. cbn [alternatives try].
  exists (hook (OnExit (pi c) args) st3).
  split; [destruct b; reflexivity|].
  cbn [trace hook]. rewrite Ht. cbn [trace].
  unfold entering. destruct (i =? 0)%nat; cbn [trace hook ResetVariables];
    rewrite <- app_assoc; reflexivity.
Qed.

(** Clauses that fail, or whose exit is followed by a failure, are searched
    one after the other, to the last one. *)
Lemma alternatives_tried fvs args k ex cs : forall off st,
  Forall (fun c => if ex c : bool then clauseExits args c /\ k = Bool false
                   else clauseFails args c) cs ->
  exists st',
    alternatives (imap (fun i => alternative exec fvs args k (off + i)) cs) st
    = Some (Failed st') /\
    trace st' = trace st ++ tried args ex off cs.
Proof.
  induction cs as [|c cs IH]; intros off st Hcs.
  - exists st. split; [reflexivity|]. cbn [tried]. rewrite app_nil_r. reflexivity.
  - apply Forall_cons in Hcs as [Hc Hcs].
    rewrite imap_cons. cbn [alternatives tried]. rewrite Nat.add_0_r.
    assert (H1 : exists st1,
               try (alternative exec fvs args k off c) st = Some (Failed st1) /\
               trace st1 = trace st ++ [entering args off c;
                                        if ex c then OnExit (pi c) args
                                        else OnFail (pi c) args]).
    { destruct (ex c).
      - destruct Hc as [Hc ->].
        apply (try_alternative_exits fvs args false off c st Hc).
      - apply try_alternative_fails. exact Hc. }
    destruct H1 as (st1 & -> & Ht1).
    destruct (IH (S off) st1 Hcs) as (st' & Ha & Ht').
    exists st'. split.
    + rewrite <- Ha. f_equal. apply imap_ext. intros i x _. cbn. f_equal. lia.
    + rewrite Ht', Ht1, <- app_assoc. reflexivity.
Qed.

Lemma clauses_Call_all_tried fuel cs args st fvs ex :
  FreeVariables fuel (store st) [args] = Some fvs ->
  Forall (fun c => if ex c : bool then clauseExits args c else clauseFails args c) cs ->
  exists p st',
    clauses_Call exec fuel cs args (Bool false) st = Some p /\
    run p st = Some (Failed st') /\
    trace st' = trace st ++ tried args ex 0 cs.
Proof.
  intros Hfv Hcs.
  destruct (alternatives_tried fvs args (Bool false) ex cs 0 st) as (st' & Ha & Ht).
  { eapply Forall_impl; [exact Hcs|]. intros c Hc. cbv beta in Hc |- *.
    destruct (ex c); [split; [exact Hc|reflexivity]|exact Hc]. }
  destruct cs as [|c cs].
  - exists (Bool false), st. split; [reflexivity|]. split; [reflexivity|].
    cbn [tried]. rewrite app_nil_r. reflexivity.
  - unfold clauses_Call. rewrite Hfv. eexists _, st'. split; [reflexivity|].
    split; [|exact Ht].
    rewrite run_Opaque, run_Delay.
    change (imap (alternative exec fvs args (Bool false)) (c :: cs))
      with (imap (fun i => alternative exec fvs args (Bool false) (0 + i)) (c :: cs)).
    rewrite Ha. reflexivity.
Qed.

Lemma clauses_Call_first_exit fuel pre c post args st fvs :
  FreeVariables fuel (store st) [args] = Some fvs ->
  Forall (clauseFails args) pre -> clauseExits args c ->
  exists p st',
    clauses_Call exec fuel (pre ++ c :: post) args (Bool true) st = Some p /\
    run p st = Some (Succeeded st') /\
    trace st' = trace st ++ tried args (fun _ => false) 0 pre
                ++ [entering args (length pre) c; OnExit (pi c) args].
Proof.
  intros Hfv Hpre Hc.
  destruct (alternatives_tried fvs args (Bool true) (fun _ => false) pre 0 st)
    as (st1 & Ha & Ht1).
  { eapply Forall_impl; [exact Hpre|]. intros x Hx. exact Hx. }
  destruct (try_alternative_exits fvs args true (length pre) c st1 Hc) as (st' & Hy & Ht').
  unfold clauses_Call.
  destruct (pre ++ c :: post) as [|c0 cs0] eqn:E; [destruct pre; discriminate|].
  rewrite <- E. clear E c0 cs0. rewrite Hfv.
  eexists _, st'. split; [reflexivity|]. split.
  - rewrite run_Opaque, run_Delay, imap_app, alternatives_app.
    change (imap (alternative exec fvs args (Bool true)) pre)
      with (imap (fun i => alternative exec fvs args (Bool true) (0 + i)) pre).
    rewrite Ha. rewrite imap_cons. cbn [alternatives]. rewrite Nat.add_0_r, Hy.
    reflexivity.
  - rewrite Ht', Ht1, <- app_assoc. reflexivity.
Qed.

End CallFacts.


(** [vm.exec] on the instructions of a fact whose arguments are constants,
    with the hook [OnExec] left at its default, which does nothing:
    [opConst] unifies the arguments with the pair of the constant and a new
    variable, and returns [k.fail] when they do not unify; [opExit] returns
    [k.exit]; the end of the code is the error "non-exit end of bytecode".
    The other instructions, and a constant that is not a term, are outside
    this fragment ([None], as for a call that does not return). *)
Fixpoint execFact (fuel : nat) (pc : list Z) (xr : list XR) (vars : list Term) (k : cont)
    (args astack : Term) (st : State) : option (Promise * State) :=
  match pc with
  | [] => Some (Error (otherError "non-exit end of bytecode"), st)
  | op :: pc1 =>
      if op =? opConst then
        match pc1 with
        | i :: pc2 =>
            match xr !! Z.to_nat i with
            | Some (XTerm x) =>
                let (arest, s1) := newVariable (store st) in
                match Unify fuel args (Cons x (Ref arest)) s1 with
                | Some (U true s2) =>
                    execFact fuel pc2 xr vars k (Ref arest) astack
                      {| store := s2; trace := trace st |}
                | Some (U false s2) => Some (fail k, {| store := s2; trace := trace st |})
                | _ => None
                end
            | _ => None
            end
        | [] => None
        end
      else if op =? opExit then Some (exit k, st)
      else None
  end.

(** The clause that [Assertz] compiles for a key, [clause{name: name}], and
    [c.compile(t)] of the machine behind the interface of [Assertz], its
    error handed on as a text. *)
Definition clauseNamed (name : string) : clause := newClause (name, 0).

Definition compileInto (c : clause) (t : Term) (s : Store) : option (Compiled clause) :=
  match compile neverUnifies 0 s t c with
  | None => None
  | Some (COk c') => Some (CompileOk c')
  | Some (CErr _) => Some (CompileError "error")
  | Some CPanic => Some CompilePanic
  end.

(** The facts [p(a)] and [p(b)], the rule [p(c) :- q], their clauses, and the
    arguments of the goal [p(b)]. *)
Definition p_a : Term := Compound "p" [Atom "a"].
Definition p_b : Term := Compound "p" [Atom "b"].
Definition p_c_if_q : Term := Compound ":-" [Compound "p" [Atom "c"]; Atom "q"].

Definition clause_p_a : clause :=
  {| pi := ("p/1", 0); raw := p_a; xrTable := [XTerm (Atom "a")]; vars := [];
     bytecode := [opConst; 0; opExit] |}.
Definition clause_p_b : clause :=
  {| pi := ("p/1", 0); raw := p_b; xrTable := [XTerm (Atom "b")]; vars := [];
     bytecode := [opConst; 0; opExit] |}.
Definition clause_p_c_if_q : clause :=
  {| pi := ("p/1", 0); raw := p_c_if_q;
     xrTable := [XTerm (Atom "c"); XIndicator ("q", 0)]; vars := [];
     bytecode := [opConst; 0; opEnter; opCall; 1; opExit] |}.

Definition procedures_p (cs : list clause) : gmap string (Prolog.procedure clause) :=
  {[ "p/1" := Prolog.clauses cs ]}.

Definition goal_b : Term := List [Atom "b"].

(** The clauses whose constant is [b]. *)
Definition has_b (c : clause) : bool :=
  match xrTable c with
  | XTerm (Atom x) :: _ => String.eqb x "b"
  | _ => false
  end.

Lemma ref_newVariable s : ref (snd (newVariable s)) (next s) = Nil.
Proof. unfold ref, newVariable. cbn [snd cells]. rewrite lookup_delete_eq. reflexivity. Qed.

Lemma clause_p_a_fails : clauseFails (execFact 3) goal_b clause_p_a.
Proof. intros vs K st. eexists. split; reflexivity. Qed.

Lemma clause_p_b_exits : clauseExits (execFact 3) goal_b clause_p_b.
Proof.
  intros vs K st.
  assert (HU : Unify 3 goal_b (Cons (Atom "b") (Ref (next (store st))))
                 (snd (newVariable (store st)))
               = Some (U true (setRef (next (store st)) (Atom "[]")
                                 (snd (newVariable (store st)))))).
  { cbn [Unify goal_b List fold_right Cons String.eqb Ascii.eqb Bool.eqb negb length
         Nat.eqb unify_args walk].
    rewrite ref_newVariable. reflexivity. }
  eexists. split.
  - cbn [execFact clause_p_b bytecode xrTable].
    change (opConst =? opConst) with true. cbv iota.
    change ([XTerm (Atom "b")] !! Z.to_nat 0) with (Some (XTerm (Atom "b"))). cbv iota.
    change (newVariable (store st)) with (next (store st), snd (newVariable (store st))).
    cbv iota. rewrite HU. reflexivity.
  - reflexivity.
Qed.

Lemma emptyStore_wf : wfStore emptyStore.
Proof. intros p _. reflexivity. Qed.


(** *** Facts on [FreeVariables] and [ResetVariables] *)

(** The loop [for _, t := range ts { fvs = appendFreeVariables(fvs, t) }]. *)
Definition appendAll (fuel : nat) (s : Store) (ts : list Term) (acc : option (list nat))
    : option (list nat) :=
  fold_left (fun acc t =>
               match acc with
               | None => None
               | Some fvs => appendFreeVariables fuel s fvs t
               end) ts acc.

Lemma appendAll_None fuel s ts : appendAll fuel s ts None = None.
Proof. induction ts as [|t ts IH]; [reflexivity|exact IH]. Qed.

Lemma appendAll_cons fuel s t ts acc :
  appendAll fuel s (t :: ts) (Some acc)
  = appendAll fuel s ts (appendFreeVariables fuel s acc t).
Proof. reflexivity. Qed.

Lemma appendFreeVariables_S fuel s fvs t :
  appendFreeVariables (S fuel) s fvs t =
  match t with
  | Ref p =>
      match ref s p with
      | Nil => Some (if existsb (Nat.eqb p) fvs then fvs else fvs ++ [p])
      | r => appendFreeVariables fuel s fvs r
      end
  | Compound _ args => appendAll fuel s args (Some fvs)
  | _ => Some fvs
  end.
Proof. reflexivity. Qed.

Lemma FreeVariables_appendAll fuel s ts :
  FreeVariables fuel s ts = appendAll fuel s ts (Some []).
Proof. reflexivity. Qed.

(** What a traversal adds to the variables found so far: new variables
    behind, each of them once, and unbound. *)
Definition adds (s : Store) (acc out : list nat) : Prop :=
  acc `prefix_of` out /\ (NoDup acc -> NoDup out) /\
  (forall p, p ∈ out -> p ∈ acc \/ ref s p = Nil).

Lemma adds_refl s acc : adds s acc acc.
Proof. split; [reflexivity|]. split; auto. Qed.

Lemma adds_trans s a b c : adds s a b -> adds s b c -> adds s a c.
Proof.
  intros (H1 & H2 & H3) (H4 & H5 & H6). split; [etrans; eassumption|].
  split; [auto|]. intros p Hp. destruct (H6 p Hp) as [Hb|Hn]; [apply H3; exact Hb|auto].
Qed.

Lemma existsb_elem p fvs : existsb (Nat.eqb p) fvs = true <-> p ∈ fvs.
Proof.
  rewrite existsb_exists. split.
  - intros (x & Hx & E). apply Nat.eqb_eq in E as ->. apply list_elem_of_In. exact Hx.
  - intros H. exists p. split; [apply list_elem_of_In; exact H|apply Nat.eqb_refl].
Qed.

Lemma appendAll_adds fuel s ts :
  (forall t acc out, appendFreeVariables fuel s acc t = Some out -> adds s acc out) ->
  forall acc out, appendAll fuel s ts (Some acc) = Some out -> adds s acc out.
Proof.
  intros Hstep. induction ts as [|t ts IH]; intros acc out H.
  - injection H as <-. apply adds_refl.
  - rewrite appendAll_cons in H.
    destruct (appendFreeVariables fuel s acc t) as [mid|] eqn:E;
      [|rewrite appendAll_None in H; discriminate H].
    eapply adds_trans; [apply (Hstep _ _ _ E)|apply IH; exact H].
Qed.

Lemma appendFreeVariables_adds fuel s : forall t acc out,
  appendFreeVariables fuel s acc t = Some out -> adds s acc out.
Proof.
  induction fuel as [|fuel IH]; intros t acc out H; [discriminate H|].
  rewrite appendFreeVariables_S in H.
  destruct t as [|a|z|x|p|f args]; try (injection H as <-; apply adds_refl).
  - destruct (ref s p) eqn:Ep; try (apply (IH _ _ _ H)).
    injection H as <-. destruct (existsb (Nat.eqb p) acc) eqn:Ex; [apply adds_refl|].
    split; [apply prefix_app_r; reflexivity|]. split.
    + intros Hnd. apply NoDup_app. split; [exact Hnd|]. split; [|apply NoDup_singleton].
      intros x Hx Hx'. apply list_elem_of_singleton in Hx' as ->.
      apply existsb_elem in Hx. congruence.
    + intros q Hq. apply elem_of_app in Hq as [Hq|Hq]; [left; exact Hq|].
      apply list_elem_of_singleton in Hq as ->. right. exact Ep.
  - apply (appendAll_adds fuel s args IH _ _ H).
Qed.

(** A traversal sees the cells that are bound and the unbound variables it
    returns: in a store that agrees on them it goes the same way. *)
Lemma appendFreeVariables_same fuel s s2 : forall t acc out,
  appendFreeVariables fuel s acc t = Some out ->
  (forall p, ref s p <> Nil \/ p ∈ out -> ref s2 p = ref s p) ->
  appendFreeVariables fuel s2 acc t = Some out.
Proof.
  induction fuel as [|fuel IH]; intros t acc out H Hsame; [discriminate H|].
  rewrite appendFreeVariables_S in *.
  destruct t as [|a|z|x|p|f args]; try exact H.
  - destruct (ref s p) eqn:Ep.
    + assert (Hin : p ∈ out).
      { injection H as <-. destruct (existsb (Nat.eqb p) acc) eqn:Ex.
        - apply existsb_elem. exact Ex.
        - apply elem_of_app. right. apply list_elem_of_singleton. reflexivity. }
      rewrite (Hsame p (or_intror Hin)), Ep. exact H.
    + rewrite (Hsame p) by (left; rewrite Ep; discriminate). rewrite Ep. apply IH; assumption.
    + rewrite (Hsame p) by (left; rewrite Ep; discriminate). rewrite Ep. apply IH; assumption.
    + rewrite (Hsame p) by (left; rewrite Ep; discriminate). rewrite Ep. apply IH; assumption.
    + rewrite (Hsame p) by (left; rewrite Ep; discriminate). rewrite Ep. apply IH; assumption.
    + rewrite (Hsame p) by (left; rewrite Ep; discriminate). rewrite Ep. apply IH; assumption.
  - clear f. revert acc H. induction args as [|a args IHargs]; intros acc H; [exact H|].
    rewrite appendAll_cons in *.
    destruct (appendFreeVariables fuel s acc a) as [mid|] eqn:E;
      [|rewrite appendAll_None in H; discriminate H].
    pose proof (appendAll_adds fuel s args (appendFreeVariables_adds fuel s) _ _ H)
      as (Hpre & _).
    rewrite (IH a acc mid E).
    + apply IHargs. exact H.
    + intros q [Hq|Hq]; apply Hsame; [left; exact Hq|right].
      destruct Hpre as [k ->]. apply elem_of_app. left. exact Hq.
Qed.

Lemma ref_reset vs : forall s p,
  ref (fold_left (fun s v => setRef v Nil s) vs s) p = if decide (p ∈ vs) then Nil else ref s p.
Proof.
  induction vs as [|v vs IH]; intros s p; cbn [fold_left].
  - destruct (decide (p ∈ [])) as [H|_]; [apply elem_of_nil in H; destruct H|reflexivity].
  - rewrite IH. destruct (decide (p ∈ vs)) as [Hin|Hnin].
    + destruct (decide (p ∈ v :: vs)) as [_|Hn]; [reflexivity|].
      exfalso. apply Hn. apply elem_of_cons. auto.
    + destruct (decide (p = v)) as [->|Hne].
      * rewrite ref_setRef. destruct (decide (v ∈ v :: vs)) as [_|Hn]; [reflexivity|].
        exfalso. apply Hn. apply elem_of_cons. auto.
      * rewrite ref_setRef_ne by congruence.
        destruct (decide (p ∈ v :: vs)) as [Hin|_]; [|reflexivity].
        apply elem_of_cons in Hin as [?|?]; contradiction.
Qed.


Definition f_X_Y_X : Term := Compound "f" [Ref 0; Ref 1; Ref 0].

(** [X] has been bound to [a] since. *)
Definition boundSince : State :=
  {| store := setRef 0 (Atom "a") twoVariables; trace := [] |}.


(** *** The elements that [Each] visits *)

Lemma EachSeq_visits fuel s sep : forall seq acc elems,
  EachSeq fuel s seq sep acc = Some (inr elems) -> elems <> [].
Proof.
  induction fuel as [|fuel IH]; intros seq acc elems H; [discriminate H|].
  cbn [EachSeq] in H.
  assert (Hne : forall x, Some (inr (acc ++ [x]) : Exception + list Term) = Some (inr elems) ->
            elems <> []).
  { intros x [= <-]. destruct acc; discriminate. }
  destruct (walk fuel s seq) as [[|a|z|x|p|f [|a1 [|a2 [|a3 args]]]]|];
    try discriminate H; try exact (Hne _ H).
  destruct (String.eqb f sep); [exact (IH _ _ _ H)|exact (Hne _ H)].
Qed.

Lemma EachList_keeps fuel s whole : forall lst acc elems,
  EachList fuel s whole lst acc = Some (inr elems) -> (length acc <= length elems)%nat.
Proof.
  induction fuel as [|fuel IH]; intros lst acc elems H; [discriminate H|].
  cbn [EachList] in H.
  destruct (walk fuel s lst) as [[|a|z|x|p|f args]|]; try discriminate H.
  - destruct (String.eqb a "[]"); [injection H as <-; lia|discriminate H].
  - destruct (negb (String.eqb f ".") || negb (length args =? 2)%nat); [discriminate H|].
    destruct args as [|h [|tl args]]; try discriminate H.
    apply IH in H. rewrite length_app in H. cbn [length] in H. lia.
Qed.

Lemma Each_visits fuel s any elems :
  Each fuel s any = Some (inr elems) -> elems <> [].
Proof.
  unfold Each. intros H.
  destruct (walk fuel s any) as [[|a|z|x|p|f args]|] eqn:Ew; try discriminate H;
    try exact (EachSeq_visits _ _ _ _ _ _ H).
  destruct (String.eqb f "." && (length args =? 2)%nat) eqn:E;
    [|exact (EachSeq_visits _ _ _ _ _ _ H)].
  apply andb_true_iff in E as [Ef El]. apply Nat.eqb_eq in El.
  destruct fuel as [|fuel]; [discriminate H|]. cbn [EachList] in H.
  destruct (walk fuel s any) as [[|a|z|x|p|g gargs]|] eqn:Ew'; try discriminate H.
  - rewrite (walk_mono fuel (S fuel) s any ltac:(lia) _ Ew') in Ew. discriminate Ew.
  - destruct (negb (String.eqb g ".") || negb (length gargs =? 2)%nat); [discriminate H|].
    destruct gargs as [|h [|tl gargs]]; try discriminate H.
    apply EachList_keeps in H. cbn [app length] in H. intros ->. cbn in H. lia.
Qed.


End VM.
